(** * GA-PSO-web-app: the optimization engine of [script.js]

    A shallow embedding of the benchmark catalog, the random utilities, the
    two optimizers ([GA], [PSO]), the run driver and the replay archive of
    [src/script.js], followed by the properties proved about them.

    Numbers.  A JavaScript number is modelled as a real number or one of the
    three special values [Infinity], [-Infinity], [NaN]; arithmetic on the
    special values follows IEEE 754 (ECMAScript 6.1.6.1).  Rounding, overflow
    of finite results and the sign of zero are outside the model: a finite
    operation on finite operands yields the exact real result.

    Randomness.  [Math.random()] reads the next element of a sequence
    [draws : nat -> R]; the position in that sequence is part of the global
    state.  The engine's contract on it, [0 <= draws n < 1], is a hypothesis
    of the theorems that need it. *)

From Stdlib Require Import Reals Lra Lia ZArith List String Sorting.Sorted.
From stdpp Require Import base decidable option list gmap strings.

Set Default Proof Using "Type".

(* ===================================================================== *)
(** * Part I: the embedding                                               *)
(* ===================================================================== *)

(** ** JavaScript numbers *)

Inductive number : Type :=
| Fin (r : R)
| Infinity
| NegInfinity
| NaN.

Declare Scope js_scope.
Delimit Scope js_scope with js.
Bind Scope js_scope with number.

#[global] Instance Rlt_decision : RelDecision Rlt := Rlt_dec.
#[global] Instance Rle_decision : RelDecision Rle := Rle_dec.
#[global] Instance Req_decision : EqDecision R := Req_dec_T.

Module Number.

Definition is_finite (a : number) : Prop :=
  match a with Fin _ => True | _ => False end.

Definition neg (a : number) : number :=
  match a with
  | Fin x => Fin (- x)
  | Infinity => NegInfinity
  | NegInfinity => Infinity
  | NaN => NaN
  end.

Definition add (a b : number) : number :=
  match a, b with
  | NaN, _ | _, NaN => NaN
  | Fin x, Fin y => Fin (x + y)
  | Infinity, NegInfinity | NegInfinity, Infinity => NaN
  | Infinity, _ | _, Infinity => Infinity
  | NegInfinity, _ | _, NegInfinity => NegInfinity
  end.

Definition sub (a b : number) : number := add a (neg b).

(** [x * (+/-)Infinity] for a finite [x]: the sign rule, and [NaN] at 0. *)
Definition scale_inf (x : R) (pos : bool) : number :=
  if decide (0 < x)%R then (if pos then Infinity else NegInfinity)
  else if decide (x < 0)%R then (if pos then NegInfinity else Infinity)
  else NaN.

Definition mul (a b : number) : number :=
  match a, b with
  | NaN, _ | _, NaN => NaN
  | Fin x, Fin y => Fin (x * y)
  | Fin x, Infinity | Infinity, Fin x => scale_inf x true
  | Fin x, NegInfinity | NegInfinity, Fin x => scale_inf x false
  | Infinity, Infinity | NegInfinity, NegInfinity => Infinity
  | Infinity, NegInfinity | NegInfinity, Infinity => NegInfinity
  end.

(** [a < b]; every comparison with [NaN] is false. *)
Definition lt (a b : number) : bool :=
  match a, b with
  | NaN, _ | _, NaN => false
  | Fin x, Fin y => bool_decide (x < y)%R
  | NegInfinity, NegInfinity => false
  | NegInfinity, _ => true
  | _, NegInfinity => false
  | Infinity, _ => false
  | Fin _, Infinity => true
  end.

(** [a <= b] *)
Definition le (a b : number) : bool :=
  match a, b with
  | NaN, _ | _, NaN => false
  | Fin x, Fin y => bool_decide (x <= y)%R
  | NegInfinity, _ => true
  | _, Infinity => true
  | _, _ => false
  end.

Definition gt (a b : number) : bool := lt b a.

End Number.

Notation "a + b" := (Number.add a b) : js_scope.
Notation "a - b" := (Number.sub a b) : js_scope.
Notation "a * b" := (Number.mul a b) : js_scope.
Notation "- a" := (Number.neg a) : js_scope.
Notation "a <? b" := (Number.lt a b) : js_scope.
Notation "a >? b" := (Number.gt a b) : js_scope.

(** ** The [Math] object *)

Module Math.

Definition PI : number := Fin Rtrigo1.PI.
Definition E : number := Fin (exp 1).

Definition max (a b : number) : number :=
  match a, b with
  | NaN, _ | _, NaN => NaN
  | _, _ => if Number.lt a b then b else a
  end.

Definition min (a b : number) : number :=
  match a, b with
  | NaN, _ | _, NaN => NaN
  | _, _ => if Number.lt b a then b else a
  end.

Definition abs (a : number) : number :=
  match a with
  | Fin x => Fin (Rabs x)
  | Infinity | NegInfinity => Infinity
  | NaN => NaN
  end.

Definition sqrt (a : number) : number :=
  match a with
  | Fin x => if decide (x < 0)%R then NaN else Fin (R_sqrt.sqrt x)
  | Infinity => Infinity
  | NegInfinity | NaN => NaN
  end.

Definition log (a : number) : number :=
  match a with
  | Fin x =>
      if decide (x < 0)%R then NaN
      else if decide (x = 0)%R then NegInfinity
      else Fin (ln x)
  | Infinity => Infinity
  | NegInfinity | NaN => NaN
  end.

Definition exp (a : number) : number :=
  match a with
  | Fin x => Fin (Rtrigo_def.exp x)
  | Infinity => Infinity
  | NegInfinity => Fin 0
  | NaN => NaN
  end.

Definition cos (a : number) : number :=
  match a with
  | Fin x => Fin (Rtrigo_def.cos x)
  | _ => NaN
  end.

Definition sin (a : number) : number :=
  match a with
  | Fin x => Fin (Rtrigo_def.sin x)
  | _ => NaN
  end.

(** [Math.pow(b, n)] for a natural exponent [n] (the source only uses 2). *)
Definition pow (b : number) (n : nat) : number :=
  match n with
  | O => Fin 1
  | S _ =>
      match b with
      | Fin x => Fin (x ^ n)
      | Infinity => Infinity
      | NegInfinity => if Nat.even n then Infinity else NegInfinity
      | NaN => NaN
      end
  end.

Definition floor (a : number) : number :=
  match a with
  | Fin x => Fin (IZR (Zfloor x))
  | _ => a
  end.

End Math.

(** ** Benchmark functions (the [functions] object) *)

Module Benchmark.

Record t : Type := mk {
  name : string;
  func : number -> number -> number;
  bounds : number * number;   (* the array [lo, hi] *)
  globalMin : number
}.

End Benchmark.

Abbreviation benchmark := Benchmark.t.

Local Open Scope js_scope.

Definition sphere : benchmark := {|
  Benchmark.name := "Sphere";
  Benchmark.func := fun x y => x * x + y * y;
  Benchmark.bounds := (Fin (-5.12), Fin 5.12);
  Benchmark.globalMin := Fin 0
|}.

Definition rastrigin : benchmark := {|
  Benchmark.name := "Rastrigin";
  Benchmark.func := fun x y =>
    let A : number := Fin 10 in
    Fin 2 * A + (x * x - A * Math.cos (Fin 2 * Math.PI * x))
              + (y * y - A * Math.cos (Fin 2 * Math.PI * y));
  Benchmark.bounds := (Fin (-5.12), Fin 5.12);
  Benchmark.globalMin := Fin 0
|}.

Definition schwefel : benchmark := {|
  Benchmark.name := "Schwefel";
  Benchmark.func := fun x y =>
    Fin 418.9829 * Fin 2
    - (x * Math.sin (Math.sqrt (Math.abs x)) + y * Math.sin (Math.sqrt (Math.abs y)));
  Benchmark.bounds := (Fin (-500), Fin 500);
  Benchmark.globalMin := Fin 0
|}.

Definition rosenbrock : benchmark := {|
  Benchmark.name := "Rosenbrock";
  Benchmark.func := fun x y =>
    Math.pow (Fin 1 - x) 2 + Fin 100 * Math.pow (y - x * x) 2;
  Benchmark.bounds := (Fin (-2), Fin 2);
  Benchmark.globalMin := Fin 0
|}.

Definition ackley : benchmark := {|
  Benchmark.name := "Ackley";
  Benchmark.func := fun x y =>
    Fin (-20) * Math.exp (Fin (-0.2) * Math.sqrt (Fin 0.5 * (x * x + y * y)))
    - Math.exp (Fin 0.5 * (Math.cos (Fin 2 * Math.PI * x) + Math.cos (Fin 2 * Math.PI * y)))
    + Math.E + Fin 20;
  Benchmark.bounds := (Fin (-32.768), Fin 32.768);
  Benchmark.globalMin := Fin 0
|}.

(** The catalog, in the key order of the object literal. *)
Definition functions : list (string * benchmark) :=
  [ ("sphere", sphere); ("rastrigin", rastrigin); ("schwefel", schwefel);
    ("rosenbrock", rosenbrock); ("ackley", ackley) ]%string.

(** The position at which [drawBackground] draws the "Global Min marker":
    [(0,0)], except for the function named "Schwefel". *)
Definition globalMinMarker (f : benchmark) : number * number :=
  if String.eqb (Benchmark.name f) "Schwefel"
  then (Fin 420.9687, Fin 420.9687)
  else (Fin 0, Fin 0).

(** The value of a benchmark function at its marker. *)
Definition value_at_marker (f : benchmark) : number :=
  Benchmark.func f (fst (globalMinMarker f)) (snd (globalMinMarker f)).

(** ** Completions and the state monad of the engine

    A call either returns or throws.  [TypeError] is what reading a property
    of [null] or [undefined] throws; [OutOfFuel] marks a loop of the model
    that was given too few iterations (the theorems show it is never
    reached). *)

Inductive exn : Type := TypeError | OutOfFuel.

Inductive completion (A : Type) : Type :=
| Returned (a : A)
| Thrown (e : exn).
Arguments Returned {A} a.
Arguments Thrown {A} e.

(** The generator behind [Math.random()]: the sequence it will return and
    how much of it was consumed. *)
Record rng : Type := { draws : nat -> R; cursor : nat }.

(** The module-level variables that the optimizers read and write. *)
Record globals : Type := {
  bestGlobalFitness : number;
  bestGlobalPosition : option (number * number);
  currentFunction : benchmark;
  random_state : rng
}.

Definition M (A : Type) : Type := globals -> completion (A * globals).

Definition ret {A} (a : A) : M A := fun g => Returned (a, g).

Definition bind {A B} (m : M A) (k : A -> M B) : M B :=
  fun g => match m g with
           | Returned (a, g') => k a g'
           | Thrown e => Thrown e
           end.

Definition throw {A} (e : exn) : M A := fun _ => Thrown e.

Definition gets {A} (proj : globals -> A) : M A := fun g => Returned (proj g, g).

Definition modify (f : globals -> globals) : M unit := fun g => Returned (tt, f g).

Notation "x <- m ;; k" := (bind m (fun x => k))
  (at level 100, m at next level, right associativity).
Notation "m ;;; k" := (bind m (fun _ => k))
  (at level 100, right associativity).

(** [array.forEach] with a callback that updates each element in place. *)
Fixpoint forEach {A} (f : A -> M A) (l : list A) : M (list A) :=
  match l with
  | [] => ret []
  | a :: l' => a' <- f a ;; l'' <- forEach f l' ;; ret (a' :: l'')
  end.

Definition set_best (fit : number) (pos : number * number) (g : globals) : globals :=
  {| bestGlobalFitness := fit;
     bestGlobalPosition := Some pos;
     currentFunction := currentFunction g;
     random_state := random_state g |}.

Definition advance_rng (g : globals) : globals :=
  {| bestGlobalFitness := bestGlobalFitness g;
     bestGlobalPosition := bestGlobalPosition g;
     currentFunction := currentFunction g;
     random_state := {| draws := draws (random_state g);
                        cursor := S (cursor (random_state g)) |} |}.

(** ** Utils *)

Definition Math_random : M number :=
  fun g => Returned (Fin (draws (random_state g) (cursor (random_state g))),
                     advance_rng g).

Definition random (min max : number) : M number :=
  r <- Math_random ;; ret (r * (max - min) + min).

Definition gaussianRandom (mean stdev : number) : M number :=
  r <- Math_random ;;
  let u := Fin 1 - r in
  v <- Math_random ;;
  let z := Math.sqrt (Fin (-2.0) * Math.log u) * Math.cos (Fin 2.0 * Math.PI * v) in
  ret (z * stdev + mean).

(** [array[i]] for a number [i]: [undefined] unless [i] is an index in range. *)
Definition array_get {A} (l : list A) (i : number) : option A :=
  match i with
  | Fin v =>
      let z := Zfloor v in
      if decide (IZR z = v /\ (0 <= z)%Z) then l !! Z.to_nat z else None
  | _ => None
  end.

(** [Array.prototype.sort(cmp)]: a stable sort (ECMAScript 2019); an element
    moves behind another only when [cmp] of the two is positive, and a [NaN]
    result counts as 0. *)
Fixpoint sort_insert {A} (cmp : A -> A -> number) (a : A) (l : list A) : list A :=
  match l with
  | [] => [a]
  | b :: l' => if Fin 0 <? cmp a b then b :: sort_insert cmp a l' else a :: l
  end.

Definition Array_sort {A} (cmp : A -> A -> number) (l : list A) : list A :=
  foldr (sort_insert cmp) [] l.

(** ** Population members *)

Module Individual.

Record t : Type := mk { x : number; y : number; fitness : number }.

(** The object made by [{...undefined}]: it has no fields, and a missing
    field reads as [undefined], which every use in the script converts to
    [NaN]. *)
Definition empty : t := mk NaN NaN NaN.

(** [{...p}] *)
Definition spread (p : option t) : t :=
  match p with Some i => i | None => empty end.

Definition set_x (v : number) (i : t) : t := mk v (y i) (fitness i).
Definition set_y (v : number) (i : t) : t := mk (x i) v (fitness i).
Definition set_fitness (v : number) (i : t) : t := mk (x i) (y i) v.

End Individual.

Module Particle.

Record t : Type := mk {
  x : number; y : number;
  vx : number; vy : number;
  pbestX : number; pbestY : number;
  pbestFit : number;
  fitness : number
}.

End Particle.

(** [Math.max(lo, Math.min(hi, v))] *)
Definition clamp (bounds : number * number) (v : number) : number :=
  Math.max (fst bounds) (Math.min (snd bounds) v).

(** The update of the run-global best shared by both [evaluate] methods. *)
Definition update_global_best (fit px py : number) : M unit :=
  best <- gets bestGlobalFitness ;;
  if fit <? best then modify (set_best fit (px, py)) else ret tt.

(** ** class GA *)

Module GA.

Record t : Type := mk {
  popSize : Z;
  mutationRate : number;
  crossoverRate : number;
  elitism : bool;
  color : string;
  population : list Individual.t;
  bounds : number * number
}.

Definition set_population (pop : list Individual.t) (this : t) : t :=
  mk (popSize this) (mutationRate this) (crossoverRate this) (elitism this)
     (color this) pop (bounds this).

Definition evaluate_member (ind : Individual.t) : M Individual.t :=
  f <- gets currentFunction ;;
  let ind := Individual.set_fitness (Benchmark.func f (Individual.x ind) (Individual.y ind)) ind in
  update_global_best (Individual.fitness ind) (Individual.x ind) (Individual.y ind) ;;;
  ret ind.

Definition by_fitness (a b : Individual.t) : number :=
  Individual.fitness a - Individual.fitness b.

Definition evaluate (this : t) : M t :=
  pop <- forEach evaluate_member (population this) ;;
  ret (set_population (Array_sort by_fitness pop) this).

(** The constructor's [for] loop, [n] iterations. *)
Fixpoint initialize (n : nat) (bounds : number * number) : M (list Individual.t) :=
  match n with
  | O => ret []
  | S n' =>
      x <- random (fst bounds) (snd bounds) ;;
      y <- random (fst bounds) (snd bounds) ;;
      rest <- initialize n' bounds ;;
      ret (Individual.mk x y Infinity :: rest)
  end.

Definition new (popSize : Z) (mutationRate crossoverRate : number) (elitism : bool) : M t :=
  f <- gets currentFunction ;;
  pop <- initialize (Z.to_nat popSize) (Benchmark.bounds f) ;;
  evaluate (mk popSize mutationRate crossoverRate elitism "#e74c3c" pop (Benchmark.bounds f)).

(** One round of the tournament: [best] is [null], [undefined] or a member. *)
Definition tournament_round (this : t) (best : option Individual.t) : M (option Individual.t) :=
  r <- Math_random ;;
  let ind := array_get (population this) (Math.floor (r * Fin (IZR (popSize this)))) in
  match best with
  | None => ret ind
  | Some b =>
      match ind with
      | None => throw TypeError
      | Some i => if Individual.fitness i <? Individual.fitness b then ret ind else ret best
      end
  end.

Definition tournamentSelect (this : t) : M (option Individual.t) :=
  best <- tournament_round this None ;;
  best <- tournament_round this best ;;
  tournament_round this best.

Definition mutate (this : t) (ind : Individual.t) : M Individual.t :=
  let range := snd (bounds this) - fst (bounds this) in
  r <- Math_random ;;
  ind <- (if r <? mutationRate this then
            d <- gaussianRandom (Fin 0) (range * Fin 0.05) ;;
            ret (Individual.set_x (clamp (bounds this) (Individual.x ind + d)) ind)
          else ret ind) ;;
  r <- Math_random ;;
  if r <? mutationRate this then
    d <- gaussianRandom (Fin 0) (range * Fin 0.05) ;;
    ret (Individual.set_y (clamp (bounds this) (Individual.y ind + d)) ind)
  else ret ind.

(** Blend crossover of the two parents; reading [p.x] of an [undefined]
    parent throws. *)
Definition blend (alpha : number) (p1 p2 : option Individual.t)
    (c1 c2 : Individual.t) : M (Individual.t * Individual.t) :=
  match p1, p2 with
  | Some p1, Some p2 =>
      let c1 := Individual.set_x (alpha * Individual.x p1 + (Fin 1 - alpha) * Individual.x p2) c1 in
      let c1 := Individual.set_y (alpha * Individual.y p1 + (Fin 1 - alpha) * Individual.y p2) c1 in
      let c2 := Individual.set_x (alpha * Individual.x p2 + (Fin 1 - alpha) * Individual.x p1) c2 in
      let c2 := Individual.set_y (alpha * Individual.y p2 + (Fin 1 - alpha) * Individual.y p1) c2 in
      ret (c1, c2)
  | _, _ => throw TypeError
  end.

(** The body of the [while] loop of [step]: two offspring. *)
Definition offspring (this : t) : M (Individual.t * Individual.t) :=
  p1 <- tournamentSelect this ;;
  p2 <- tournamentSelect this ;;
  let c1 := Individual.spread p1 in
  let c2 := Individual.spread p2 in
  r <- Math_random ;;
  cs <- (if r <? crossoverRate this then
           alpha <- Math_random ;; blend alpha p1 p2 c1 c2
         else ret (c1, c2)) ;;
  c1 <- mutate this (fst cs) ;;
  c2 <- mutate this (snd cs) ;;
  ret (c1, c2).

(** [while (newPop.length < this.popSize) { ... }], at most [fuel] rounds. *)
Fixpoint breed (fuel : nat) (this : t) (newPop : list Individual.t) : M (list Individual.t) :=
  if decide (Z.of_nat (length newPop) < popSize this)%Z then
    match fuel with
    | O => throw OutOfFuel
    | S fuel' =>
        cs <- offspring this ;;
        let newPop := newPop ++ [fst cs] in
        let newPop :=
          if decide (Z.of_nat (length newPop) < popSize this)%Z
          then newPop ++ [snd cs] else newPop in
        breed fuel' this newPop
    end
  else ret newPop.

Definition step (this : t) : M t :=
  let newPop :=
    if elitism this then [Individual.spread (population this !! 0%nat)] else [] in
  newPop <- breed (Z.to_nat (popSize this)) this newPop ;;
  evaluate (set_population newPop this).

Definition getPopulation (this : t) : list Individual.t := population this.

End GA.

(** ** class PSO *)

Module PSO.

Record t : Type := mk {
  swarmSize : Z;
  w : number;
  c1 : number;
  c2 : number;
  color : string;
  particles : list Particle.t;
  bounds : number * number
}.

Definition set_particles (ps : list Particle.t) (this : t) : t :=
  mk (swarmSize this) (w this) (c1 this) (c2 this) (color this) ps (bounds this).

Definition evaluate_particle (p : Particle.t) : M Particle.t :=
  f <- gets currentFunction ;;
  let fit := Benchmark.func f (Particle.x p) (Particle.y p) in
  let p := Particle.mk (Particle.x p) (Particle.y p) (Particle.vx p) (Particle.vy p)
             (Particle.pbestX p) (Particle.pbestY p) (Particle.pbestFit p) fit in
  let p := if Particle.fitness p <? Particle.pbestFit p
           then Particle.mk (Particle.x p) (Particle.y p) (Particle.vx p) (Particle.vy p)
                  (Particle.x p) (Particle.y p) (Particle.fitness p) (Particle.fitness p)
           else p in
  update_global_best (Particle.fitness p) (Particle.x p) (Particle.y p) ;;;
  ret p.

Definition evaluate (this : t) : M t :=
  ps <- forEach evaluate_particle (particles this) ;;
  ret (set_particles ps this).

(** The constructor's [for] loop, [n] iterations. *)
Fixpoint initialize (n : nat) (bounds : number * number) : M (list Particle.t) :=
  match n with
  | O => ret []
  | S n' =>
      x <- random (fst bounds) (snd bounds) ;;
      y <- random (fst bounds) (snd bounds) ;;
      vx <- random (Fin (-1)) (Fin 1) ;;
      vy <- random (Fin (-1)) (Fin 1) ;;
      rest <- initialize n' bounds ;;
      ret (Particle.mk x y vx vy x y Infinity Infinity :: rest)
  end.

Definition new (swarmSize : Z) (w c1 c2 : number) : M t :=
  f <- gets currentFunction ;;
  ps <- initialize (Z.to_nat swarmSize) (Benchmark.bounds f) ;;
  evaluate (mk swarmSize w c1 c2 "#3498db" ps (Benchmark.bounds f)).

(** The callback of [step]: velocity, position, clamp.  Reading
    [bestGlobalPosition[0]] throws while the variable is [null]. *)
Definition move (this : t) (p : Particle.t) : M Particle.t :=
  r1 <- Math_random ;;
  r2 <- Math_random ;;
  gbest <- gets bestGlobalPosition ;;
  match gbest with
  | None => throw TypeError
  | Some (gx, gy) =>
      let vx := w this * Particle.vx p
                + c1 this * r1 * (Particle.pbestX p - Particle.x p)
                + c2 this * r2 * (gx - Particle.x p) in
      let vy := w this * Particle.vy p
                + c1 this * r1 * (Particle.pbestY p - Particle.y p)
                + c2 this * r2 * (gy - Particle.y p) in
      let x := Particle.x p + vx in
      let y := Particle.y p + vy in
      ret (Particle.mk (clamp (bounds this) x) (clamp (bounds this) y) vx vy
             (Particle.pbestX p) (Particle.pbestY p) (Particle.pbestFit p)
             (Particle.fitness p))
  end.

Definition step (this : t) : M t :=
  ps <- forEach (move this) (particles this) ;;
  evaluate (set_particles ps this).

Definition getPopulation (this : t) : list Particle.t := particles this.

End PSO.

(** ** The page: run driver, history and archive

    Writes to the DOM (button states, statistics text, the results table) and
    the scheduling of the next animation frame are presentation and are not
    modelled; each call of [loop] or [replayLoop] is one frame.  What [render]
    draws is recorded in [canvas]. *)

Module Point.
Record t : Type := mk { x : number; y : number }.
End Point.

(** One element of a history: [{x, y}] for every member. *)
Definition snapshot : Type := list Point.t.

Inductive algorithm : Type :=
| AlgGA (g : GA.t)
| AlgPSO (p : PSO.t).

Definition algorithm_step (a : algorithm) : M algorithm :=
  match a with
  | AlgGA g => g' <- GA.step g ;; ret (AlgGA g')
  | AlgPSO p => p' <- PSO.step p ;; ret (AlgPSO p')
  end.

Definition algorithm_color (a : algorithm) : string :=
  match a with
  | AlgGA g => GA.color g
  | AlgPSO p => PSO.color p
  end.

(** [getPopulation().map(p => ({x: p.x, y: p.y}))] *)
Definition algorithm_positions (a : algorithm) : snapshot :=
  match a with
  | AlgGA g => map (fun p => Point.mk (Individual.x p) (Individual.y p)) (GA.getPopulation g)
  | AlgPSO s => map (fun p => Point.mk (Particle.x p) (Particle.y p)) (PSO.getPopulation s)
  end.

(** A value of [executionHistories]; [history] is a reference to an array. *)
Module Entry.
Record t : Type := mk { history : nat; color : string; functionName : string }.
End Entry.

(** One call of [render] as seen on the canvas: the points drawn, if any,
    and their color. *)
Record render_call : Type := { shown : option snapshot; paint : string }.

(** The values read from the form when a handler runs. *)
Record controls : Type := {
  algorithmSelect : string;
  gaPopSize : Z;
  gaMutation : number;
  gaCrossover : number;
  gaElitism : bool;
  psoSwarmSize : Z;
  psoW : number;
  psoC1 : number;
  psoC2 : number;
  maxIterations : Z
}.

(** The state of the page.  [heap] holds the arrays created for histories;
    [currentRunHistory] and [Entry.history] are indices into it, so that two
    references to one array see each other's [push]. *)
Record world : Type := {
  engine : globals;
  isRunning : bool;
  isReplaying : bool;
  currentAlgorithm : option algorithm;
  iteration : nat;
  executionCount : nat;
  currentRunHistory : nat;
  executionHistories : gmap nat Entry.t;
  heap : list (list snapshot);
  canvas : list render_call
}.

Definition with_engine (v : globals) (w : world) : world :=
  {| engine := v; isRunning := isRunning w; isReplaying := isReplaying w;
     currentAlgorithm := currentAlgorithm w; iteration := iteration w;
     executionCount := executionCount w; currentRunHistory := currentRunHistory w;
     executionHistories := executionHistories w; heap := heap w; canvas := canvas w |}.

Definition with_isRunning (v : bool) (w : world) : world :=
  {| engine := engine w; isRunning := v; isReplaying := isReplaying w;
     currentAlgorithm := currentAlgorithm w; iteration := iteration w;
     executionCount := executionCount w; currentRunHistory := currentRunHistory w;
     executionHistories := executionHistories w; heap := heap w; canvas := canvas w |}.

Definition with_isReplaying (v : bool) (w : world) : world :=
  {| engine := engine w; isRunning := isRunning w; isReplaying := v;
     currentAlgorithm := currentAlgorithm w; iteration := iteration w;
     executionCount := executionCount w; currentRunHistory := currentRunHistory w;
     executionHistories := executionHistories w; heap := heap w; canvas := canvas w |}.

Definition with_currentAlgorithm (v : option algorithm) (w : world) : world :=
  {| engine := engine w; isRunning := isRunning w; isReplaying := isReplaying w;
     currentAlgorithm := v; iteration := iteration w;
     executionCount := executionCount w; currentRunHistory := currentRunHistory w;
     executionHistories := executionHistories w; heap := heap w; canvas := canvas w |}.

Definition with_iteration (v : nat) (w : world) : world :=
  {| engine := engine w; isRunning := isRunning w; isReplaying := isReplaying w;
     currentAlgorithm := currentAlgorithm w; iteration := v;
     executionCount := executionCount w; currentRunHistory := currentRunHistory w;
     executionHistories := executionHistories w; heap := heap w; canvas := canvas w |}.

Definition with_executionCount (v : nat) (w : world) : world :=
  {| engine := engine w; isRunning := isRunning w; isReplaying := isReplaying w;
     currentAlgorithm := currentAlgorithm w; iteration := iteration w;
     executionCount := v; currentRunHistory := currentRunHistory w;
     executionHistories := executionHistories w; heap := heap w; canvas := canvas w |}.

Definition with_currentRunHistory (v : nat) (w : world) : world :=
  {| engine := engine w; isRunning := isRunning w; isReplaying := isReplaying w;
     currentAlgorithm := currentAlgorithm w; iteration := iteration w;
     executionCount := executionCount w; currentRunHistory := v;
     executionHistories := executionHistories w; heap := heap w; canvas := canvas w |}.

Definition with_executionHistories (v : gmap nat Entry.t) (w : world) : world :=
  {| engine := engine w; isRunning := isRunning w; isReplaying := isReplaying w;
     currentAlgorithm := currentAlgorithm w; iteration := iteration w;
     executionCount := executionCount w; currentRunHistory := currentRunHistory w;
     executionHistories := v; heap := heap w; canvas := canvas w |}.

Definition with_heap (v : list (list snapshot)) (w : world) : world :=
  {| engine := engine w; isRunning := isRunning w; isReplaying := isReplaying w;
     currentAlgorithm := currentAlgorithm w; iteration := iteration w;
     executionCount := executionCount w; currentRunHistory := currentRunHistory w;
     executionHistories := executionHistories w; heap := v; canvas := canvas w |}.

Definition with_canvas (v : list render_call) (w : world) : world :=
  {| engine := engine w; isRunning := isRunning w; isReplaying := isReplaying w;
     currentAlgorithm := currentAlgorithm w; iteration := iteration w;
     executionCount := executionCount w; currentRunHistory := currentRunHistory w;
     executionHistories := executionHistories w; heap := heap w; canvas := v |}.

Definition reset_best (g : globals) : globals :=
  {| bestGlobalFitness := Infinity;
     bestGlobalPosition := None;
     currentFunction := currentFunction g;
     random_state := random_state g |}.

Definition set_currentFunction (f : benchmark) (g : globals) : globals :=
  {| bestGlobalFitness := bestGlobalFitness g;
     bestGlobalPosition := bestGlobalPosition g;
     currentFunction := f;
     random_state := random_state g |}.

(** [x = [...]]: a new array, and the reference to it. *)
Definition new_array (content : list snapshot) (w : world) : nat * world :=
  (length (heap w), with_heap (heap w ++ [content]) w).

(** [ref.push(s)] *)
Definition array_push (ref : nat) (s : snapshot) (w : world) : world :=
  with_heap (alter (fun h => h ++ [s]) ref (heap w)) w.

(** The array behind a reference. *)
Definition deref (w : world) (ref : nat) : list snapshot :=
  default [] (heap w !! ref).

(** Run a computation of the engine on the page's globals. *)
Definition run_engine {A} (m : M A) (w : world) : completion (A * world) :=
  match m (engine w) with
  | Returned (a, g') => Returned (a, with_engine g' w)
  | Thrown e => Thrown e
  end.

Definition captureState (w : world) : snapshot :=
  match currentAlgorithm w with
  | None => []
  | Some a => algorithm_positions a
  end.

Definition render (populationOverride : option snapshot) (colorOverride : option string)
    (w : world) : world :=
  let call :=
    match populationOverride with
    | Some pop =>
        {| shown := Some pop;
           paint := match colorOverride with
                    | Some c => if decide (c = EmptyString) then "red"%string else c
                    | None => "red"%string
                    end |}
    | None =>
        match currentAlgorithm w with
        | Some a => {| shown := Some (algorithm_positions a); paint := algorithm_color a |}
        | None => {| shown := None; paint := "red"%string |}
        end
    end in
  with_canvas (canvas w ++ [call]) w.

Definition logResult (w : world) : completion world :=
  let w := with_executionCount (S (executionCount w)) w in
  match currentAlgorithm w with
  | None => Thrown TypeError
  | Some a =>
      let e := Entry.mk (currentRunHistory w) (algorithm_color a)
                 (Benchmark.name (currentFunction (engine w))) in
      Returned (with_executionHistories (<[executionCount w := e]> (executionHistories w)) w)
  end.

Definition stopSimulation (shouldLog : bool) (w : world) : completion world :=
  if isReplaying w then Returned (with_isReplaying false w)
  else
    let w := with_isRunning false w in
    if shouldLog && bool_decide (0 < iteration w)%nat then logResult w else Returned w.

Definition resetSimulation (w : world) : completion world :=
  match stopSimulation false w with
  | Thrown e => Thrown e
  | Returned w =>
      let w := with_currentAlgorithm None w in
      let w := with_iteration 0 w in
      let w := with_engine (reset_best (engine w)) w in
      let '(ref, w) := new_array [] w in
      let w := with_currentRunHistory ref w in
      Returned (render None None w)
  end.

Definition loop (ctl : controls) (w : world) : completion world :=
  if negb (isRunning w) then Returned w
  else
    match currentAlgorithm w with
    | None => Thrown TypeError
    | Some a =>
        match run_engine (algorithm_step a) w with
        | Thrown e => Thrown e
        | Returned (a', w) =>
            let w := with_currentAlgorithm (Some a') w in
            let w := with_iteration (S (iteration w)) w in
            let w := array_push (currentRunHistory w) (captureState w) w in
            let w := render None None w in
            if bool_decide (0 < maxIterations ctl)%Z
               && bool_decide (maxIterations ctl <= Z.of_nat (iteration w))%Z
            then stopSimulation true w
            else Returned w
        end
    end.

Definition construct (ctl : controls) : M algorithm :=
  if decide (algorithmSelect ctl = "ga"%string) then
    g <- GA.new (gaPopSize ctl) (gaMutation ctl) (gaCrossover ctl) (gaElitism ctl) ;;
    ret (AlgGA g)
  else
    p <- PSO.new (psoSwarmSize ctl) (psoW ctl) (psoC1 ctl) (psoC2 ctl) ;;
    ret (AlgPSO p).

Definition startSimulation (ctl : controls) (w : world) : completion world :=
  if isRunning w || isReplaying w then Returned w
  else
    let fresh :=
      match currentAlgorithm w with
      | Some _ => Returned w
      | None =>
          match resetSimulation w with
          | Thrown e => Thrown e
          | Returned w =>
              match run_engine (construct ctl) w with
              | Thrown e => Thrown e
              | Returned (a, w) =>
                  let w := with_currentAlgorithm (Some a) w in
                  let '(ref, w) := new_array [captureState w] w in
                  Returned (with_currentRunHistory ref w)
              end
          end
      end in
    match fresh with
    | Thrown e => Thrown e
    | Returned w => loop ctl (with_isRunning true w)
    end.

Definition replayLoop (history : nat) (color : string) (w : world) : world :=
  if negb (isReplaying w) then w
  else
    match deref w history !! iteration w with
    | Some pop =>
        let w := render (Some pop) (Some color) w in
        with_iteration (S (iteration w)) w
    | None => with_isReplaying false w
    end.

(** The [for (key in functions)] search of [startReplay]. *)
Definition function_named (n : string) : option benchmark :=
  snd <$> find (fun kf => String.eqb (Benchmark.name (snd kf)) n) functions.

Definition startReplay (id : nat) (w : world) : world :=
  if isRunning w || isReplaying w then w
  else
    match executionHistories w !! id with
    | None => w
    | Some data =>
        let w := with_isReplaying true w in
        let w := with_iteration 0 w in
        let w :=
          if String.eqb (Benchmark.name (currentFunction (engine w))) (Entry.functionName data)
          then w
          else match function_named (Entry.functionName data) with
               | Some f => with_engine (set_currentFunction f (engine w)) w
               | None => w
               end in
        replayLoop (Entry.history data) (Entry.color data) w
    end.

(** [functionSelect]'s change listener; an unknown key leaves
    [currentFunction] undefined and [drawBackground] throws. *)
Definition onFunctionChange (key : string) (w : world) : completion world :=
  match snd <$> find (fun kf => String.eqb (fst kf) key) functions with
  | None => Thrown TypeError
  | Some f => resetSimulation (with_engine (set_currentFunction f (engine w)) w)
  end.

(** The page's event handlers and animation frames. *)
Inductive event : Type :=
| ClickRun (ctl : controls)
| ClickStop
| ClickReset
| ChangeAlgorithm
| ChangeFunction (key : string)
| ClickReplay (id : nat)
| FrameLoop (ctl : controls)
| FrameReplay (history : nat) (color : string).

Definition handle (e : event) (w : world) : completion world :=
  match e with
  | ClickRun ctl => startSimulation ctl w
  | ClickStop => stopSimulation true w
  | ClickReset => resetSimulation w
  | ChangeAlgorithm => resetSimulation w
  | ChangeFunction key => onFunctionChange key w
  | ClickReplay id => Returned (startReplay id w)
  | FrameLoop ctl => loop ctl w
  | FrameReplay h c => Returned (replayLoop h c w)
  end.

Fixpoint handle_all (es : list event) (w : world) : completion world :=
  match es with
  | [] => Returned w
  | e :: es' =>
      match handle e w with
      | Returned w' => handle_all es' w'
      | Thrown x => Thrown x
      end
  end.

(** ** Vocabulary of the properties *)

(** The state of the script when the page has loaded ([Math.random] will
    return [rnd 0], [rnd 1], ...). *)
Definition initial_globals (rnd : nat -> R) : globals :=
  {| bestGlobalFitness := Infinity;
     bestGlobalPosition := None;
     currentFunction := sphere;
     random_state := {| draws := rnd; cursor := 0 |} |}.

Definition initial_world (rnd : nat -> R) : world :=
  {| engine := initial_globals rnd;
     isRunning := false;
     isReplaying := false;
     currentAlgorithm := None;
     iteration := 0;
     executionCount := 0;
     currentRunHistory := 0;
     executionHistories := ∅;
     heap := [[]];
     canvas := [ {| shown := None; paint := "red" |} ] |}.

(** The benchmark functions of the catalog. *)
Definition catalog : list benchmark := map snd functions.

(** A benchmark the optimizers can run on: finite bounds in order, and a
    finite value at every finite point. *)
Definition well_behaved (f : benchmark) : Prop :=
  (exists lo hi, Benchmark.bounds f = (Fin lo, Fin hi) /\ (lo < hi)%R) /\
  (forall a b, exists v, Benchmark.func f (Fin a) (Fin b) = Fin v).

(** [Math.random()] keeps its contract: every value is in [0, 1). *)
Definition fair (g : globals) : Prop :=
  forall n, (0 <= draws (random_state g) n < 1)%R.

(** [lo <= v <= hi]; false when [v] is [NaN]. *)
Definition within (bounds : number * number) (v : number) : Prop :=
  Number.le (fst bounds) v = true /\ Number.le v (snd bounds) = true.

Definition sorted_by_fitness (pop : list Individual.t) : Prop :=
  StronglySorted
    (fun a b => Number.le (Individual.fitness a) (Individual.fitness b) = true) pop.

(** The smallest fitness value of a generation. *)
Definition min_fitness (pop : list Individual.t) : number :=
  foldr Math.min Infinity (map Individual.fitness pop).

(** The best fitness did not go up: it is the same number, or a strictly
    smaller one. *)
Definition not_above (now before : number) : Prop :=
  now = before \/ Number.lt now before = true.

(** [k] calls of [step] in a row. *)
Fixpoint GA_steps (k : nat) (this : GA.t) : M GA.t :=
  match k with
  | O => ret this
  | S k' => this' <- GA.step this ;; GA_steps k' this'
  end.

Fixpoint PSO_steps (k : nat) (this : PSO.t) : M PSO.t :=
  match k with
  | O => ret this
  | S k' => this' <- PSO.step this ;; PSO_steps k' this'
  end.

(** A sequence of [evaluate()] and [step()] calls on one optimizer. *)
Inductive call : Type := CallEvaluate | CallStep.

Definition perform (c : call) (a : algorithm) : M algorithm :=
  match c, a with
  | CallEvaluate, AlgGA g => g' <- GA.evaluate g ;; ret (AlgGA g')
  | CallEvaluate, AlgPSO p => p' <- PSO.evaluate p ;; ret (AlgPSO p')
  | CallStep, _ => algorithm_step a
  end.

Fixpoint perform_all (cs : list call) (a : algorithm) : M algorithm :=
  match cs with
  | [] => ret a
  | c :: cs' => a' <- perform c a ;; perform_all cs' a'
  end.

(** Total correctness: [m] returns from [g], and [Q] holds of the result. *)
Definition wp {A} (m : M A) (Q : A -> globals -> Prop) (g : globals) : Prop :=
  match m g with
  | Returned (a, g') => Q a g'
  | Thrown _ => False
  end.

(** Hoare triples over [wp]. *)
Definition hoare {A} (P : globals -> Prop) (m : M A) (Q : A -> globals -> Prop) : Prop :=
  forall g, P g -> wp m Q g.

(** What [evaluate] makes of one member, and of the run-global best. *)
Definition scored (f : benchmark) (ind : Individual.t) : Individual.t :=
  Individual.set_fitness (Benchmark.func f (Individual.x ind) (Individual.y ind)) ind.

Definition note_best (fit px py : number) (g : globals) : globals :=
  if fit <? bestGlobalFitness g then set_best fit (px, py) g else g.

Definition note_member (g : globals) (ind : Individual.t) : globals :=
  note_best (Individual.fitness ind) (Individual.x ind) (Individual.y ind) g.

(** The globals a computation may not touch: the benchmark function and the
    sequence behind [Math.random()]. *)
Definition same_setting (g g' : globals) : Prop :=
  currentFunction g' = currentFunction g /\
  draws (random_state g') = draws (random_state g).

(** Only the position in the random sequence moved. *)
Definition rng_only (g g' : globals) : Prop :=
  bestGlobalFitness g' = bestGlobalFitness g /\
  bestGlobalPosition g' = bestGlobalPosition g /\
  same_setting g g'.

(** [m], when it returns, leaves the globals related by [R]. *)
Definition preserves {A} (R : globals -> globals -> Prop) (m : M A) : Prop :=
  forall g a g', m g = Returned (a, g') -> R g g'.

Definition finite_fitness (ind : Individual.t) : Prop :=
  Number.is_finite (Individual.fitness ind).

(** A member's coordinates are inside the bounds. *)
Definition inside (bounds : number * number) (ind : Individual.t) : Prop :=
  within bounds (Individual.x ind) /\ within bounds (Individual.y ind).

(** The run-global best fitness did not go up. *)
Definition improves (g g' : globals) : Prop :=
  not_above (bestGlobalFitness g') (bestGlobalFitness g).

(** What [PSO.evaluate] makes of one particle. *)
Definition scored_particle (f : benchmark) (p : Particle.t) : Particle.t :=
  let fit := Benchmark.func f (Particle.x p) (Particle.y p) in
  if fit <? Particle.pbestFit p
  then Particle.mk (Particle.x p) (Particle.y p) (Particle.vx p) (Particle.vy p)
         (Particle.x p) (Particle.y p) fit fit
  else Particle.mk (Particle.x p) (Particle.y p) (Particle.vx p) (Particle.vy p)
         (Particle.pbestX p) (Particle.pbestY p) (Particle.pbestFit p) fit.

Definition note_particle (g : globals) (p : Particle.t) : globals :=
  note_best (Particle.fitness p) (Particle.x p) (Particle.y p) g.

(** The benchmark function is [f] and [Math.random()] follows [rnd]. *)
Definition setting (f : benchmark) (rnd : nat -> R) (g : globals) : Prop :=
  currentFunction g = f /\ draws (random_state g) = rnd.

(** [m] returns, keeps [I] and gives a result that satisfies [Q]. *)
Definition invariantly {A} (I : globals -> Prop) (m : M A) (Q : A -> Prop) : Prop :=
  hoare I m (fun a g' => I g' /\ Q a).

(** A GA as [evaluate] over the benchmark function [f] leaves it. *)
Definition evaluated (f : benchmark) (this : GA.t) : Prop :=
  GA.bounds this = Benchmark.bounds f /\
  (1 <= GA.popSize this)%Z /\
  length (GA.population this) = Z.to_nat (GA.popSize this) /\
  Forall (inside (GA.bounds this)) (GA.population this) /\
  Forall (fun i => Individual.fitness i
                   = Benchmark.func f (Individual.x i) (Individual.y i))
         (GA.population this) /\
  sorted_by_fitness (GA.population this).

(** The hyperparameters of a GA, which no method changes. *)
Definition same_parameters (a b : GA.t) : Prop :=
  GA.popSize a = GA.popSize b /\ GA.mutationRate a = GA.mutationRate b /\
  GA.crossoverRate a = GA.crossoverRate b /\ GA.elitism a = GA.elitism b /\
  GA.color a = GA.color b /\ GA.bounds a = GA.bounds b.

(** [p] is a member of the population (not [null], not [undefined]). *)
Definition selected (this : GA.t) (p : option Individual.t) : Prop :=
  exists i, p = Some i /\ i ∈ GA.population this.

(** A GA built by the constructor and stepped [k] times. *)
Definition GA_run (popSize : Z) (mutationRate crossoverRate : number) (elitism : bool)
    (k : nat) : M GA.t :=
  this <- GA.new popSize mutationRate crossoverRate elitism ;; GA_steps k this.

(** Globals for worked examples: a fresh page whose [Math.random()] always
    returns 0. *)
Definition zero_globals : globals := initial_globals (fun _ => 0%R).

(** A PSO built by the constructor and stepped [k] times. *)
Definition PSO_run (swarmSize : Z) (w c1 c2 : number) (k : nat) : M PSO.t :=
  this <- PSO.new swarmSize w c1 c2 ;; PSO_steps k this.

(** The run-global best as [resetSimulation] leaves it. *)
Definition fresh_run (g : globals) : Prop :=
  bestGlobalFitness g = Infinity /\ bestGlobalPosition g = None.

(** The particle that [PSO.move] makes of [p] from the draws [r1], [r2] and
    the global best position [(gx, gy)]. *)
Definition moved (this : PSO.t) (gx gy r1 r2 : number) (p : Particle.t) : Particle.t :=
  let vx := PSO.w this * Particle.vx p
            + PSO.c1 this * r1 * (Particle.pbestX p - Particle.x p)
            + PSO.c2 this * r2 * (gx - Particle.x p) in
  let vy := PSO.w this * Particle.vy p
            + PSO.c1 this * r1 * (Particle.pbestY p - Particle.y p)
            + PSO.c2 this * r2 * (gy - Particle.y p) in
  Particle.mk (clamp (PSO.bounds this) (Particle.x p + vx))
              (clamp (PSO.bounds this) (Particle.y p + vy)) vx vy
              (Particle.pbestX p) (Particle.pbestY p) (Particle.pbestFit p)
              (Particle.fitness p).

(** The swarm after the [forEach] of [step], the first particle drawing
    [rnd c] and [rnd (c+1)], the next one the two draws after, and so on. *)
Fixpoint moved_all (this : PSO.t) (gx gy : number) (rnd : nat -> R) (c : nat)
    (ps : list Particle.t) : list Particle.t :=
  match ps with
  | [] => []
  | p :: ps' =>
      moved this gx gy (Fin (rnd c)) (Fin (rnd (S c))) p
      :: moved_all this gx gy rnd (S (S c)) ps'
  end.

(** [n] calls of [Math.random()] later. *)
Definition advance_by (n : nat) (g : globals) : globals := Nat.iter n advance_rng g.

(** Position, velocity and personal best of a particle are finite numbers,
    and the position is inside the bounds. *)
Definition sound_particle (bounds : number * number) (p : Particle.t) : Prop :=
  within bounds (Particle.x p) /\ within bounds (Particle.y p) /\
  Number.is_finite (Particle.vx p) /\ Number.is_finite (Particle.vy p) /\
  Number.is_finite (Particle.pbestX p) /\ Number.is_finite (Particle.pbestY p).

(** The run-global best position is a finite point, or still [null] with the
    best fitness at [Infinity]. *)
Definition sound_best (g : globals) : Prop :=
  match bestGlobalPosition g with
  | Some (Fin _, Fin _) => True
  | Some _ => False
  | None => bestGlobalFitness g = Infinity
  end.

(** A one-particle swarm on the Sphere function, and globals in which that
    particle already is the global best, for worked examples. *)
Definition example_swarm : PSO.t :=
  PSO.mk 1 (Fin 0.5) (Fin 1.5) (Fin 1.5) "#3498db"
    [Particle.mk (Fin 1) (Fin 1) (Fin 0) (Fin 0) (Fin 1) (Fin 1) (Fin 2) (Fin 2)]
    (Fin (-5.12), Fin 5.12).

Definition example_best : globals := set_best (Fin 2) (Fin 1, Fin 1) zero_globals.


(** What a replay leaves alone: the live optimizer, the run-global best, the
    random sequence, the arrays and the archive. *)
Definition untouched_by_replay (w w' : world) : Prop :=
  currentAlgorithm w' = currentAlgorithm w /\
  bestGlobalFitness (engine w') = bestGlobalFitness (engine w) /\
  bestGlobalPosition (engine w') = bestGlobalPosition (engine w) /\
  random_state (engine w') = random_state (engine w) /\
  heap w' = heap w /\
  executionHistories w' = executionHistories w /\
  executionCount w' = executionCount w /\
  currentRunHistory w' = currentRunHistory w /\
  isRunning w' = isRunning w.

(** The color [render] paints an override population with. *)
Definition replay_paint (color : string) : string :=
  if decide (color = EmptyString) then "red"%string else color.


(** The form as filled in for the worked examples: a GA of two members that
    stops after one iteration. *)
Definition example_controls : controls :=
  {| algorithmSelect := "ga"; gaPopSize := 2; gaMutation := Fin 0.1;
     gaCrossover := Fin 0.8; gaElitism := true; psoSwarmSize := 30;
     psoW := Fin 0.7; psoC1 := Fin 1.5; psoC2 := Fin 1.5; maxIterations := 1 |}.


(** The page right after [startSimulation] built the optimizer [a] (leaving
    the globals [g]) on a page without one, before its first [loop]. *)
Definition started (w : world) (a : algorithm) (g : globals) : world :=
  {| engine := g;
     isRunning := true;
     isReplaying := false;
     currentAlgorithm := Some a;
     iteration := 0;
     executionCount := executionCount w;
     currentRunHistory := S (length (heap w));
     executionHistories := executionHistories w;
     heap := heap w ++ [ []; [algorithm_positions a] ];
     canvas := canvas w ++ [ {| shown := None; paint := "red" |} ] |}.

(** [m] never stops for lack of fuel. *)
Definition fuelled {A} (m : M A) : Prop := forall g, m g <> Thrown OutOfFuel.

(** ** Visualization: [map], [drawBackground] and the points of [render]

    The canvas is [width] by [height] pixels ([canvas.width],
    [canvas.height], two non-negative integers).  The image data is the flat
    array of bytes of an [ImageData]: four per pixel, row after row. *)

Module Operator.

(** [a / b].  The model has one zero, which divides as [+0]. *)
Definition div (a b : number) : number :=
  match a, b with
  | NaN, _ | _, NaN => NaN
  | Fin x, Fin y =>
      if decide (y = 0)%R then
        (if decide (0 < x)%R then Infinity
         else if decide (x < 0)%R then NegInfinity else NaN)
      else Fin (x / y)
  | Fin _, _ => Fin 0
  | Infinity, Fin y => if decide (y < 0)%R then NegInfinity else Infinity
  | NegInfinity, Fin y => if decide (y < 0)%R then Infinity else NegInfinity
  | _, _ => NaN
  end.

(** [a === b] on numbers. *)
Definition strict_eq (a b : number) : bool :=
  match a, b with
  | Fin x, Fin y => bool_decide (x = y)
  | Infinity, Infinity | NegInfinity, NegInfinity => true
  | _, _ => false
  end.

End Operator.

Notation "a / b" := (Operator.div a b) : js_scope.

Module Utils.

Definition map (value start1 stop1 start2 stop2 : number) : number :=
  start2 + (stop2 - start2) * ((value - start1) / (stop1 - start1)).

End Utils.

(** [Math.pow(b, e)] for a finite exponent [e > 0] that is not an integer
    (the source uses 0.3): [NaN] for a negative base. *)
Definition Math_pow_fraction (b : number) (e : R) : number :=
  match b with
  | Fin x =>
      if decide (x < 0)%R then NaN
      else if decide (x = 0)%R then Fin 0
      else Fin (Rpower x e)
  | Infinity | NegInfinity => Infinity
  | NaN => NaN
  end.

(** The conversion of a number stored into a [Uint8ClampedArray]
    (ECMAScript [ToUint8Clamp]): [NaN] becomes 0, the value is clamped to
    0..255 and rounded to the nearest integer, a tie to the even one. *)
Definition ToUint8Clamp (a : number) : Z :=
  match a with
  | NaN | NegInfinity => 0
  | Infinity => 255
  | Fin x =>
      if decide (x <= 0)%R then 0
      else if decide (255 <= x)%R then 255
      else
        let f := Zfloor x in
        if decide (IZR f + 0.5 < x)%R then f + 1
        else if decide (x < IZR f + 0.5)%R then f
        else if Z.even f then f else f + 1
  end.

(** The values of [p] in [for (let p = from; p < n; p += step)], at most
    [fuel] of them. *)
Fixpoint count_up (fuel from step n : nat) : list nat :=
  match fuel with
  | O => []
  | S fuel' =>
      if decide (from < n)%nat then from :: count_up fuel' (from + step) step n else []
  end.

(** The point of the function's domain shown at pixel [(px, py)]. *)
Definition pixel_point (f : benchmark) (width height px py : nat) : number * number :=
  let bounds := Benchmark.bounds f in
  (Utils.map (Fin (INR px)) (Fin 0) (Fin (INR width)) (fst bounds) (snd bounds),
   Utils.map (Fin (INR py)) (Fin 0) (Fin (INR height)) (fst bounds) (snd bounds)).

Definition pixel_value (f : benchmark) (width height px py : nat) : number :=
  let '(x, y) := pixel_point f width height px py in Benchmark.func f x y.

(** The body of the sampling loops: [minVal] and [maxVal] after one more
    sample. *)
Definition sample (f : benchmark) (width height : nat) (acc : number * number)
    (px py : nat) : number * number :=
  let val := pixel_value f width height px py in
  let minVal := if val <? fst acc then val else fst acc in
  let maxVal := if val >? snd acc then val else snd acc in
  (minVal, maxVal).

(** The two sampling loops, every fifth pixel of every fifth row. *)
Definition sample_range (f : benchmark) (width height : nat) : number * number :=
  foldl (fun acc py =>
           foldl (fun acc px => sample f width height acc px py)
                 acc (count_up width 0 5 width))
        (Infinity, NegInfinity) (count_up height 0 5 height).

(** The numbers [r], [g], [b] computed for a pixel of value [val]. *)
Definition colour (minVal maxVal val : number) : number * number * number :=
  let norm := (val - minVal) / (maxVal - minVal) in
  let norm := if Operator.strict_eq (maxVal - minVal) (Fin 0) then Fin 0 else norm in
  let colorNorm := Math_pow_fraction norm 0.3 in
  let r := Math.floor (colorNorm * Fin 255) in
  let g := Math.floor ((Fin 1 - Math.abs (colorNorm - Fin 0.5) * Fin 2) * Fin 100 + Fin 100) in
  let b := Math.floor ((Fin 1 - colorNorm) * Fin 255) in
  (r, g, b).

(** The four bytes that the stores [data[index] = r], ... leave. *)
Definition stored (c : number * number * number) : list Z :=
  let '(r, g, b) := c in
  [ToUint8Clamp r; ToUint8Clamp g; ToUint8Clamp b; ToUint8Clamp (Fin 255)].

(** The body of the drawing loops.  A store outside the array is ignored,
    as [<[ _ := _ ]>] does. *)
Definition draw_pixel (f : benchmark) (width height : nat) (minVal maxVal : number)
    (data : list Z) (px py : nat) : list Z :=
  let '(r, g, b) := colour minVal maxVal (pixel_value f width height px py) in
  let index := ((py * width + px) * 4)%nat in
  let data := <[index := ToUint8Clamp r]> data in
  let data := <[(index + 1)%nat := ToUint8Clamp g]> data in
  let data := <[(index + 2)%nat := ToUint8Clamp b]> data in
  <[(index + 3)%nat := ToUint8Clamp (Fin 255)]> data.

(** What [drawBackground] leaves on the background canvas: the image and the
    centre of the "Global Min marker". *)
Record background : Type := {
  data : list Z;
  marker : number * number
}.

Definition drawBackground (width height : nat) (f : benchmark) : background :=
  let bounds := Benchmark.bounds f in
  let '(minVal, maxVal) := sample_range f width height in
  let image :=
    foldl (fun data py =>
             foldl (fun data px => draw_pixel f width height minVal maxVal data px py)
                   data (seq 0 width))
          (replicate (width * height * 4) 0%Z) (seq 0 height) in
  let '(minX, minY) := globalMinMarker f in
  {| data := image;
     marker := (Utils.map minX (fst bounds) (snd bounds) (Fin 0) (Fin (INR width)),
                Utils.map minY (fst bounds) (snd bounds) (Fin 0) (Fin (INR height))) |}.


(** *** Vocabulary of the visualization's properties *)

(** [Math.pow(norm, 0.3)] of a finite [norm >= 0], as a real number. *)
Definition tone (norm : R) : R :=
  if decide (norm = 0)%R then 0%R else Rpower norm 0.3.

(** The pixels [(px, py)] that the sampling loops visit. *)
Definition sampled (width height px py : nat) : Prop :=
  (px < width)%nat /\ (py < height)%nat /\ (px mod 5 = 0)%nat /\ (py mod 5 = 0)%nat.

(** The four bytes of the pixel number [i], counting row after row. *)
Definition pixel_bytes (f : benchmark) (width height : nat) (minVal maxVal : number)
    (i : nat) : list Z :=
  stored (colour minVal maxVal (pixel_value f width height (i mod width) (i / width))).

(** *** Vocabulary of the optimizers' further properties *)

(** The recorded best fitness is the value of the current function at the
    recorded best position; while there is no position it is [Infinity]. *)
Definition consistent_best (g : globals) : Prop :=
  match bestGlobalPosition g with
  | Some (x, y) => bestGlobalFitness g = Benchmark.func (currentFunction g) x y
  | None => bestGlobalFitness g = Infinity
  end.

(** A property of the globals that holds afterwards if it held before. *)
Definition keeps (P : globals -> Prop) (g g' : globals) : Prop := P g -> P g'.

(** The fitness values of the members of an optimizer. *)
Definition algorithm_fitnesses (a : algorithm) : list number :=
  match a with
  | AlgGA g => map Individual.fitness (GA.population g)
  | AlgPSO p => map Particle.fitness (PSO.particles p)
  end.

(** The member that the [j]-th coming call of [Math.random()] picks in
    [tournamentSelect]: [population[Math.floor(r * popSize)]]. *)
Definition drawn (this : GA.t) (g : globals) (j : nat) : option Individual.t :=
  array_get (GA.population this)
    (Math.floor (Fin (draws (random_state g) (cursor (random_state g) + j))
                 * Fin (IZR (GA.popSize this)))).

(** A GA of one member at the origin, for worked examples. *)
Definition example_GA : GA.t :=
  GA.mk 1 (Fin 0) (Fin 0) true "#e74c3c" [Individual.mk (Fin 0) (Fin 0) (Fin 0)]
    (Fin (-5.12), Fin 5.12).

(** A GA as the constructor and [step] leave it for any [popSize]: the
    population has [popSize] members, unless [popSize] is not positive. *)
Definition GA_built (this : GA.t) : Prop :=
  (GA.popSize this <= 0)%Z \/ length (GA.population this) = Z.to_nat (GA.popSize this).

(** A swarm that can take a step: the global best position is defined as
    soon as there is a particle. *)
Definition PSO_launched (this : PSO.t) (g : globals) : Prop :=
  PSO.particles this <> [] -> bestGlobalPosition g <> None.

(** The record of a particle is consistent under [f]: its fitness is the
    value at its position, its personal best the value at its personal best
    position, and its fitness is not below its personal best. *)
Definition tracked (f : benchmark) (p : Particle.t) : Prop :=
  Particle.fitness p = Benchmark.func f (Particle.x p) (Particle.y p) /\
  Particle.pbestFit p = Benchmark.func f (Particle.pbestX p) (Particle.pbestY p) /\
  (Particle.fitness p <? Particle.pbestFit p) = false.

(** A GA with elitism whose first member carries the recorded global best
    fitness. *)
Definition elite_is_best (f : benchmark) (this : GA.t) (g : globals) : Prop :=
  evaluated f this /\ GA.elitism this = true /\
  exists e, GA.population this !! 0%nat = Some e /\
            bestGlobalFitness g = Individual.fitness e.

(** *** Vocabulary of the page's further properties *)

(** The page after one more iteration of a running optimizer, which became
    [a'] and left the globals [g']: what [loop] does before its stop
    condition. *)
Definition stepped (w : world) (a' : algorithm) (g' : globals) : world :=
  {| engine := g';
     isRunning := isRunning w;
     isReplaying := isReplaying w;
     currentAlgorithm := Some a';
     iteration := S (iteration w);
     executionCount := executionCount w;
     currentRunHistory := currentRunHistory w;
     executionHistories := executionHistories w;
     heap := alter (fun h => h ++ [algorithm_positions a']) (currentRunHistory w) (heap w);
     canvas := canvas w ++ [ {| shown := Some (algorithm_positions a');
                                paint := algorithm_color a' |} ] |}.

(** The page after [stopSimulation] logged the run of the optimizer [a]. *)
Definition logged (w : world) (a : algorithm) : world :=
  {| engine := engine w;
     isRunning := false;
     isReplaying := isReplaying w;
     currentAlgorithm := currentAlgorithm w;
     iteration := iteration w;
     executionCount := S (executionCount w);
     currentRunHistory := currentRunHistory w;
     executionHistories :=
       <[S (executionCount w) :=
           Entry.mk (currentRunHistory w) (algorithm_color a)
             (Benchmark.name (currentFunction (engine w)))]> (executionHistories w);
     heap := heap w;
     canvas := canvas w |}.

(** The page as [resetSimulation] leaves it. *)
Definition cleared (w : world) : world :=
  {| engine := reset_best (engine w);
     isRunning := isReplaying w && isRunning w;
     isReplaying := false;
     currentAlgorithm := None;
     iteration := 0;
     executionCount := executionCount w;
     currentRunHistory := length (heap w);
     executionHistories := executionHistories w;
     heap := heap w ++ [ [] ];
     canvas := canvas w ++ [ {| shown := None; paint := "red" |} ] |}.

(** The page as [startReplay] leaves it for the entry [data], before the
    first frame. *)
Definition replay_ready (w : world) (data : Entry.t) : world :=
  {| engine :=
       if String.eqb (Benchmark.name (currentFunction (engine w))) (Entry.functionName data)
       then engine w
       else match function_named (Entry.functionName data) with
            | Some f => set_currentFunction f (engine w)
            | None => engine w
            end;
     isRunning := isRunning w;
     isReplaying := true;
     currentAlgorithm := currentAlgorithm w;
     iteration := 0;
     executionCount := executionCount w;
     currentRunHistory := currentRunHistory w;
     executionHistories := executionHistories w;
     heap := heap w;
     canvas := canvas w |}.



(** The history of the live run holds the snapshot of generation 0 and one
    snapshot per iteration; without an optimizer there is no iteration and
    no snapshot. *)
Definition recorded (w : world) : Prop :=
  match currentAlgorithm w with
  | Some _ =>
      (currentRunHistory w < length (heap w))%nat /\
      length (deref w (currentRunHistory w)) = S (iteration w)
  | None => iteration w = 0%nat /\ deref w (currentRunHistory w) = []
  end.

(** Every event but a click on a Replay button. *)
Definition not_a_replay (e : event) : Prop :=
  match e with ClickReplay _ => False | _ => True end.

(** The state of a page that was loaded and used: [Math.random()] keeps its
    contract, the current function is one of the catalog, a run and a replay
    are never in progress together, a run in progress has an optimizer, and
    the optimizer is as its constructor and [step] leave it. *)
Definition well_formed (w : world) : Prop :=
  fair (engine w) /\ In (currentFunction (engine w)) catalog /\
  (isRunning w = true -> isReplaying w = false /\ currentAlgorithm w <> None) /\
  match currentAlgorithm w with
  | Some (AlgGA this) => GA_built this
  | Some (AlgPSO this) => PSO_launched this (engine w)
  | None => True
  end.

(** The two ways in which a handler throws: Stop is clicked while nothing
    runs, no optimizer exists and [iteration] is not 0 ([logResult] reads
    [currentAlgorithm.color]); or the function select fires with a key that
    is not in [functions]. *)
Definition throws_on (e : event) (w : world) : Prop :=
  (e = ClickStop /\ isReplaying w = false /\ (0 < iteration w)%nat /\
   currentAlgorithm w = None) \/
  (exists key, e = ChangeFunction key /\ ~ In key (map fst functions)).

(** ** The page with its buttons and selects

    The handlers once more, now with their writes to the [disabled] property
    of the Run and Stop buttons and of the two selects.  The state of the
    page is the [world] of above together with these four flags.  A disabled
    control fires no event, so the user's events reach the handlers through
    [dispatch]. *)

Record buttons : Type := {
  btnRun_disabled : bool;
  btnStop_disabled : bool;
  algorithmSelect_disabled : bool;
  functionSelect_disabled : bool
}.

Module Dom.

Definition page : Type := world * buttons.

Definition stopSimulation (shouldLog : bool) (p : page) : completion page :=
  let '(w, d) := p in
  if isReplaying w then
    let w := with_isReplaying false w in
    Returned (w, {| btnRun_disabled := false; btnStop_disabled := true;
                    algorithmSelect_disabled := false;
                    functionSelect_disabled := false |})
  else
    let w := with_isRunning false w in
    let d := {| btnRun_disabled := false; btnStop_disabled := true;
                algorithmSelect_disabled := algorithmSelect_disabled d;
                functionSelect_disabled := functionSelect_disabled d |} in
    if shouldLog && bool_decide (0 < iteration w)%nat then
      match logResult w with
      | Returned w => Returned (w, d)
      | Thrown e => Thrown e
      end
    else Returned (w, d).

Definition resetSimulation (p : page) : completion page :=
  match stopSimulation false p with
  | Thrown e => Thrown e
  | Returned (w, d) =>
      let w := with_currentAlgorithm None w in
      let w := with_iteration 0 w in
      let w := with_engine (reset_best (engine w)) w in
      let '(ref, w) := new_array [] w in
      let w := with_currentRunHistory ref w in
      let d := {| btnRun_disabled := btnRun_disabled d;
                  btnStop_disabled := btnStop_disabled d;
                  algorithmSelect_disabled := false;
                  functionSelect_disabled := false |} in
      Returned (render None None w, d)
  end.

Definition loop (ctl : controls) (p : page) : completion page :=
  let '(w, d) := p in
  if negb (isRunning w) then Returned p
  else
    match currentAlgorithm w with
    | None => Thrown TypeError
    | Some a =>
        match run_engine (algorithm_step a) w with
        | Thrown e => Thrown e
        | Returned (a', w) =>
            let w := with_currentAlgorithm (Some a') w in
            let w := with_iteration (S (iteration w)) w in
            let w := array_push (currentRunHistory w) (captureState w) w in
            let w := render None None w in
            if bool_decide (0 < maxIterations ctl)%Z
               && bool_decide (maxIterations ctl <= Z.of_nat (iteration w))%Z
            then stopSimulation true (w, d)
            else Returned (w, d)
        end
    end.

Definition startSimulation (ctl : controls) (p : page) : completion page :=
  let '(w, d) := p in
  if isRunning w || isReplaying w then Returned p
  else
    let fresh :=
      match currentAlgorithm w with
      | Some _ => Returned p
      | None =>
          match resetSimulation p with
          | Thrown e => Thrown e
          | Returned (w, d) =>
              match run_engine (construct ctl) w with
              | Thrown e => Thrown e
              | Returned (a, w) =>
                  let w := with_currentAlgorithm (Some a) w in
                  let '(ref, w) := new_array [captureState w] w in
                  Returned (with_currentRunHistory ref w, d)
              end
          end
      end in
    match fresh with
    | Thrown e => Thrown e
    | Returned (w, d) =>
        let w := with_isRunning true w in
        let d := {| btnRun_disabled := true; btnStop_disabled := false;
                    algorithmSelect_disabled := true;
                    functionSelect_disabled := true |} in
        loop ctl (w, d)
    end.

Definition replayLoop (history : nat) (color : string) (p : page) : page :=
  let '(w, d) := p in
  if negb (isReplaying w) then p
  else
    match deref w history !! iteration w with
    | Some pop =>
        let w := render (Some pop) (Some color) w in
        (with_iteration (S (iteration w)) w, d)
    | None =>
        (with_isReplaying false w,
         {| btnRun_disabled := false; btnStop_disabled := true;
            algorithmSelect_disabled := false; functionSelect_disabled := false |})
    end.

Definition startReplay (id : nat) (p : page) : page :=
  let '(w, d) := p in
  if isRunning w || isReplaying w then p
  else
    match executionHistories w !! id with
    | None => p
    | Some data =>
        let w := with_isReplaying true w in
        let w := with_iteration 0 w in
        let w :=
          if String.eqb (Benchmark.name (currentFunction (engine w))) (Entry.functionName data)
          then w
          else match function_named (Entry.functionName data) with
               | Some f => with_engine (set_currentFunction f (engine w)) w
               | None => w
               end in
        let d := {| btnRun_disabled := true; btnStop_disabled := false;
                    algorithmSelect_disabled := true;
                    functionSelect_disabled := true |} in
        replayLoop (Entry.history data) (Entry.color data) (w, d)
    end.

Definition onFunctionChange (key : string) (p : page) : completion page :=
  let '(w, d) := p in
  match snd <$> find (fun kf => String.eqb (fst kf) key) functions with
  | None => Thrown TypeError
  | Some f => resetSimulation (with_engine (set_currentFunction f (engine w)) w, d)
  end.

Definition handle (e : event) (p : page) : completion page :=
  match e with
  | ClickRun ctl => startSimulation ctl p
  | ClickStop => stopSimulation true p
  | ClickReset => resetSimulation p
  | ChangeAlgorithm => resetSimulation p
  | ChangeFunction key => onFunctionChange key p
  | ClickReplay id => Returned (startReplay id p)
  | FrameLoop ctl => loop ctl p
  | FrameReplay h c => Returned (replayLoop h c p)
  end.

(** Whether the control behind a user event is enabled.  The script never
    disables the Reset button or a Replay button; frames are not user
    events. *)
Definition enabled (e : event) (d : buttons) : bool :=
  match e with
  | ClickRun _ => negb (btnRun_disabled d)
  | ClickStop => negb (btnStop_disabled d)
  | ChangeAlgorithm => negb (algorithmSelect_disabled d)
  | ChangeFunction _ => negb (functionSelect_disabled d)
  | ClickReset | ClickReplay _ | FrameLoop _ | FrameReplay _ _ => true
  end.

Definition dispatch (e : event) (p : page) : completion page :=
  if enabled e (snd p) then handle e p else Returned p.

Fixpoint dispatch_all (es : list event) (p : page) : completion page :=
  match es with
  | [] => Returned p
  | e :: es' =>
      match dispatch e p with
      | Returned p' => dispatch_all es' p'
      | Thrown x => Thrown x
      end
  end.

End Dom.

(** *** Vocabulary of the properties of the buttons *)

(** [stopSimulation]'s writes outside a replay: Run enabled, Stop disabled. *)
Definition idle_buttons (d : buttons) : buttons :=
  {| btnRun_disabled := false; btnStop_disabled := true;
     algorithmSelect_disabled := algorithmSelect_disabled d;
     functionSelect_disabled := functionSelect_disabled d |}.

(** Everything enabled but Stop: after a reset and at the end of a replay. *)
Definition free_buttons : buttons :=
  {| btnRun_disabled := false; btnStop_disabled := true;
     algorithmSelect_disabled := false; functionSelect_disabled := false |}.

(** Only Stop enabled: during a run and during a replay. *)
Definition busy_buttons : buttons :=
  {| btnRun_disabled := true; btnStop_disabled := false;
     algorithmSelect_disabled := true; functionSelect_disabled := true |}.

(** The buttons follow the state: Run is disabled exactly while a run or a
    replay is in progress, Stop is enabled exactly then, and then both
    selects are disabled. *)
Definition buttons_follow (p : Dom.page) : Prop :=
  let busy := isRunning (fst p) || isReplaying (fst p) in
  btnRun_disabled (snd p) = busy /\
  btnStop_disabled (snd p) = negb busy /\
  (busy = true ->
   algorithmSelect_disabled (snd p) = true /\ functionSelect_disabled (snd p) = true).

(** While the Stop button is enabled, clicking it cannot throw. *)
Definition stop_is_safe (p : Dom.page) : Prop :=
  btnStop_disabled (snd p) = false ->
  isReplaying (fst p) = true \/ currentAlgorithm (fst p) <> None \/
  iteration (fst p) = 0%nat.

(** The function select only offers keys of [functions]. *)
Definition known_key (e : event) : Prop :=
  match e with
  | ChangeFunction key => In key (map fst functions)
  | _ => True
  end.

(** The buttons after [stopSimulation] on the page [w]. *)
Definition stop_buttons (w : world) (d : buttons) : buttons :=
  if isReplaying w then free_buttons else idle_buttons d.

(** The buttons after a frame of [loop] on the page [w]: touched only when
    the run reaches [maxIterations] in this frame. *)
Definition loop_buttons (ctl : controls) (w : world) (d : buttons) : buttons :=
  if isRunning w
     && (bool_decide (0 < maxIterations ctl)%Z
         && bool_decide (maxIterations ctl <= Z.of_nat (S (iteration w)))%Z)
  then stop_buttons w d else d.

(** The buttons after a frame of [replayLoop]: touched only when the replay
    ends in this frame. *)
Definition replay_buttons (history : nat) (w : world) (d : buttons) : buttons :=
  if isReplaying w then
    match deref w history !! iteration w with
    | Some _ => d
    | None => free_buttons
    end
  else d.

(* ===================================================================== *)
(** * Part II: properties                                                 *)
(* ===================================================================== *)

(** Unfolding of the number operations down to real arithmetic. *)
Ltac js_unfold :=
  cbv [Benchmark.func Benchmark.name Benchmark.bounds Benchmark.globalMin
       sphere rastrigin schwefel rosenbrock ackley
       Number.add Number.sub Number.mul Number.neg Number.lt Number.le Number.gt
       Math.exp Math.cos Math.sin Math.sqrt Math.abs Math.log Math.pow
       Math.max Math.min Math.PI Math.E Nat.even].

(** ** The weakest-precondition calculus of [M] *)

Section WP.
Context {A B : Type}.

Lemma wp_returned (m : M A) Q g :
  wp m Q g <-> exists a g', m g = Returned (a, g') /\ Q a g'.
Proof.
  unfold wp. split.
  - destruct (m g) as [[a g']|e]; [eauto | tauto].
  - intros (a & g' & -> & HQ). exact HQ.
Qed.

Lemma wp_ret (a : A) Q g : Q a g -> wp (ret a) Q g.
Proof. intros H. exact H. Qed.

Lemma wp_bind (m : M A) (k : A -> M B) Q g :
  wp m (fun a g' => wp (k a) Q g') g -> wp (bind m k) Q g.
Proof.
  unfold wp, bind. destruct (m g) as [[a g']|e]; [tauto | tauto].
Qed.

Lemma wp_mono (m : M A) (P Q : A -> globals -> Prop) g :
  (forall a g', P a g' -> Q a g') -> wp m P g -> wp m Q g.
Proof.
  unfold wp. intros H. destruct (m g) as [[a g']|e]; [apply H | tauto].
Qed.

Lemma wp_gets (proj : globals -> A) Q g : Q (proj g) g -> wp (gets proj) Q g.
Proof. intros H. exact H. Qed.

End WP.

Lemma wp_modify f (Q : unit -> globals -> Prop) g : Q tt (f g) -> wp (modify f) Q g.
Proof. intros H. exact H. Qed.

Lemma wp_Math_random (Q : number -> globals -> Prop) g :
  Q (Fin (draws (random_state g) (cursor (random_state g)))) (advance_rng g) ->
  wp Math_random Q g.
Proof. intros H. exact H. Qed.

(** ** Numbers *)

Lemma lt_trans a b c :
  Number.lt a b = true -> Number.lt b c = true -> Number.lt a c = true.
Proof.
  destruct a, b, c; cbn; try congruence.
  rewrite !bool_decide_eq_true. lra.
Qed.


Lemma le_trans a b c :
  Number.le a b = true -> Number.le b c = true -> Number.le a c = true.
Proof.
  destruct a, b, c; cbn; try congruence.
  rewrite !bool_decide_eq_true. lra.
Qed.

Lemma not_above_refl a : not_above a a.
Proof. left. reflexivity. Qed.

Lemma not_above_trans a b c : not_above a b -> not_above b c -> not_above a c.
Proof.
  intros [->|H1] [->|H2]; [left | right | right | right]; eauto using lt_trans.
Qed.

Lemma within_Fin lo hi v :
  within (Fin lo, Fin hi) v <-> exists r, v = Fin r /\ (lo <= r <= hi)%R.
Proof.
  unfold within. cbn. split.
  - destruct v as [r| | |]; cbn; try (intros [? ?]; congruence).
    rewrite !bool_decide_eq_true. eauto.
  - intros (r & -> & H). cbn. rewrite !bool_decide_eq_true. exact H.
Qed.

Lemma clamp_Fin_cases lo hi v :
  exists r, clamp (Fin lo, Fin hi) (Fin v) = Fin r /\
    ((lo <= hi)%R -> (lo <= r <= hi)%R) /\
    ((lo <= v <= hi)%R -> r = v) /\
    ((lo <= hi)%R -> (hi < v)%R -> r = hi) /\
    ((lo <= hi)%R -> (v < lo)%R -> r = lo).
Proof.
  unfold clamp, Math.max, Math.min. cbn.
  destruct (bool_decide_reflect (v < hi)%R) as [H1|H1]; cbn.
  - destruct (bool_decide_reflect (lo < v)%R); eexists; split; try reflexivity;
      repeat split; intros; lra.
  - destruct (bool_decide_reflect (lo < hi)%R); eexists; split; try reflexivity;
      repeat split; intros; lra.
Qed.

Lemma clamp_Fin lo hi v :
  (lo <= hi)%R -> within (Fin lo, Fin hi) (clamp (Fin lo, Fin hi) (Fin v)).
Proof.
  intros Hle. destruct (clamp_Fin_cases lo hi v) as (r & -> & H & _).
  apply within_Fin. eauto.
Qed.

(** ** The benchmark catalog *)

Lemma sphere_at_origin : Benchmark.func sphere (Fin 0) (Fin 0) = Fin 0.
Proof. js_unfold. f_equal. lra. Qed.

Lemma rastrigin_at_origin : Benchmark.func rastrigin (Fin 0) (Fin 0) = Fin 0.
Proof. js_unfold. rewrite !Rmult_0_r, cos_0. f_equal. lra. Qed.

Lemma ackley_at_origin : Benchmark.func ackley (Fin 0) (Fin 0) = Fin 0.
Proof.
  js_unfold. rewrite !Rmult_0_r, cos_0.
  replace (0 + 0)%R with 0%R by lra. rewrite Rmult_0_r.
  destruct (decide (0 < 0)%R) as [H|_]; [lra|].
  rewrite sqrt_0, Rmult_0_r, exp_0. f_equal.
  replace (0.5 * (1 + 1))%R with 1%R by lra. lra.
Qed.

Lemma rosenbrock_at_origin : Benchmark.func rosenbrock (Fin 0) (Fin 0) = Fin 1.
Proof. js_unfold. f_equal. lra. Qed.

(** *** Schwefel at its marker

    The constants 418.9829 and 420.9687 of the source are rounded to four
    decimals, so the value at the marker is close to 0 and not 0.  The
    bounds come from Machin-like series for [PI] and the alternating series
    of [cos]. *)

Ltac INR_to_IZR H :=
  repeat match type of H with
         | context [INR ?n] =>
             let z := eval compute in (Z.of_nat n) in
             replace (INR n) with (IZR z) in H by (rewrite INR_IZR_INZ; reflexivity)
         end.

Lemma PI_decimals : (3.1415926535 < PI < 3.1415926540)%R.
Proof.
  pose proof (PI_2_3_7_ineq 4) as [Hlo Hhi].
  unfold sum_f_R0, tg_alt, PI_2_3_7_tg, Ratan_seq in Hlo, Hhi.
  cbn [Nat.mul Nat.add] in Hlo, Hhi.
  INR_to_IZR Hlo. INR_to_IZR Hhi.
  split; lra.
Qed.

Lemma sqrt_marker_decimals : (20.51752178 < sqrt 420.9687 < 20.51752179)%R.
Proof.
  split.
  - rewrite <- (sqrt_square 20.51752178) at 1 by lra.
    apply sqrt_lt_1; lra.
  - rewrite <- (sqrt_square 20.51752179) at 1 by lra.
    apply sqrt_lt_1; lra.
Qed.

(** [sin (sqrt 420.9687)] is the cosine of a small angle. *)
Lemma sin_sqrt_marker :
  sin (sqrt 420.9687) = cos (sqrt 420.9687 - 13 * PI / 2).
Proof.
  rewrite cos_sin.
  rewrite <- (sin_period (PI / 2 + (sqrt 420.9687 - 13 * PI / 2)) 3).
  f_equal. cbn [INR]. lra.
Qed.

Lemma cos_small_angle (t : R) :
  (0.097169529 < t < 0.097169543)%R ->
  (0.995282753 < cos t < 0.995282757)%R.
Proof.
  intros Ht. pose proof PI_decimals as HPI.
  destruct (COS t) as [Hlb Hub]; [lra | lra |].
  unfold cos_lb, cos_ub, cos_approx, sum_f_R0, cos_term in Hlb, Hub.
  cbn [Nat.mul Nat.add] in Hlb, Hub.
  INR_to_IZR Hlb. INR_to_IZR Hub.
  assert (0.097169529 ^ 2 <= t ^ 2 <= 0.097169543 ^ 2)%R as H2
    by (split; apply pow_incr; lra).
  assert (0.097169529 ^ 4 <= t ^ 4 <= 0.097169543 ^ 4)%R as H4
    by (split; apply pow_incr; lra).
  assert (0.097169529 ^ 6 <= t ^ 6 <= 0.097169543 ^ 6)%R as H6
    by (split; apply pow_incr; lra).
  assert (0.097169529 ^ 8 <= t ^ 8 <= 0.097169543 ^ 8)%R as H8
    by (split; apply pow_incr; lra).
  split; lra.
Qed.

Lemma schwefel_at_marker :
  exists v, value_at_marker schwefel = Fin v /\ (0.00002 < v < 0.00003)%R.
Proof.
  unfold value_at_marker, globalMinMarker.
  cbn [Benchmark.name Benchmark.func schwefel String.eqb Ascii.eqb Bool.eqb fst snd].
  cbv [Math.abs Math.sqrt].
  rewrite (Rabs_pos_eq 420.9687) by lra.
  destruct (decide (420.9687 < 0)%R) as [H|_]; [lra|].
  eexists. split; [reflexivity|].
  rewrite sin_sqrt_marker.
  pose proof PI_decimals as HPI. pose proof sqrt_marker_decimals as Hs.
  pose proof (cos_small_angle (sqrt 420.9687 - 13 * PI / 2) ltac:(lra)) as Hc.
  lra.
Qed.

(** C1, as the code has it.  Every function of the catalog declares the
    global minimum 0.  At the position that [drawBackground] marks as the
    global minimum, Sphere, Rastrigin and Ackley (marker [(0,0)]) evaluate to
    exactly 0, and Schwefel (marker [(420.9687, 420.9687)]) evaluates to a
    number between 0.00002 and 0.00003. *)
Theorem benchmark_values_at_their_markers :
  (forall f, In f catalog -> Benchmark.globalMin f = Fin 0) /\
  globalMinMarker sphere = (Fin 0, Fin 0) /\
  globalMinMarker rastrigin = (Fin 0, Fin 0) /\
  globalMinMarker ackley = (Fin 0, Fin 0) /\
  globalMinMarker schwefel = (Fin 420.9687, Fin 420.9687) /\
  value_at_marker sphere = Fin 0 /\
  value_at_marker rastrigin = Fin 0 /\
  value_at_marker ackley = Fin 0 /\
  exists v, value_at_marker schwefel = Fin v /\ (0.00002 < v < 0.00003)%R.
Proof.
  split.
  { unfold catalog. cbn. intros f [<-|[<-|[<-|[<-|[<-|[]]]]]]; reflexivity. }
  repeat (split; [reflexivity|]).
  split; [apply sphere_at_origin|].
  split; [apply rastrigin_at_origin|].
  split; [apply ackley_at_origin|].
  apply schwefel_at_marker.
Qed.

(** C1 fails as stated at two functions of the catalog: at its marker
    Schwefel is positive, and Rosenbrock, whose marker is [(0,0)], is 1. *)
Lemma marker_values_that_are_not_zero :
  In schwefel catalog /\ In rosenbrock catalog /\
  (exists v, value_at_marker schwefel = Fin v /\ (0 < v)%R) /\
  globalMinMarker rosenbrock = (Fin 0, Fin 0) /\
  value_at_marker rosenbrock = Fin 1.
Proof.
  split; [cbn; auto|]. split; [cbn; auto 6|]. split.
  - destruct schwefel_at_marker as (v & Hv & Hpos). exists v. split; [exact Hv | lra].
  - split; [reflexivity | apply rosenbrock_at_origin].
Qed.

Lemma catalog_well_behaved f : In f catalog -> well_behaved f.
Proof.
  unfold catalog. cbn.
  intros [<-|[<-|[<-|[<-|[<-|[]]]]]]; split;
    try (do 2 eexists; split; [reflexivity | lra]); intros a b.
  - js_unfold. eauto.
  - js_unfold. eauto.
  - js_unfold.
    destruct (decide (Rabs a < 0)%R) as [H|_]; [pose proof (Rabs_pos a); lra|].
    destruct (decide (Rabs b < 0)%R) as [H|_]; [pose proof (Rabs_pos b); lra|].
    eauto.
  - js_unfold. eauto.
  - js_unfold.
    destruct (decide (0.5 * (a * a + b * b) < 0)%R) as [H|_]; [nra|].
    eauto.
Qed.

(** ** Hoare rules *)

Section Hoare.
Context {A B : Type}.

Lemma hoare_ret (P : globals -> Prop) (a : A) (Q : A -> globals -> Prop) :
  (forall g, P g -> Q a g) -> hoare P (ret a) Q.
Proof. intros H g Hg. apply wp_ret. auto. Qed.

Lemma hoare_bind (P : globals -> Prop) (m : M A) (Q' : A -> globals -> Prop)
    (k : A -> M B) (Q : B -> globals -> Prop) :
  hoare P m Q' -> (forall a, hoare (Q' a) (k a) Q) -> hoare P (bind m k) Q.
Proof.
  intros Hm Hk g Hg. apply wp_bind.
  eapply wp_mono; [|apply Hm, Hg]. intros a g' Ha. apply Hk, Ha.
Qed.

Lemma hoare_conseq (P P' : globals -> Prop) (m : M A) (Q Q' : A -> globals -> Prop) :
  hoare P' m Q' -> (forall g, P g -> P' g) -> (forall a g, Q' a g -> Q a g) ->
  hoare P m Q.
Proof.
  intros Hm HP HQ g Hg. eapply wp_mono; [apply HQ|]. apply Hm, HP, Hg.
Qed.

Lemma hoare_pure (P : globals -> Prop) (phi : Prop) (m : M A) (Q : A -> globals -> Prop) :
  (phi -> hoare P m Q) -> hoare (fun g => P g /\ phi) m Q.
Proof. intros H g [Hg Hphi]. apply H; assumption. Qed.

End Hoare.

(** ** Frame rules: what a returning computation leaves unchanged *)

Section Preserves.
Context (R : globals -> globals -> Prop).
Context (R_refl : forall g, R g g) (R_trans : forall a b c, R a b -> R b c -> R a c).

Lemma preserves_ret {A} (a : A) : preserves R (ret a).
Proof using R_refl. intros g a' g' [= _ <-]. apply R_refl. Qed.

Lemma preserves_throw {A} e : preserves R (@throw A e).
Proof. intros g a g' [=]. Qed.

Lemma preserves_gets {A} (proj : globals -> A) : preserves R (gets proj).
Proof using R_refl. intros g a' g' [= _ <-]. apply R_refl. Qed.

Lemma preserves_bind {A B} (m : M A) (k : A -> M B) :
  preserves R m -> (forall a, preserves R (k a)) -> preserves R (bind m k).
Proof using R_trans.
  intros Hm Hk g b g'. unfold bind.
  destruct (m g) as [[a g1]|e] eqn:E; [|discriminate].
  intros H. eapply R_trans; [eapply Hm, E | eapply Hk, H].
Qed.

Lemma preserves_forEach {A} (f : A -> M A) (l : list A) :
  (forall a, preserves R (f a)) -> preserves R (forEach f l).
Proof using R_refl R_trans.
  intros Hf. induction l as [|a l IH]; cbn [forEach].
  - apply preserves_ret.
  - apply preserves_bind; [apply Hf|]. intros a'.
    apply preserves_bind; [apply IH|]. intros l'. apply preserves_ret.
Qed.

End Preserves.

Lemma same_setting_refl g : same_setting g g.
Proof. split; reflexivity. Qed.

Lemma same_setting_trans a b c : same_setting a b -> same_setting b c -> same_setting a c.
Proof. intros [? ?] [? ?]. split; congruence. Qed.

Lemma rng_only_refl g : rng_only g g.
Proof. repeat split; reflexivity. Qed.

Lemma rng_only_trans a b c : rng_only a b -> rng_only b c -> rng_only a c.
Proof.
  intros (? & ? & ?) (? & ? & ?). repeat split; try congruence;
    eapply same_setting_trans; eassumption.
Qed.

Lemma rng_only_Math_random : preserves rng_only Math_random.
Proof. intros g a g' [= _ <-]. repeat split; reflexivity. Qed.

Lemma rng_only_random lo hi : preserves rng_only (random lo hi).
Proof.
  apply preserves_bind; [apply rng_only_trans | apply rng_only_Math_random|].
  intros r. apply preserves_ret, rng_only_refl.
Qed.

Lemma rng_only_gaussianRandom mean stdev : preserves rng_only (gaussianRandom mean stdev).
Proof.
  apply preserves_bind; [apply rng_only_trans | apply rng_only_Math_random|].
  intros r.
  apply preserves_bind; [apply rng_only_trans | apply rng_only_Math_random|].
  intros v. apply preserves_ret, rng_only_refl.
Qed.

(** ** Sorting *)

Lemma sort_insert_perm {A} (cmp : A -> A -> number) a l :
  sort_insert cmp a l ≡ₚ a :: l.
Proof.
  induction l as [|b l IH]; cbn [sort_insert]; [reflexivity|].
  destruct (Fin 0 <? cmp a b); [|reflexivity].
  rewrite IH. apply Permutation_swap.
Qed.

Lemma Array_sort_perm {A} (cmp : A -> A -> number) l : Array_sort cmp l ≡ₚ l.
Proof.
  induction l as [|a l IH]; cbn [Array_sort foldr]; [reflexivity|].
  rewrite sort_insert_perm. apply Permutation_cons; [reflexivity | exact IH].
Qed.

Lemma Array_sort_length {A} (cmp : A -> A -> number) l :
  length (Array_sort cmp l) = length l.
Proof. apply Permutation_length, Array_sort_perm. Qed.

Lemma by_fitness_positive a b :
  finite_fitness a -> finite_fitness b ->
  if Fin 0 <? GA.by_fitness a b
  then Number.le (Individual.fitness b) (Individual.fitness a) = true
  else Number.le (Individual.fitness a) (Individual.fitness b) = true.
Proof.
  unfold finite_fitness, GA.by_fitness.
  destruct (Individual.fitness a) as [fa| | |], (Individual.fitness b) as [fb| | |];
    cbn; try tauto.
  intros _ _. destruct (bool_decide_reflect (0 < fa + - fb)%R);
    apply bool_decide_eq_true; lra.
Qed.

Lemma sort_insert_sorted a l :
  finite_fitness a -> Forall finite_fitness l ->
  sorted_by_fitness l -> sorted_by_fitness (sort_insert GA.by_fitness a l).
Proof.
  unfold sorted_by_fitness.
  intros Ha. induction l as [|b l IH]; intros Hl Hs; cbn [sort_insert].
  - repeat constructor.
  - apply Forall_cons in Hl as [Hb Hl].
    apply StronglySorted_inv in Hs as [Hs Hbl].
    pose proof (by_fitness_positive a b Ha Hb) as Hab.
    destruct (Fin 0 <? GA.by_fitness a b).
    + constructor; [apply IH; assumption|].
      rewrite sort_insert_perm. constructor; assumption.
    + constructor; [constructor; assumption|].
      constructor; [assumption|].
      eapply Forall_impl; [exact Hbl|]. cbn. intros c Hc.
      eapply le_trans; eassumption.
Qed.

Lemma Array_sort_sorted l :
  Forall finite_fitness l -> sorted_by_fitness (Array_sort GA.by_fitness l).
Proof.
  induction l as [|a l IH]; intros Hl; cbn [Array_sort foldr].
  - constructor.
  - apply Forall_cons in Hl as [Ha Hl].
    apply sort_insert_sorted; [assumption| |apply IH, Hl].
    fold (Array_sort GA.by_fitness l). by rewrite Array_sort_perm.
Qed.

(** ** [evaluate]: the members' fitness and the run-global best *)


Lemma improves_refl g : improves g g.
Proof. apply not_above_refl. Qed.

Lemma improves_trans a b c : improves a b -> improves b c -> improves a c.
Proof. unfold improves. intros H1 H2. eapply not_above_trans; eassumption. Qed.


Lemma note_best_same_setting fit px py g : same_setting g (note_best fit px py g).
Proof. unfold note_best. destruct (fit <? bestGlobalFitness g); split; reflexivity. Qed.

Lemma note_best_random_state fit px py g :
  random_state (note_best fit px py g) = random_state g.
Proof. unfold note_best. destruct (fit <? bestGlobalFitness g); reflexivity. Qed.

Lemma note_best_improves fit px py g : improves g (note_best fit px py g).
Proof.
  unfold improves, note_best.
  destruct (fit <? bestGlobalFitness g) eqn:E; [right; exact E | left; reflexivity].
Qed.


Lemma update_global_best_eq fit px py g :
  update_global_best fit px py g = Returned (tt, note_best fit px py g).
Proof.
  unfold update_global_best, note_best, bind, gets. cbn.
  destruct (fit <? bestGlobalFitness g); reflexivity.
Qed.

Lemma GA_evaluate_member_eq ind g :
  GA.evaluate_member ind g =
  Returned (scored (currentFunction g) ind,
            note_member g (scored (currentFunction g) ind)).
Proof.
  unfold GA.evaluate_member, bind, gets. cbv beta iota.
  rewrite update_global_best_eq. reflexivity.
Qed.

Lemma PSO_evaluate_particle_eq p g :
  PSO.evaluate_particle p g =
  Returned (scored_particle (currentFunction g) p,
            note_particle g (scored_particle (currentFunction g) p)).
Proof.
  unfold PSO.evaluate_particle, bind, gets, scored_particle, note_particle.
  cbv beta iota zeta.
  cbn [Particle.x Particle.y Particle.vx Particle.vy Particle.pbestX Particle.pbestY
       Particle.pbestFit Particle.fitness].
  destruct (Benchmark.func (currentFunction g) (Particle.x p) (Particle.y p)
            <? Particle.pbestFit p);
    rewrite update_global_best_eq; reflexivity.
Qed.

Lemma foldl_note_member_setting l g :
  same_setting g (foldl note_member g l) /\
  random_state (foldl note_member g l) = random_state g /\
  improves g (foldl note_member g l).
Proof.
  revert g. induction l as [|a l IH]; intros g; cbn.
  - split; [apply same_setting_refl|]. split; [reflexivity | apply improves_refl].
  - destruct (IH (note_member g a)) as (H1 & H2 & H3). unfold note_member in *.
    split; [eapply same_setting_trans; [apply note_best_same_setting | exact H1]|].
    split; [rewrite H2; apply note_best_random_state|].
    eapply improves_trans; [apply note_best_improves | exact H3].
Qed.

Lemma foldl_note_particle_setting l g :
  same_setting g (foldl note_particle g l) /\
  random_state (foldl note_particle g l) = random_state g /\
  improves g (foldl note_particle g l).
Proof.
  revert g. induction l as [|a l IH]; intros g; cbn.
  - split; [apply same_setting_refl|]. split; [reflexivity | apply improves_refl].
  - destruct (IH (note_particle g a)) as (H1 & H2 & H3). unfold note_particle in *.
    split; [eapply same_setting_trans; [apply note_best_same_setting | exact H1]|].
    split; [rewrite H2; apply note_best_random_state|].
    eapply improves_trans; [apply note_best_improves | exact H3].
Qed.

Lemma note_member_function g i : currentFunction (note_member g i) = currentFunction g.
Proof. apply note_best_same_setting. Qed.

Lemma note_particle_function g p : currentFunction (note_particle g p) = currentFunction g.
Proof. apply note_best_same_setting. Qed.

Lemma forEach_GA_evaluate_member l g :
  forEach GA.evaluate_member l g =
  Returned (map (scored (currentFunction g)) l,
            foldl note_member g (map (scored (currentFunction g)) l)).
Proof.
  revert g. induction l as [|a l IH]; intros g; cbn [forEach map foldl]; [reflexivity|].
  unfold bind. rewrite GA_evaluate_member_eq, IH, note_member_function.
  reflexivity.
Qed.

Lemma forEach_PSO_evaluate_particle l g :
  forEach PSO.evaluate_particle l g =
  Returned (map (scored_particle (currentFunction g)) l,
            foldl note_particle g (map (scored_particle (currentFunction g)) l)).
Proof.
  revert g. induction l as [|a l IH]; intros g; cbn [forEach map foldl]; [reflexivity|].
  unfold bind. rewrite PSO_evaluate_particle_eq, IH, note_particle_function.
  reflexivity.
Qed.

(** [GA.evaluate] never throws: it scores every member, folds the scores
    into the run-global best and sorts. *)
Lemma GA_evaluate_eq this g :
  GA.evaluate this g =
  Returned (GA.set_population
              (Array_sort GA.by_fitness (map (scored (currentFunction g)) (GA.population this)))
              this,
            foldl note_member g (map (scored (currentFunction g)) (GA.population this))).
Proof.
  unfold GA.evaluate, bind. rewrite forEach_GA_evaluate_member. reflexivity.
Qed.

Lemma PSO_evaluate_eq this g :
  PSO.evaluate this g =
  Returned (PSO.set_particles
              (map (scored_particle (currentFunction g)) (PSO.particles this)) this,
            foldl note_particle g
              (map (scored_particle (currentFunction g)) (PSO.particles this))).
Proof.
  unfold PSO.evaluate, bind. rewrite forEach_PSO_evaluate_particle. reflexivity.
Qed.



(** ** Rules for [invariantly] *)

Section Invariantly.
Context (I : globals -> Prop).

Lemma invariantly_ret {A} (a : A) (Q : A -> Prop) : Q a -> invariantly I (ret a) Q.
Proof. intros H. apply hoare_ret. auto. Qed.

Lemma invariantly_bind {A B} (m : M A) (P : A -> Prop) (k : A -> M B) (Q : B -> Prop) :
  invariantly I m P -> (forall a, P a -> invariantly I (k a) Q) ->
  invariantly I (bind m k) Q.
Proof.
  intros Hm Hk. eapply hoare_bind; [exact Hm|].
  intros a g [Hg Ha]. apply Hk; assumption.
Qed.

Lemma invariantly_conseq {A} (m : M A) (P Q : A -> Prop) :
  invariantly I m P -> (forall a, P a -> Q a) -> invariantly I m Q.
Proof.
  intros Hm H. eapply hoare_conseq; [exact Hm | auto |].
  intros a g [? ?]. auto.
Qed.

Lemma invariantly_returns {A} (m : M A) (Q : A -> Prop) g :
  invariantly I m Q -> I g -> exists a g', m g = Returned (a, g') /\ I g' /\ Q a.
Proof. intros Hm Hg. apply wp_returned, Hm, Hg. Qed.

End Invariantly.

(** ** Random numbers *)

Lemma log_unit_interval u : (0 < u <= 1)%R -> (ln u <= 0)%R.
Proof.
  intros [H0 H1]. destruct (Req_dec_T u 1) as [->|Hne].
  - rewrite ln_1. lra.
  - pose proof (ln_increasing u 1 H0 ltac:(lra)) as H. rewrite ln_1 in H. lra.
Qed.

(** The value of [gaussianRandom] from two draws [r] and [v] with [r < 1]. *)
Lemma gaussian_value (r v mean stdev : R) :
  (0 <= r < 1)%R ->
  Math.sqrt (Fin (-2.0) * Math.log (Fin 1 - Fin r)) * Math.cos (Fin 2.0 * Math.PI * Fin v)
    * Fin stdev + Fin mean
  = Fin (sqrt (-2.0 * ln (1 + - r)) * cos (2.0 * PI * v) * stdev + mean).
Proof.
  intros Hr.
  cbv [Number.sub Number.neg Number.add Math.log].
  destruct (decide (1 + - r < 0)%R) as [H|_]; [lra|].
  destruct (decide (1 + - r = 0)%R) as [H|_]; [lra|].
  cbv [Number.mul Math.sqrt].
  pose proof (log_unit_interval (1 + - r) ltac:(lra)) as Hln.
  destruct (decide (-2.0 * ln (1 + - r) < 0)%R) as [H|_]; [lra|].
  reflexivity.
Qed.

Section Random.
Context (f : benchmark) (rnd : nat -> R).
Context (rnd_range : forall n, (0 <= rnd n < 1)%R).

Lemma setting_advance g : setting f rnd g -> setting f rnd (advance_rng g).
Proof. intros [? ?]. split; assumption. Qed.

Lemma Math_random_range :
  invariantly (setting f rnd) Math_random
    (fun r => exists v, r = Fin v /\ (0 <= v < 1)%R).
Proof using rnd_range.
  intros g Hg. apply wp_Math_random. split; [apply setting_advance, Hg|].
  destruct Hg as [_ ->]. eauto.
Qed.

Lemma random_range a b :
  invariantly (setting f rnd) (random (Fin a) (Fin b))
    (fun r => exists v, r = Fin v /\ ((a <= b)%R -> (a <= v <= b)%R)).
Proof using rnd_range.
  eapply invariantly_bind; [apply Math_random_range|].
  intros r (v & -> & Hv). apply invariantly_ret.
  eexists. split; [reflexivity|]. intros Hab. nra.
Qed.

Lemma gaussianRandom_is_finite mean stdev :
  invariantly (setting f rnd) (gaussianRandom (Fin mean) (Fin stdev))
    (fun z => exists v, z = Fin v).
Proof using rnd_range.
  eapply invariantly_bind; [apply Math_random_range|].
  intros r (u & -> & Hu).
  eapply invariantly_bind; [apply Math_random_range|].
  intros r (v & -> & Hv). apply invariantly_ret.
  rewrite gaussian_value by exact Hu. eauto.
Qed.

End Random.

(** ** The genetic algorithm *)

Lemma inside_Fin lo hi ind :
  inside (Fin lo, Fin hi) ind <->
  exists a b, Individual.x ind = Fin a /\ Individual.y ind = Fin b /\
              (lo <= a <= hi)%R /\ (lo <= b <= hi)%R.
Proof.
  unfold inside. rewrite !within_Fin. split.
  - intros [(a & ? & ?) (b & ? & ?)]. eauto 10.
  - intros (a & b & ? & ? & ? & ?). eauto 10.
Qed.

Lemma random_index (r : R) (n : Z) {A} (l : list A) :
  (0 <= r < 1)%R -> (1 <= n)%Z -> length l = Z.to_nat n ->
  exists a, array_get l (Math.floor (Fin r * Fin (IZR n))) = Some a /\ a ∈ l.
Proof.
  intros Hr Hn Hlen. cbn [Math.floor Number.mul array_get].
  rewrite ZfloorZ.
  assert (0 <= Zfloor (r * IZR n) < n)%Z as Hz.
  { assert (1 <= IZR n)%R by (apply IZR_le in Hn; exact Hn).
    split.
    - apply Zfloor_lub. cbn. nra.
    - apply lt_IZR. pose proof (Zfloor_bound (r * IZR n)). nra. }
  destruct (decide (IZR (Zfloor (r * IZR n)) = IZR (Zfloor (r * IZR n))
                    /\ (0 <= Zfloor (r * IZR n))%Z)) as [_|Hno];
    [|exfalso; apply Hno; split; [reflexivity | lia]].
  destruct (lookup_lt_is_Some_2 l (Z.to_nat (Zfloor (r * IZR n)))) as [a Ha]; [lia|].
  exists a. split; [exact Ha | eapply list_elem_of_lookup_2, Ha].
Qed.

Section GeneticAlgorithm.
Context (f : benchmark) (rnd : nat -> R).
Context (rnd_range : forall n, (0 <= rnd n < 1)%R).
Context (lo hi : R).
Context (f_bounds : Benchmark.bounds f = (Fin lo, Fin hi)) (lo_hi : (lo < hi)%R).
Context (f_finite : forall a b, exists v, Benchmark.func f (Fin a) (Fin b) = Fin v).

Local Abbreviation Inv := (setting f rnd).

Lemma GA_initialize_inside n :
  invariantly Inv (GA.initialize n (Fin lo, Fin hi))
    (fun pop => length pop = n /\ Forall (inside (Fin lo, Fin hi)) pop).
Proof using rnd_range lo_hi.
  induction n as [|n IH]; cbn [GA.initialize fst snd].
  - apply invariantly_ret. split; [reflexivity | constructor].
  - eapply invariantly_bind; [apply random_range, rnd_range|].
    intros x (a & -> & Ha).
    eapply invariantly_bind; [apply random_range, rnd_range|].
    intros y (b & -> & Hb).
    eapply invariantly_bind; [apply IH|].
    intros rest [Hlen Hrest]. apply invariantly_ret. split.
    + cbn. congruence.
    + constructor; [|exact Hrest]. apply inside_Fin. cbn.
      exists a, b. repeat split; try reflexivity; first [apply Ha | apply Hb]; lra.
Qed.

Lemma inside_finite_fitness ind :
  inside (Fin lo, Fin hi) ind -> finite_fitness (scored f ind).
Proof using f_finite.
  intros (a & b & Ha & Hb & _)%inside_Fin.
  unfold finite_fitness, scored. cbn. rewrite Ha, Hb.
  destruct (f_finite a b) as [v ->]. exact I.
Qed.

(** [evaluate] on members inside the bounds. *)
Lemma GA_evaluate_evaluated this :
  GA.bounds this = (Fin lo, Fin hi) -> (1 <= GA.popSize this)%Z ->
  length (GA.population this) = Z.to_nat (GA.popSize this) ->
  Forall (inside (Fin lo, Fin hi)) (GA.population this) ->
  invariantly Inv (GA.evaluate this)
    (fun this' => evaluated f this' /\ same_parameters this this' /\
                  GA.population this' ≡ₚ map (scored f) (GA.population this)).
Proof using f_finite f_bounds.
  intros Hb Hn Hlen Hin g Hg. unfold wp. rewrite GA_evaluate_eq.
  destruct Hg as [Hf Hr]. rewrite Hf.
  destruct (foldl_note_member_setting (map (scored f) (GA.population this)) g)
    as ([Hf' Hd'] & _ & _).
  split; [split; congruence|].
  set (pop := map (scored f) (GA.population this)).
  assert (Forall (inside (Fin lo, Fin hi)) pop) as Hpop.
  { subst pop. apply Forall_map. eapply Forall_impl; [exact Hin|]. auto. }
  split; [|split; [repeat split | apply Array_sort_perm]].
  unfold evaluated. cbn [GA.bounds GA.popSize GA.population GA.set_population].
  repeat split.
  - congruence.
  - exact Hn.
  - rewrite Array_sort_length. subst pop. rewrite length_map. exact Hlen.
  - rewrite Hb, Array_sort_perm. exact Hpop.
  - rewrite Array_sort_perm. subst pop. apply Forall_map, Forall_forall.
    intros i _. reflexivity.
  - apply Array_sort_sorted. subst pop. apply Forall_map.
    eapply Forall_impl; [exact Hin|]. apply inside_finite_fitness.
Qed.

Section Selection.
Context (this : GA.t).
Context (this_bounds : GA.bounds this = (Fin lo, Fin hi)).
Context (this_size : (1 <= GA.popSize this)%Z).
Context (this_length : length (GA.population this) = Z.to_nat (GA.popSize this)).
Context (this_inside : Forall (inside (Fin lo, Fin hi)) (GA.population this)).

Local Abbreviation member := (selected this).

Lemma tournament_round_member best :
  best = None \/ member best ->
  invariantly Inv (GA.tournament_round this best) member.
Proof using rnd_range this_size this_length.
  intros Hbest. unfold GA.tournament_round.
  eapply invariantly_bind; [apply Math_random_range, rnd_range|].
  intros r (v & -> & Hv).
  destruct (random_index v (GA.popSize this) (GA.population this) Hv this_size this_length)
    as (i & -> & Hi).
  destruct Hbest as [->|(b & -> & Hb)].
  - apply invariantly_ret. exists i. auto.
  - destruct (Individual.fitness i <? Individual.fitness b);
      apply invariantly_ret; eexists; eauto.
Qed.

Lemma tournamentSelect_member :
  invariantly Inv (GA.tournamentSelect this) member.
Proof using rnd_range this_size this_length.
  unfold GA.tournamentSelect.
  eapply invariantly_bind; [apply tournament_round_member; auto|].
  intros b1 Hb1.
  eapply invariantly_bind; [apply tournament_round_member; auto|].
  intros b2 Hb2. apply tournament_round_member; auto.
Qed.

Lemma mutate_inside ind :
  inside (Fin lo, Fin hi) ind ->
  invariantly Inv (GA.mutate this ind) (inside (Fin lo, Fin hi)).
Proof using rnd_range lo_hi this_bounds.
  intros Hin. unfold GA.mutate. rewrite this_bounds. cbn [fst snd].
  change (Fin hi - Fin lo) with (Fin (hi + - lo)).
  change (Fin (hi + - lo) * Fin 0.05) with (Fin ((hi + - lo) * 0.05)).
  eapply invariantly_bind; [apply Math_random_range, rnd_range|].
  intros r _.
  eapply (invariantly_bind _ _ (inside (Fin lo, Fin hi))).
  { destruct (r <? GA.mutationRate this); [|apply invariantly_ret, Hin].
    eapply invariantly_bind; [apply gaussianRandom_is_finite, rnd_range|].
    intros d (v & ->). apply invariantly_ret.
    apply inside_Fin in Hin as (a & b & Ha & Hb & Hab & Hbb).
    split; cbn [Individual.x Individual.y Individual.set_x]; rewrite ?Ha, ?Hb.
    - apply clamp_Fin. lra.
    - apply within_Fin. eauto. }
  clear ind Hin. intros ind Hin.
  eapply invariantly_bind; [apply Math_random_range, rnd_range|].
  intros r' _.
  destruct (r' <? GA.mutationRate this); [|apply invariantly_ret, Hin].
  eapply invariantly_bind; [apply gaussianRandom_is_finite, rnd_range|].
  intros d (v & ->). apply invariantly_ret.
  apply inside_Fin in Hin as (a & b & Ha & Hb & Hab & Hbb).
  split; cbn [Individual.x Individual.y Individual.set_y]; rewrite ?Ha, ?Hb.
  - apply within_Fin. eauto.
  - apply clamp_Fin. lra.
Qed.

Lemma blend_within (alpha a b : R) :
  (0 <= alpha < 1)%R -> (lo <= a <= hi)%R -> (lo <= b <= hi)%R ->
  within (Fin lo, Fin hi) (Fin alpha * Fin a + (Fin 1 - Fin alpha) * Fin b).
Proof.
  intros Hal Ha Hb. apply within_Fin. eexists. split; [reflexivity|]. nra.
Qed.

Lemma member_inside p : member p -> inside (Fin lo, Fin hi) (Individual.spread p).
Proof using this_inside.
  intros (i & -> & Hi). cbn. rewrite Forall_forall in this_inside. auto.
Qed.

Lemma offspring_inside :
  invariantly Inv (GA.offspring this)
    (fun cs => inside (Fin lo, Fin hi) (fst cs) /\ inside (Fin lo, Fin hi) (snd cs)).
Proof using rnd_range lo_hi this_bounds this_size this_length this_inside.
  unfold GA.offspring.
  eapply invariantly_bind; [apply tournamentSelect_member|]. intros p1 Hp1.
  eapply invariantly_bind; [apply tournamentSelect_member|]. intros p2 Hp2.
  eapply invariantly_bind; [apply Math_random_range, rnd_range|]. intros r _.
  eapply (invariantly_bind _ _
            (fun cs => inside (Fin lo, Fin hi) (fst cs) /\ inside (Fin lo, Fin hi) (snd cs))).
  { destruct (r <? GA.crossoverRate this).
    - eapply invariantly_bind; [apply Math_random_range, rnd_range|].
      intros alpha (al & -> & Hal).
      pose proof (member_inside _ Hp1) as H1. pose proof (member_inside _ Hp2) as H2.
      destruct Hp1 as (i1 & -> & _), Hp2 as (i2 & -> & _).
      cbn [Individual.spread] in *. cbn [GA.blend].
      apply inside_Fin in H1 as (a1 & b1 & Ha1 & Hb1 & ? & ?).
      apply inside_Fin in H2 as (a2 & b2 & Ha2 & Hb2 & ? & ?).
      apply invariantly_ret. rewrite Ha1, Hb1, Ha2, Hb2.
      repeat split; cbn [fst snd Individual.x Individual.y Individual.set_x Individual.set_y];
        apply blend_within; assumption.
    - apply invariantly_ret. split; apply member_inside; assumption. }
  intros cs [Hc1 Hc2].
  eapply invariantly_bind; [apply mutate_inside, Hc1|]. intros c1 H1.
  eapply invariantly_bind; [apply mutate_inside, Hc2|]. intros c2 H2.
  apply invariantly_ret. auto.
Qed.

Lemma breed_inside fuel : forall newPop,
  Forall (inside (Fin lo, Fin hi)) newPop ->
  (Z.to_nat (GA.popSize this) - length newPop <= fuel)%nat ->
  invariantly Inv (GA.breed fuel this newPop)
    (fun pop => Forall (inside (Fin lo, Fin hi)) pop /\
                length pop = Nat.max (length newPop) (Z.to_nat (GA.popSize this)) /\
                exists rest, pop = newPop ++ rest).
Proof using rnd_range lo_hi this_bounds this_size this_length this_inside.
  induction fuel as [|fuel IH]; intros newPop Hin Hfuel; cbn [GA.breed].
  - destruct (decide (Z.of_nat (length newPop) < GA.popSize this)%Z) as [Hlt|Hge]; [lia|].
    apply invariantly_ret. split; [exact Hin|]. split; [lia|].
    exists []. by rewrite app_nil_r.
  - destruct (decide (Z.of_nat (length newPop) < GA.popSize this)%Z) as [Hlt|Hge].
    + eapply invariantly_bind; [apply offspring_inside|]. intros cs [Hc1 Hc2].
      eapply invariantly_conseq.
      * apply IH.
        -- destruct (decide _); rewrite ?Forall_app; repeat split; auto.
        -- destruct (decide _); rewrite ?length_app; cbn; lia.
      * cbn beta. intros pop (Hpop & Hlen & rest & ->). split; [exact Hpop|].
        split.
        -- rewrite Hlen. destruct (decide _); rewrite ?length_app in *; cbn in *; lia.
        -- destruct (decide _); rewrite <- ?app_assoc; eauto.
    + apply invariantly_ret. split; [exact Hin|]. split; [lia|].
      exists []. by rewrite app_nil_r.
Qed.

End Selection.

(** One generation: [step] keeps a GA [evaluated], and with elitism the
    best member of the old generation is found again in the new one. *)
Lemma GA_step_evaluated this :
  evaluated f this ->
  invariantly Inv (GA.step this)
    (fun this' =>
       evaluated f this' /\ same_parameters this this' /\
       (GA.elitism this = true ->
        exists e e', GA.population this !! 0%nat = Some e /\ e' ∈ GA.population this' /\
                     Individual.x e' = Individual.x e /\
                     Individual.y e' = Individual.y e /\
                     Individual.fitness e' = Individual.fitness e)).
Proof using rnd_range lo_hi f_finite f_bounds.
  intros (Hb & Hn & Hlen & Hin & Hfit & Hsorted).
  rewrite f_bounds in Hb. rewrite Hb in Hin.
  unfold GA.step.
  destruct (GA.population this) as [|e pop] eqn:Epop; [cbn in Hlen; lia|].
  rewrite <- Epop in *.
  set (newPop := if GA.elitism this then _ else _).
  assert (Forall (inside (Fin lo, Fin hi)) newPop /\ (length newPop <= 1)%nat /\
          (GA.elitism this = true -> newPop = [e])) as (HnewIn & HnewLen & HnewE).
  { subst newPop. rewrite Epop. cbn. destruct (GA.elitism this).
    - split; [|split; [cbn; lia | reflexivity]].
      constructor; [|constructor]. rewrite Epop in Hin. by inversion Hin.
    - split; [constructor|]. split; [cbn; lia | discriminate]. }
  clearbody newPop.
  eapply invariantly_bind.
  { apply (breed_inside this Hb Hn Hlen Hin); [exact HnewIn | lia]. }
  intros pop' (Hpop' & Hlen' & rest & ->).
  eapply invariantly_conseq.
  { apply GA_evaluate_evaluated; cbn [GA.bounds GA.popSize GA.population GA.set_population];
      [exact Hb | exact Hn | lia | exact Hpop']. }
  cbn beta. intros this' (Hev & Hpar & Hperm). split; [exact Hev|]. split.
  { destruct Hpar as (? & ? & ? & ? & ? & ?). repeat split; assumption. }
  intros Hel. specialize (HnewE Hel). subst newPop.
  exists e, (scored f e). split; [rewrite Epop; reflexivity|]. split.
  { rewrite Hperm. cbn. left. }
  split; [reflexivity|]. split; [reflexivity|].
  cbn. rewrite Epop in Hfit. inversion Hfit; subst. symmetry. assumption.
Qed.

Lemma GA_new_evaluated (n : Z) mr cr el :
  (1 <= n)%Z ->
  invariantly Inv (GA.new n mr cr el)
    (fun this => evaluated f this /\ GA.popSize this = n /\ GA.mutationRate this = mr /\
                 GA.crossoverRate this = cr /\ GA.elitism this = el).
Proof using rnd_range lo_hi f_finite f_bounds.
  intros Hn. unfold GA.new.
  eapply hoare_bind with (Q' := fun fn g => Inv g /\ fn = f).
  { intros g Hg. apply wp_gets. split; [exact Hg | apply Hg]. }
  intros fn. apply hoare_pure. intros ->. rewrite f_bounds.
  eapply invariantly_bind; [apply GA_initialize_inside|].
  intros pop [Hlen Hin].
  eapply invariantly_conseq.
  { apply GA_evaluate_evaluated; cbn [GA.bounds GA.popSize GA.population];
      [reflexivity | exact Hn | exact Hlen | exact Hin]. }
  cbn beta. intros this (Hev & Hpar & _). split; [exact Hev|].
  destruct Hpar as (H1 & H2 & H3 & H4 & _). cbn in *. auto.
Qed.

Lemma GA_steps_evaluated k : forall this,
  evaluated f this ->
  invariantly Inv (GA_steps k this)
    (fun this' => evaluated f this' /\ same_parameters this this').
Proof using rnd_range lo_hi f_finite f_bounds.
  induction k as [|k IH]; intros this Hev; cbn [GA_steps].
  - apply invariantly_ret. split; [exact Hev|]. repeat split.
  - eapply invariantly_bind; [apply GA_step_evaluated, Hev|].
    intros this1 (Hev1 & Hpar1 & _).
    eapply invariantly_conseq; [apply IH, Hev1|].
    cbn beta. intros this' [Hev' Hpar']. split; [exact Hev'|].
    destruct Hpar1 as (? & ? & ? & ? & ? & ?), Hpar' as (? & ? & ? & ? & ? & ?).
    repeat split; congruence.
Qed.

End GeneticAlgorithm.

(** ** The smallest fitness of a generation *)

Lemma min_fitness_spec pop :
  Forall finite_fitness pop -> pop <> [] ->
  exists m, min_fitness pop = Fin m /\
            (exists e, e ∈ pop /\ Individual.fitness e = Fin m) /\
            Forall (fun e => Number.le (Fin m) (Individual.fitness e) = true) pop.
Proof.
  induction pop as [|a pop IH]; intros Hfin Hne; [congruence|].
  apply Forall_cons in Hfin as [Ha Hfin].
  unfold finite_fitness in Ha. destruct (Individual.fitness a) as [v| | |] eqn:Ea; try tauto.
  unfold min_fitness. cbn [map foldr]. rewrite Ea.
  destruct pop as [|b pop].
  - exists v. cbn. split; [reflexivity|]. split.
    + exists a. split; [left | exact Ea].
    + constructor; [|constructor]. rewrite Ea. cbn. apply bool_decide_eq_true. lra.
  - destruct (IH Hfin ltac:(congruence)) as (m & Hm & (e & He & Hem) & Hall).
    unfold min_fitness in Hm. rewrite Hm. cbn [Math.min Number.lt].
    destruct (bool_decide_reflect (m < v)%R) as [Hlt|Hge].
    + exists m. split; [reflexivity|]. split.
      * exists e. split; [right; exact He | exact Hem].
      * constructor; [|exact Hall]. rewrite Ea. cbn. apply bool_decide_eq_true. lra.
    + exists v. split; [reflexivity|]. split.
      * exists a. split; [left | exact Ea].
      * constructor; [rewrite Ea; cbn; apply bool_decide_eq_true; lra|].
        eapply Forall_impl; [exact Hall|]. cbn beta. intros c Hc.
        eapply le_trans; [|exact Hc]. cbn. apply bool_decide_eq_true. lra.
Qed.

Lemma evaluated_finite_fitness f this :
  (forall a b, exists v, Benchmark.func f (Fin a) (Fin b) = Fin v) ->
  (exists lo hi, Benchmark.bounds f = (Fin lo, Fin hi)) ->
  evaluated f this -> Forall finite_fitness (GA.population this).
Proof.
  intros Hfin (lo & hi & Hb) (Hbt & _ & _ & Hin & Hfit & _).
  rewrite Hbt, Hb in Hin. rewrite Forall_forall in *. intros i Hi.
  specialize (Hin i Hi). specialize (Hfit i Hi).
  apply inside_Fin in Hin as (a & b & Ha & Hb' & _).
  unfold finite_fitness. rewrite Hfit, Ha, Hb'.
  destruct (Hfin a b) as [v ->]. exact I.
Qed.

Lemma evaluated_nonempty f this : evaluated f this -> GA.population this <> [].
Proof.
  intros (_ & Hn & Hlen & _) E. rewrite E in Hlen. cbn in Hlen. lia.
Qed.

(** In an evaluated GA the member at index 0 has the smallest fitness. *)
Lemma evaluated_head_is_min f this e :
  (forall a b, exists v, Benchmark.func f (Fin a) (Fin b) = Fin v) ->
  (exists lo hi, Benchmark.bounds f = (Fin lo, Fin hi)) ->
  evaluated f this -> GA.population this !! 0%nat = Some e ->
  Number.le (Individual.fitness e) (min_fitness (GA.population this)) = true.
Proof.
  intros Hfin Hb Hev He.
  pose proof (evaluated_finite_fitness f this Hfin Hb Hev) as Hff.
  destruct (min_fitness_spec _ Hff (evaluated_nonempty _ _ Hev))
    as (m & -> & (e0 & He0 & <-) & Hall).
  destruct Hev as (_ & _ & _ & _ & _ & Hsorted).
  destruct (GA.population this) as [|e' pop]; [discriminate|].
  cbn in He. injection He as ->.
  apply StronglySorted_inv in Hsorted as [_ Hhead].
  apply elem_of_cons in He0 as [->|He0].
  - apply Forall_cons in Hall as [H _]. exact H.
  - rewrite Forall_forall in Hhead. apply Hhead. exact He0.
Qed.

(** ** Runs of the genetic algorithm *)

Lemma fair_zero_globals : fair zero_globals.
Proof. intros n. cbn. lra. Qed.

Lemma sphere_in_catalog : In (currentFunction zero_globals) catalog.
Proof. cbn. left. reflexivity. Qed.

Lemma GA_run_evaluated popSize mr cr el k g :
  (1 <= popSize)%Z -> fair g -> well_behaved (currentFunction g) ->
  exists this g',
    GA_run popSize mr cr el k g = Returned (this, g') /\
    setting (currentFunction g) (draws (random_state g)) g' /\
    evaluated (currentFunction g) this /\
    GA.popSize this = popSize /\ GA.elitism this = el.
Proof.
  intros Hn Hfair [(lo & hi & Hb & Hlohi) Hfin].
  set (f := currentFunction g). set (rnd := draws (random_state g)).
  assert (invariantly (setting f rnd) (GA_run popSize mr cr el k)
            (fun this => evaluated f this /\ GA.popSize this = popSize /\
                         GA.elitism this = el)) as H.
  { unfold GA_run. eapply invariantly_bind.
    - apply (GA_new_evaluated f rnd Hfair lo hi Hb Hlohi Hfin popSize mr cr el Hn).
    - intros this (Hev & Hp & _ & _ & He).
      eapply invariantly_conseq.
      + apply (GA_steps_evaluated f rnd Hfair lo hi Hb Hlohi Hfin k this Hev).
      + cbn beta. intros this' (Hev' & Hp' & _ & _ & He' & _).
        split; [exact Hev'|]. split; congruence. }
  destruct (invariantly_returns _ _ _ g H) as (this & g' & E & Hg' & Hev & Hp & He).
  { split; reflexivity. }
  exists this, g'. auto.
Qed.

(** C5.  For a GA constructed with [populationSize >= 2] over a function of
    the catalog, with [Math.random()] in [0,1): the constructor and every
    later [step()] return, and after the [evaluate()] that ends each of them
    the population has exactly [populationSize] members and is sorted
    ascending by fitness. *)
Theorem GA_population_sized_and_sorted :
  forall (popSize : Z) (mutationRate crossoverRate : number) (elitism : bool)
         (k : nat) (g : globals),
    (2 <= popSize)%Z -> fair g -> In (currentFunction g) catalog ->
    exists this g',
      GA_run popSize mutationRate crossoverRate elitism k g = Returned (this, g') /\
      length (GA.getPopulation this) = Z.to_nat popSize /\
      sorted_by_fitness (GA.getPopulation this).
Proof.
  intros popSize mr cr el k g Hn Hfair Hcat.
  destruct (GA_run_evaluated popSize mr cr el k g ltac:(lia) Hfair
              (catalog_well_behaved _ Hcat))
    as (this & g' & E & _ & (_ & _ & Hlen & _ & _ & Hsorted) & Hp & _).
  exists this, g'. split; [exact E|]. unfold GA.getPopulation.
  split; [congruence | exact Hsorted].
Qed.

Lemma GA_population_sized_and_sorted_example :
  exists this g',
    GA_run 2 (Fin 0.1) (Fin 0.8) true 3 zero_globals = Returned (this, g') /\
    length (GA.getPopulation this) = Z.to_nat 2 /\
    sorted_by_fitness (GA.getPopulation this).
Proof.
  apply (GA_population_sized_and_sorted 2 (Fin 0.1) (Fin 0.8) true 3 zero_globals).
  - lia.
  - intros n. cbn. lra.
  - cbn. left. reflexivity.
Defined.

(** C8.  With elitism, over a function of the catalog: the member at index 0
    of generation [k] is found in generation [k+1] with the same position
    and the same fitness, and the smallest fitness of generation [k+1] is at
    most the smallest fitness of generation [k]. *)
Theorem GA_elitism_keeps_the_best :
  forall (popSize : Z) (mutationRate crossoverRate : number) (k : nat) (g : globals),
    (2 <= popSize)%Z -> fair g -> In (currentFunction g) catalog ->
    exists gen g1 gen' g2,
      GA_run popSize mutationRate crossoverRate true k g = Returned (gen, g1) /\
      GA.step gen g1 = Returned (gen', g2) /\
      Number.le (min_fitness (GA.population gen')) (min_fitness (GA.population gen)) = true /\
      exists e e',
        GA.population gen !! 0%nat = Some e /\ e' ∈ GA.population gen' /\
        Individual.x e' = Individual.x e /\ Individual.y e' = Individual.y e /\
        Individual.fitness e' = Individual.fitness e.
Proof.
  intros popSize mr cr k g Hn Hfair Hcat.
  pose proof (catalog_well_behaved _ Hcat) as Hwb.
  destruct (GA_run_evaluated popSize mr cr true k g ltac:(lia) Hfair Hwb)
    as (gen & g1 & E & Hg1 & Hev & Hp & Hel).
  destruct Hwb as [(lo & hi & Hb & Hlohi) Hfin].
  pose proof (GA_step_evaluated _ _ Hfair lo hi Hb Hlohi Hfin gen Hev) as Hstep.
  destruct (invariantly_returns _ _ _ g1 Hstep Hg1)
    as (gen' & g2 & E' & _ & Hev' & _ & Helite).
  destruct (Helite Hel) as (e & e' & He & He' & Hx & Hy & Hfit).
  exists gen, g1, gen', g2. split; [exact E|]. split; [exact E'|]. split; [|eauto 10].
  assert (exists lo hi, Benchmark.bounds (currentFunction g) = (Fin lo, Fin hi)) as Hb'
    by eauto.
  pose proof (evaluated_head_is_min _ _ _ Hfin Hb' Hev He) as Hhead.
  pose proof (evaluated_finite_fitness _ _ Hfin Hb' Hev') as Hff.
  destruct (min_fitness_spec _ Hff (evaluated_nonempty _ _ Hev')) as (m & Hm & _ & Hall).
  rewrite Forall_forall in Hall. specialize (Hall e' He').
  rewrite Hm. eapply le_trans; [exact Hall|]. rewrite Hfit. exact Hhead.
Qed.

Lemma GA_elitism_keeps_the_best_example :
  exists gen g1 gen' g2,
    GA_run 2 (Fin 0.1) (Fin 0.8) true 1 zero_globals = Returned (gen, g1) /\
    GA.step gen g1 = Returned (gen', g2) /\
    Number.le (min_fitness (GA.population gen')) (min_fitness (GA.population gen)) = true /\
    exists e e',
      GA.population gen !! 0%nat = Some e /\ e' ∈ GA.population gen' /\
      Individual.x e' = Individual.x e /\ Individual.y e' = Individual.y e /\
      Individual.fitness e' = Individual.fitness e.
Proof.
  apply (GA_elitism_keeps_the_best 2 (Fin 0.1) (Fin 0.8) 1 zero_globals).
  - lia.
  - intros n. cbn. lra.
  - cbn. left. reflexivity.
Defined.

(** ** Particle swarm: what [step] computes *)

Lemma advance_by_S n g : advance_by (S n) g = advance_by n (advance_rng g).
Proof. unfold advance_by. rewrite Nat.iter_succ_r. reflexivity. Qed.

Lemma advance_by_spec n g :
  bestGlobalFitness (advance_by n g) = bestGlobalFitness g /\
  bestGlobalPosition (advance_by n g) = bestGlobalPosition g /\
  currentFunction (advance_by n g) = currentFunction g /\
  draws (random_state (advance_by n g)) = draws (random_state g) /\
  cursor (random_state (advance_by n g)) = (cursor (random_state g) + n)%nat.
Proof.
  revert g. induction n as [|n IH]; intros g.
  - cbn. repeat split; lia.
  - rewrite advance_by_S. destruct (IH (advance_rng g)) as (-> & -> & -> & -> & ->).
    cbn. repeat split; lia.
Qed.

Lemma PSO_move_eq this p g gx gy :
  bestGlobalPosition g = Some (gx, gy) ->
  PSO.move this p g =
  Returned (moved this gx gy
              (Fin (draws (random_state g) (cursor (random_state g))))
              (Fin (draws (random_state g) (S (cursor (random_state g))))) p,
            advance_by 2 g).
Proof.
  intros Hbest. unfold PSO.move, bind, Math_random, gets. cbn.
  rewrite Hbest. reflexivity.
Qed.

Lemma forEach_PSO_move this gx gy : forall ps g,
  bestGlobalPosition g = Some (gx, gy) ->
  forEach (PSO.move this) ps g =
  Returned (moved_all this gx gy (draws (random_state g)) (cursor (random_state g)) ps,
            advance_by (2 * length ps) g).
Proof.
  induction ps as [|p ps IH]; intros g Hbest; cbn [forEach moved_all]; [reflexivity|].
  unfold bind. rewrite (PSO_move_eq this p g gx gy Hbest).
  destruct (advance_by_spec 2 g) as (_ & Hpos & _ & Hd & Hc).
  rewrite IH by congruence. rewrite Hd, Hc. unfold ret.
  replace (cursor (random_state g) + 2)%nat with (S (S (cursor (random_state g)))) by lia.
  replace (2 * length (p :: ps))%nat with (S (S (2 * length ps))) by (cbn; lia).
  rewrite !advance_by_S. reflexivity.
Qed.

Lemma moved_all_length this gx gy rnd c ps :
  length (moved_all this gx gy rnd c ps) = length ps.
Proof. revert c. induction ps as [|p ps IH]; intros c; cbn; [reflexivity|]. by rewrite IH. Qed.

Lemma moved_all_lookup this gx gy rnd ps : forall c i p,
  ps !! i = Some p ->
  moved_all this gx gy rnd c ps !! i =
  Some (moved this gx gy (Fin (rnd (c + 2 * i)%nat)) (Fin (rnd (c + 2 * i + 1)%nat)) p).
Proof.
  induction ps as [|q ps IH]; intros c i p Hi; [discriminate|].
  destruct i as [|i].
  - injection Hi as ->. cbn [moved_all lookup list_lookup].
    replace (c + 2 * 0)%nat with c by lia.
    replace (c + 1)%nat with (S c) by lia. reflexivity.
  - cbn [moved_all]. change (ps !! i = Some p) in Hi.
    change (moved_all this gx gy rnd (S (S c)) ps !! i = 
            Some (moved this gx gy (Fin (rnd (c + 2 * S i)%nat))
                    (Fin (rnd (c + 2 * S i + 1)%nat)) p)).
    rewrite (IH _ _ _ Hi).
    replace (S (S c) + 2 * i)%nat with (c + 2 * S i)%nat by lia. reflexivity.
Qed.

(** [step] as a whole: it throws only while the global best position is
    [null]; otherwise every particle is moved and then scored. *)
Lemma PSO_step_eq this g gx gy :
  bestGlobalPosition g = Some (gx, gy) ->
  let ps := moved_all this gx gy (draws (random_state g)) (cursor (random_state g))
              (PSO.particles this) in
  let g1 := advance_by (2 * length (PSO.particles this)) g in
  PSO.step this g =
  Returned (PSO.set_particles (map (scored_particle (currentFunction g)) ps) this,
            foldl note_particle g1 (map (scored_particle (currentFunction g)) ps)).
Proof.
  intros Hbest ps g1. unfold PSO.step, bind.
  rewrite (forEach_PSO_move this gx gy _ g Hbest).
  rewrite PSO_evaluate_eq. cbn [PSO.particles PSO.set_particles].
  destruct (advance_by_spec (2 * length (PSO.particles this)) g) as (_ & _ & -> & _).
  reflexivity.
Qed.

Lemma scored_particle_position f p :
  Particle.x (scored_particle f p) = Particle.x p /\
  Particle.y (scored_particle f p) = Particle.y p /\
  Particle.vx (scored_particle f p) = Particle.vx p /\
  Particle.vy (scored_particle f p) = Particle.vy p.
Proof.
  unfold scored_particle.
  destruct (_ <? _); repeat split; reflexivity.
Qed.

(** C7.  [step()] on a swarm, once the global best position [(gx, gy)] is
    defined: it returns; particle [i] uses the two draws number [2i] and
    [2i+1] after the current position of the random sequence (so no draw is
    shared between particles or steps); its new velocity is
    [w*v + c1*r1*(pbest - pos) + c2*r2*(gbest - pos)] on each axis, kept as
    computed; its new position is the old one plus the new velocity, clamped
    into the bounds: a position beyond a bound is set to that bound. *)
Theorem PSO_step_moves_each_particle :
  forall (this : PSO.t) (g : globals) (gx gy : number),
    bestGlobalPosition g = Some (gx, gy) ->
    exists this' g',
      PSO.step this g = Returned (this', g') /\
      length (PSO.particles this') = length (PSO.particles this) /\
      cursor (random_state g')
      = (cursor (random_state g) + 2 * length (PSO.particles this))%nat /\
      forall i p, PSO.particles this !! i = Some p ->
        exists p', PSO.particles this' !! i = Some p' /\
          let r1 := Fin (draws (random_state g) (cursor (random_state g) + 2 * i)) in
          let r2 := Fin (draws (random_state g) (cursor (random_state g) + 2 * i + 1)) in
          Particle.vx p' = PSO.w this * Particle.vx p
                           + PSO.c1 this * r1 * (Particle.pbestX p - Particle.x p)
                           + PSO.c2 this * r2 * (gx - Particle.x p) /\
          Particle.vy p' = PSO.w this * Particle.vy p
                           + PSO.c1 this * r1 * (Particle.pbestY p - Particle.y p)
                           + PSO.c2 this * r2 * (gy - Particle.y p) /\
          Particle.x p' = clamp (PSO.bounds this) (Particle.x p + Particle.vx p') /\
          Particle.y p' = clamp (PSO.bounds this) (Particle.y p + Particle.vy p') /\
          forall lo hi, PSO.bounds this = (Fin lo, Fin hi) -> (lo <= hi)%R ->
            (forall v, Particle.x p + Particle.vx p' = Fin v ->
               ((hi < v)%R -> Particle.x p' = Fin hi) /\
               ((v < lo)%R -> Particle.x p' = Fin lo) /\
               ((lo <= v <= hi)%R -> Particle.x p' = Fin v)) /\
            (forall v, Particle.y p + Particle.vy p' = Fin v ->
               ((hi < v)%R -> Particle.y p' = Fin hi) /\
               ((v < lo)%R -> Particle.y p' = Fin lo) /\
               ((lo <= v <= hi)%R -> Particle.y p' = Fin v)).
Proof.
  intros this g gx gy Hbest.
  pose proof (PSO_step_eq this g gx gy Hbest) as E. cbv zeta in E.
  eexists _, _. split; [exact E|]. cbn [PSO.particles PSO.set_particles].
  split; [by rewrite length_map, moved_all_length|].
  split.
  { destruct (foldl_note_particle_setting
                (map (scored_particle (currentFunction g))
                   (moved_all this gx gy (draws (random_state g))
                      (cursor (random_state g)) (PSO.particles this)))
                (advance_by (2 * length (PSO.particles this)) g)) as (_ & -> & _).
    apply advance_by_spec. }
  intros i p Hp.
  eexists. split.
  { rewrite list_lookup_fmap, (moved_all_lookup _ _ _ _ _ _ _ _ Hp). reflexivity. }
  destruct (scored_particle_position (currentFunction g)
              (moved this gx gy
                 (Fin (draws (random_state g) (cursor (random_state g) + 2 * i)))
                 (Fin (draws (random_state g) (cursor (random_state g) + 2 * i + 1))) p))
    as (-> & -> & -> & ->).
  cbn [moved Particle.x Particle.y Particle.vx Particle.vy].
  repeat (split; [reflexivity|]).
  intros lo hi -> Hlohi. split; intros v ->;
    destruct (clamp_Fin_cases lo hi v) as (r & -> & _ & Hmid & Hhi & Hlo);
    (split; [|split]); intros Hv; f_equal; auto.
Qed.

Lemma PSO_step_moves_each_particle_example :
  exists this' g',
    PSO.step example_swarm example_best = Returned (this', g') /\
    length (PSO.particles this') = 1%nat /\
    cursor (random_state g') = 2%nat.
Proof.
  destruct (PSO_step_moves_each_particle example_swarm example_best (Fin 1) (Fin 1))
    as (this' & g' & E & Hlen & Hcur & _).
  - reflexivity.
  - exists this', g'. split; [exact E|]. split; [exact Hlen | exact Hcur].
Defined.

(** ** Particle swarm: positions stay inside the bounds *)

Lemma is_finite_Fin a : Number.is_finite a <-> exists v, a = Fin v.
Proof.
  split; [destruct a; cbn; try tauto; eauto | intros [v ->]; exact I].
Qed.

Lemma note_best_sound fit px py g :
  sound_best g ->
  sound_best (note_best (Fin fit) (Fin px) (Fin py) g) /\
  bestGlobalPosition (note_best (Fin fit) (Fin px) (Fin py) g) <> None.
Proof.
  unfold sound_best, note_best. intros Hg.
  destruct (Fin fit <? bestGlobalFitness g) eqn:E; cbn; [split; [exact I | discriminate]|].
  split; [exact Hg|].
  destruct (bestGlobalPosition g); [discriminate|].
  rewrite Hg in E. discriminate.
Qed.

Lemma foldl_note_particle_sound l : forall g,
  sound_best g ->
  Forall (fun p => exists a b v, Particle.x p = Fin a /\ Particle.y p = Fin b /\
                                 Particle.fitness p = Fin v) l ->
  sound_best (foldl note_particle g l) /\
  (l <> [] \/ bestGlobalPosition g <> None ->
   bestGlobalPosition (foldl note_particle g l) <> None).
Proof.
  induction l as [|p l IH]; intros g Hg Hl; cbn [foldl].
  - split; [exact Hg|]. intros [H|H]; [congruence | exact H].
  - apply Forall_cons in Hl as [(a & b & v & Ha & Hb & Hv) Hl].
    unfold note_particle at 2 4. rewrite Ha, Hb, Hv.
    destruct (note_best_sound v a b g Hg) as [Hs Hn].
    destruct (IH _ Hs Hl) as [Hs' Hn'].
    split; [exact Hs' | intros _; apply Hn'; right; exact Hn].
Qed.

Lemma rng_only_PSO_initialize n b : preserves rng_only (PSO.initialize n b).
Proof.
  induction n as [|n IH]; cbn [PSO.initialize].
  - apply preserves_ret, rng_only_refl.
  - repeat (apply preserves_bind;
            [apply rng_only_trans | apply rng_only_random | intros ?]).
    apply preserves_bind; [apply rng_only_trans | apply IH | intros ?].
    apply preserves_ret, rng_only_refl.
Qed.

Section ParticleSwarm.
Context (f : benchmark) (rnd : nat -> R).
Context (rnd_range : forall n, (0 <= rnd n < 1)%R).
Context (lo hi : R).
Context (f_bounds : Benchmark.bounds f = (Fin lo, Fin hi)) (lo_hi : (lo < hi)%R).
Context (f_finite : forall a b, exists v, Benchmark.func f (Fin a) (Fin b) = Fin v).

Local Abbreviation Inv := (setting f rnd).
Local Abbreviation box := (Fin lo, Fin hi).

Lemma sound_particle_Fin p :
  sound_particle box p <->
  exists a b va vb pa pb,
    p = Particle.mk (Fin a) (Fin b) (Fin va) (Fin vb) (Fin pa) (Fin pb)
          (Particle.pbestFit p) (Particle.fitness p) /\
    (lo <= a <= hi)%R /\ (lo <= b <= hi)%R.
Proof.
  unfold sound_particle. rewrite !within_Fin, !is_finite_Fin. split.
  - intros ((a & Ha & ?) & (b & Hb & ?) & (va & Hva) & (vb & Hvb) & (pa & Hpa) & (pb & Hpb)).
    exists a, b, va, vb, pa, pb. destruct p; cbn in *; subst. auto.
  - intros (a & b & va & vb & pa & pb & -> & ? & ?). cbn. eauto 20.
Qed.



Lemma scored_particle_sound p :
  sound_particle box p ->
  sound_particle box (scored_particle f p) /\
  exists a b v, Particle.x (scored_particle f p) = Fin a /\
                Particle.y (scored_particle f p) = Fin b /\
                Particle.fitness (scored_particle f p) = Fin v.
Proof using f_finite.
  intros (a & b & va & vb & pa & pb & -> & Ha & Hb)%sound_particle_Fin.
  unfold scored_particle. cbn [Particle.x Particle.y Particle.vx Particle.vy
    Particle.pbestX Particle.pbestY Particle.pbestFit Particle.fitness].
  destruct (f_finite a b) as [v ->].
  destruct (Fin v <? _);
    (split; [apply sound_particle_Fin; cbn; eauto 20 | cbn; exists a, b, v; auto]).
Qed.






End ParticleSwarm.



(** ** The constructor of the GA validates nothing *)

Lemma random_eq lo hi g :
  random lo hi g =
  Returned (Fin (draws (random_state g) (cursor (random_state g))) * (hi - lo) + lo,
            advance_rng g).
Proof. reflexivity. Qed.

Lemma GA_initialize_returns n b g :
  exists pop g', GA.initialize n b g = Returned (pop, g') /\ length pop = n.
Proof.
  revert g. induction n as [|n IH]; intros g; cbn [GA.initialize].
  - exists [], g. split; reflexivity.
  - unfold bind. rewrite random_eq. cbv beta iota. rewrite random_eq. cbv beta iota.
    destruct (IH (advance_rng (advance_rng g))) as (pop & g' & -> & Hlen).
    eexists _, _. split; [reflexivity|]. cbn. congruence.
Qed.

(** C2, as the code has it.  The constructor of the GA returns for every
    integer [popSize] and every pair of rates: it builds one member per
    iteration of [for (i = 0; i < popSize; i++)], so [max(popSize, 0)]
    members, and keeps the parameters as given. *)
Theorem GA_constructor_always_returns :
  forall (popSize : Z) (mutationRate crossoverRate : number) (elitism : bool)
         (g : globals),
    exists this g',
      GA.new popSize mutationRate crossoverRate elitism g = Returned (this, g') /\
      length (GA.population this) = Z.to_nat popSize /\
      GA.popSize this = popSize /\ GA.mutationRate this = mutationRate /\
      GA.crossoverRate this = crossoverRate /\ GA.elitism this = elitism.
Proof.
  intros popSize mr cr el g. unfold GA.new, bind at 1, gets.
  destruct (GA_initialize_returns (Z.to_nat popSize)
              (Benchmark.bounds (currentFunction g)) g) as (pop & g1 & E & Hlen).
  unfold bind. rewrite E, GA_evaluate_eq.
  eexists _, _. split; [reflexivity|].
  cbn [GA.population GA.set_population GA.popSize GA.mutationRate GA.crossoverRate
       GA.elitism].
  rewrite Array_sort_length, length_map. auto.
Qed.

(** C2 fails as stated: with [populationSize = 1] the constructor returns an
    optimizer with one member, and [step()] works on it. *)
Lemma GA_of_one_member_is_constructed :
  exists this g',
    GA.new 1 (Fin 0.1) (Fin 0.8) true zero_globals = Returned (this, g') /\
    length (GA.population this) = 1%nat /\
    exists this' g'',
      GA.step this g' = Returned (this', g'') /\ length (GA.population this') = 1%nat.
Proof.
  pose proof fair_zero_globals as Hfair.
  destruct (catalog_well_behaved _ sphere_in_catalog) as [(lo & hi & Hb & Hlohi) Hfin].
  pose proof (GA_new_evaluated _ _ Hfair lo hi Hb Hlohi Hfin 1 (Fin 0.1) (Fin 0.8) true
                ltac:(lia)) as Hnew.
  destruct (invariantly_returns _ _ _ zero_globals Hnew) as (this & g' & E & Hg' & Hev & Hp & _).
  { split; reflexivity. }
  exists this, g'. split; [exact E|].
  assert (length (GA.population this) = 1%nat) as Hlen.
  { destruct Hev as (_ & _ & -> & _). rewrite Hp. reflexivity. }
  split; [exact Hlen|].
  pose proof (GA_step_evaluated _ _ Hfair lo hi Hb Hlohi Hfin this Hev) as Hstep.
  destruct (invariantly_returns _ _ _ g' Hstep Hg')
    as (this' & g'' & E' & _ & Hev' & (Hp' & _) & _).
  exists this', g''. split; [exact E'|].
  destruct Hev' as (_ & _ & -> & _). rewrite <- Hp', Hp. reflexivity.
Qed.

(** ** The fuel of the [while] loop always suffices *)

Lemma fuelled_ret {A} (a : A) : fuelled (ret a).
Proof. intros g. discriminate. Qed.

Lemma fuelled_bind {A B} (m : M A) (k : A -> M B) :
  fuelled m -> (forall a, fuelled (k a)) -> fuelled (bind m k).
Proof.
  intros Hm Hk g. unfold bind. specialize (Hm g).
  destruct (m g) as [[a g']|e]; [apply Hk | congruence].
Qed.

Lemma fuelled_Math_random : fuelled Math_random.
Proof. intros g. discriminate. Qed.

Lemma fuelled_TypeError {A} : fuelled (@throw A TypeError).
Proof. intros g. discriminate. Qed.

Ltac fuelled_step :=
  first
    [ apply fuelled_ret
    | apply fuelled_TypeError
    | apply fuelled_Math_random
    | apply fuelled_bind; [ | intros ?]
    | match goal with
      | |- fuelled (if ?c then _ else _) => destruct c
      | |- fuelled (match ?x with _ => _ end) => destruct x
      end ].

Lemma fuelled_gaussianRandom mean stdev : fuelled (gaussianRandom mean stdev).
Proof. unfold gaussianRandom. repeat fuelled_step. Qed.

Lemma fuelled_tournamentSelect this : fuelled (GA.tournamentSelect this).
Proof. unfold GA.tournamentSelect, GA.tournament_round. repeat fuelled_step. Qed.

Lemma fuelled_mutate this ind : fuelled (GA.mutate this ind).
Proof.
  unfold GA.mutate.
  repeat first [apply fuelled_gaussianRandom | fuelled_step].
Qed.

Lemma fuelled_offspring this : fuelled (GA.offspring this).
Proof.
  unfold GA.offspring, GA.blend.
  repeat first [apply fuelled_tournamentSelect | apply fuelled_mutate | fuelled_step].
Qed.

Lemma fuelled_breed this fuel : forall newPop,
  (Z.to_nat (GA.popSize this) - length newPop <= fuel)%nat ->
  fuelled (GA.breed fuel this newPop).
Proof.
  induction fuel as [|fuel IH]; intros newPop Hfuel; cbn [GA.breed];
    destruct (decide (Z.of_nat (length newPop) < GA.popSize this)%Z);
    try apply fuelled_ret; [lia|].
  apply fuelled_bind; [apply fuelled_offspring|]. intros cs.
  apply IH. destruct (decide _); rewrite ?length_app; cbn; lia.
Qed.

(** Whatever the state of the GA, [step] does not run out of fuel: the loop
    adds at least one member per round and starts [popSize] rounds short at
    most. *)
Lemma fuelled_GA_step this : fuelled (GA.step this).
Proof.
  unfold GA.step. apply fuelled_bind.
  - apply fuelled_breed. lia.
  - intros pop g. rewrite GA_evaluate_eq. discriminate.
Qed.

(** ** The run-global best across calls *)

(** Frame reasoning for code that only consumes random numbers. *)
Ltac rng_only_step :=
  first
    [ apply preserves_ret; apply rng_only_refl
    | apply preserves_throw
    | apply rng_only_Math_random
    | apply rng_only_random
    | apply rng_only_gaussianRandom
    | apply preserves_gets; apply rng_only_refl
    | apply preserves_bind; [apply rng_only_trans | | intros ?]
    | match goal with
      | |- preserves _ (if ?c then _ else _) => destruct c
      | |- preserves _ (match ?x with _ => _ end) => destruct x
      end ].

Lemma rng_only_tournament_round this best :
  preserves rng_only (GA.tournament_round this best).
Proof. unfold GA.tournament_round. repeat rng_only_step. Qed.

Lemma rng_only_tournamentSelect this : preserves rng_only (GA.tournamentSelect this).
Proof.
  unfold GA.tournamentSelect.
  repeat (apply preserves_bind;
          [apply rng_only_trans | apply rng_only_tournament_round | intros ?]).
  apply rng_only_tournament_round.
Qed.

Lemma rng_only_mutate this ind : preserves rng_only (GA.mutate this ind).
Proof. unfold GA.mutate. repeat rng_only_step. Qed.

Lemma rng_only_blend alpha p1 p2 c1 c2 : preserves rng_only (GA.blend alpha p1 p2 c1 c2).
Proof. unfold GA.blend. repeat rng_only_step. Qed.

Lemma rng_only_offspring this : preserves rng_only (GA.offspring this).
Proof.
  unfold GA.offspring.
  repeat (apply preserves_bind;
          [apply rng_only_trans | apply rng_only_tournamentSelect | intros ?]).
  apply preserves_bind; [apply rng_only_trans | apply rng_only_Math_random | intros r].
  apply preserves_bind; [apply rng_only_trans | | intros cs].
  - destruct (r <? GA.crossoverRate this).
    + apply preserves_bind; [apply rng_only_trans | apply rng_only_Math_random | intros ?].
      apply rng_only_blend.
    + apply preserves_ret, rng_only_refl.
  - repeat (apply preserves_bind;
            [apply rng_only_trans | apply rng_only_mutate | intros ?]).
    apply preserves_ret, rng_only_refl.
Qed.

Lemma rng_only_breed fuel this : forall newPop,
  preserves rng_only (GA.breed fuel this newPop).
Proof.
  induction fuel as [|fuel IH]; intros newPop; cbn [GA.breed];
    destruct (decide (Z.of_nat (length newPop) < GA.popSize this)%Z).
  - apply preserves_throw.
  - apply preserves_ret, rng_only_refl.
  - apply preserves_bind; [apply rng_only_trans | apply rng_only_offspring | intros cs].
    apply IH.
  - apply preserves_ret, rng_only_refl.
Qed.

Lemma rng_only_PSO_move this p : preserves rng_only (PSO.move this p).
Proof.
  unfold PSO.move.
  repeat (apply preserves_bind;
          [apply rng_only_trans | apply rng_only_Math_random | intros ?]).
  apply preserves_bind; [apply rng_only_trans | apply preserves_gets, rng_only_refl|].
  intros [[gx gy]|]; [apply preserves_ret, rng_only_refl | apply preserves_throw].
Qed.










(** ** [gaussianRandom] *)



(** The hypothesis on the first draw is needed: were it 1, [u] would be 0
    and the result infinite. *)
Lemma gaussianRandom_at_one :
  exists g', gaussianRandom (Fin 0) (Fin 1) (initial_globals (fun _ => 1%R))
             = Returned (Infinity, g').
Proof.
  eexists. unfold gaussianRandom, bind, Math_random, ret. cbv beta iota.
  cbn [initial_globals advance_rng random_state draws cursor].
  cbv [Number.sub Number.neg Number.add Math.log].
  destruct (decide (1 + - (1) < 0)%R) as [H|_]; [lra|].
  destruct (decide (1 + - (1) = 0)%R) as [_|H]; [|lra].
  cbv [Number.mul Number.scale_inf Math.sqrt Math.cos Math.PI].
  destruct (decide (0 < -2.0)%R) as [H|_]; [lra|].
  destruct (decide (-2.0 < 0)%R) as [_|H]; [|lra].
  replace (2.0 * PI * 1)%R with (2 * PI)%R by lra. rewrite cos_2PI.
  destruct (decide (0 < 1)%R) as [_|H]; [|lra].
  reflexivity.
Qed.

(** ** Replay *)

Lemma untouched_refl w : untouched_by_replay w w.
Proof. repeat split. Qed.







(** ** The history array is shared with the archive *)

Lemma loop_running ctl w a a' g' :
  isRunning w = true -> currentAlgorithm w = Some a ->
  algorithm_step a (engine w) = Returned (a', g') ->
  loop ctl w =
  let w1 := render None None
              (array_push (currentRunHistory w) (algorithm_positions a')
                 (with_iteration (S (iteration w))
                    (with_currentAlgorithm (Some a') (with_engine g' w)))) in
  if bool_decide (0 < maxIterations ctl)%Z
     && bool_decide (maxIterations ctl <= Z.of_nat (S (iteration w)))%Z
  then stopSimulation true w1 else Returned w1.
Proof.
  intros Hrun Ha Hstep. unfold loop, run_engine. rewrite Hrun, Ha, Hstep. reflexivity.
Qed.

Lemma stopSimulation_logs w a :
  isReplaying w = false -> currentAlgorithm w = Some a -> (0 < iteration w)%nat ->
  stopSimulation true w =
  Returned (with_executionHistories
              (<[S (executionCount w) :=
                   Entry.mk (currentRunHistory w) (algorithm_color a)
                     (Benchmark.name (currentFunction (engine w)))]>
                 (executionHistories w))
              (with_executionCount (S (executionCount w)) (with_isRunning false w))).
Proof.
  intros Hrep Ha Hit. unfold stopSimulation, logResult. rewrite Hrep.
  cbn [andb with_isRunning with_executionCount iteration currentAlgorithm].
  rewrite bool_decide_eq_true_2 by exact Hit. rewrite Ha. reflexivity.
Qed.

Lemma deref_array_push w r s :
  (r < length (heap w))%nat ->
  deref (array_push r s w) r = deref w r ++ [s].
Proof.
  intros Hr. unfold deref, array_push. cbn [heap with_heap].
  destruct (lookup_lt_is_Some_2 (heap w) r Hr) as [h Hh].
  rewrite list_lookup_alter, Hh. rewrite decide_True by reflexivity. reflexivity.
Qed.

(** Three generations of the example GA exist. *)
Lemma example_generations :
  exists this0 g0 this1 g1 this2 g2,
    GA.new 2 (Fin 0.1) (Fin 0.8) true zero_globals = Returned (this0, g0) /\
    GA.step this0 g0 = Returned (this1, g1) /\
    GA.step this1 g1 = Returned (this2, g2) /\
    GA.color this0 = "#e74c3c"%string /\
    GA.color this1 = "#e74c3c"%string /\ GA.color this2 = "#e74c3c"%string /\
    currentFunction g1 = sphere /\ currentFunction g2 = sphere.
Proof.
  pose proof fair_zero_globals as Hfair.
  destruct (catalog_well_behaved _ sphere_in_catalog) as [(lo & hi & Hb & Hlohi) Hfin].
  pose proof (GA_new_evaluated _ _ Hfair lo hi Hb Hlohi Hfin 2 (Fin 0.1) (Fin 0.8) true
                ltac:(lia)) as Hnew.
  destruct (invariantly_returns _ _ _ zero_globals Hnew)
    as (this0 & g0 & E0 & Hg0 & Hev0 & _); [split; reflexivity|].
  destruct (invariantly_returns _ _ _ g0
              (GA_step_evaluated _ _ Hfair lo hi Hb Hlohi Hfin this0 Hev0) Hg0)
    as (this1 & g1 & E1 & Hg1 & Hev1 & Hp1 & _).
  destruct (invariantly_returns _ _ _ g1
              (GA_step_evaluated _ _ Hfair lo hi Hb Hlohi Hfin this1 Hev1) Hg1)
    as (this2 & g2 & E2 & Hg2 & Hev2 & Hp2 & _).
  exists this0, g0, this1, g1, this2, g2.
  assert (GA.color this0 = "#e74c3c"%string) as Hc0.
  { unfold GA.new, bind at 1, gets in E0. unfold bind in E0.
    destruct (GA.initialize _ _ _) as [[pop gi]|]; [|discriminate].
    rewrite GA_evaluate_eq in E0. injection E0 as <- _. reflexivity. }
  destruct Hp1 as (_ & _ & _ & _ & Hc1 & _), Hp2 as (_ & _ & _ & _ & Hc2 & _).
  repeat split; try assumption; try congruence; first [apply Hg1 | apply Hg2].
Qed.

Lemma startSimulation_fresh ctl w a g1 :
  isRunning w = false -> isReplaying w = false -> currentAlgorithm w = None ->
  construct ctl (reset_best (engine w)) = Returned (a, g1) ->
  startSimulation ctl w = loop ctl (started w a g1).
Proof.
  destruct w as [g run rep alg it count cur hist hp cv].
  cbn [isRunning isReplaying currentAlgorithm engine].
  intros -> -> -> Hc. unfold startSimulation, resetSimulation, stopSimulation.
  cbv [isRunning isReplaying currentAlgorithm orb andb with_isRunning
       with_currentAlgorithm with_iteration with_engine new_array with_heap
       with_currentRunHistory render with_canvas engine iteration executionCount
       currentRunHistory executionHistories heap canvas run_engine].
  rewrite Hc. f_equal. unfold started.
  cbn [heap executionCount executionHistories canvas].
  rewrite length_app, <- app_assoc. cbn [length app].
  replace (length hp + 1)%nat with (S (length hp)) by lia.
  reflexivity.
Qed.

Lemma startSimulation_resume ctl w a :
  isRunning w = false -> isReplaying w = false -> currentAlgorithm w = Some a ->
  startSimulation ctl w = loop ctl (with_isRunning true w).
Proof.
  intros Hrun Hrep Ha. unfold startSimulation. rewrite Hrun, Hrep, Ha. reflexivity.
Qed.

(** Arrays that exist are left as they are by a reset, and by a [push] to
    another array. *)
Lemma resetSimulation_keeps_arrays w w' ref :
  resetSimulation w = Returned w' -> (ref < length (heap w))%nat ->
  deref w' ref = deref w ref /\ executionHistories w' = executionHistories w.
Proof.
  unfold resetSimulation, stopSimulation.
  destruct (isReplaying w); cbn [andb]; intros [= <-] Href; unfold deref;
    cbn [heap executionHistories render with_canvas with_currentRunHistory with_heap
         new_array with_engine with_iteration with_currentAlgorithm with_isRunning
         with_isReplaying];
    rewrite lookup_app_l by exact Href; auto.
Qed.

Lemma deref_array_push_other w r s ref :
  ref <> r -> deref (array_push r s w) ref = deref w ref.
Proof.
  intros Hne. unfold deref, array_push. cbn [heap with_heap].
  rewrite list_lookup_alter_ne by congruence. reflexivity.
Qed.

Lemma stopSimulation_heap shouldLog w w' :
  stopSimulation shouldLog w = Returned w' -> heap w' = heap w.
Proof.
  unfold stopSimulation, logResult. destruct (isReplaying w); [intros [= <-]; reflexivity|].
  destruct (shouldLog && _).
  - cbn [currentAlgorithm with_executionCount with_isRunning].
    destruct (currentAlgorithm w); [|discriminate]. intros [= <-]. reflexivity.
  - intros [= <-]. reflexivity.
Qed.

(** A frame of [loop] changes no array but the one of the live run. *)
Lemma loop_keeps_other_arrays ctl w w' ref :
  loop ctl w = Returned w' -> ref <> currentRunHistory w ->
  deref w' ref = deref w ref.
Proof.
  unfold loop, run_engine. destruct (isRunning w); cbn [negb];
    [|intros [= <-]; reflexivity].
  destruct (currentAlgorithm w) as [a|]; [|discriminate].
  destruct (algorithm_step a (engine w)) as [[a' g']|]; [|discriminate].
  cbn [currentRunHistory with_iteration with_currentAlgorithm with_engine].
  intros H Hne.
  assert (heap w' = alter (fun h => h ++ [algorithm_positions a'])
                      (currentRunHistory w) (heap w)) as Hheap.
  { destruct (_ && _); [apply stopSimulation_heap in H; rewrite H|injection H as <-];
      reflexivity. }
  unfold deref. rewrite Hheap, list_lookup_alter_ne by congruence. reflexivity.
Qed.

(** Starting a new run (no optimizer on the page) leaves every existing
    array as it is: the new run writes to an array of its own. *)
Lemma new_run_keeps_arrays ctl w w' ref :
  isRunning w = false -> isReplaying w = false -> currentAlgorithm w = None ->
  startSimulation ctl w = Returned w' -> (ref < length (heap w))%nat ->
  deref w' ref = deref w ref.
Proof.
  intros Hrun Hrep Hnone Hstart Href.
  destruct (construct ctl (reset_best (engine w))) as [[a g1]|] eqn:Ec.
  - rewrite (startSimulation_fresh ctl w a g1 Hrun Hrep Hnone Ec) in Hstart.
    rewrite (loop_keeps_other_arrays _ _ _ ref Hstart) by (cbn; lia).
    unfold deref, started. cbn [heap]. rewrite lookup_app_l by exact Href. reflexivity.
  - exfalso. revert Hstart. destruct w as [g run rep alg it count cur hist hp cv].
    cbn [isRunning isReplaying currentAlgorithm engine] in *. subst.
    unfold startSimulation, resetSimulation, stopSimulation.
    cbv [isRunning isReplaying currentAlgorithm orb andb with_isRunning
         with_currentAlgorithm with_iteration with_engine new_array with_heap
         with_currentRunHistory render with_canvas engine iteration executionCount
         currentRunHistory executionHistories heap canvas run_engine].
    rewrite Ec. discriminate.
Qed.

(** Resuming a stopped run appends to the array that its archive entry
    refers to. *)
Lemma resume_appends_to_the_archive ctl w w' a a' g' id e :
  isRunning w = false -> isReplaying w = false -> currentAlgorithm w = Some a ->
  algorithm_step a (engine w) = Returned (a', g') ->
  executionHistories w !! id = Some e -> Entry.history e = currentRunHistory w ->
  (currentRunHistory w < length (heap w))%nat ->
  startSimulation ctl w = Returned w' ->
  deref w' (Entry.history e) = deref w (Entry.history e) ++ [algorithm_positions a'].
Proof.
  intros Hrun Hrep Ha Hstep _ -> Href.
  rewrite (startSimulation_resume ctl w a Hrun Hrep Ha).
  rewrite (loop_running ctl (with_isRunning true w) a a' g' eq_refl Ha Hstep).
  cbn zeta. cbn [currentRunHistory with_isRunning iteration].
  intros H.
  assert (heap w' = heap (array_push (currentRunHistory w) (algorithm_positions a') w))
    as Hheap.
  { destruct (_ && _); [apply stopSimulation_heap in H; rewrite H|injection H as <-];
      reflexivity. }
  unfold deref at 1. rewrite Hheap. apply (deref_array_push w _ _ Href).
Qed.

(** C3, at the failing input.  On a fresh page a GA of two members is run
    with [maxIterations = 1]: the run completes and is logged as entry 1,
    whose history holds the two snapshots [s0], [s1].  Run is clicked again:
    the stopped run resumes for one more step, and the history of entry 1,
    the same array as the live [currentRunHistory], now holds three
    snapshots. *)
Theorem resuming_a_logged_run_changes_its_archive :
  exists w1 w2 e s0 s1 s2,
    handle (ClickRun example_controls) (initial_world (fun _ => 0%R)) = Returned w1 /\
    executionHistories w1 !! 1%nat = Some e /\
    deref w1 (Entry.history e) = [s0; s1] /\
    handle (ClickRun example_controls) w1 = Returned w2 /\
    executionHistories w2 !! 1%nat = Some e /\
    deref w2 (Entry.history e) = [s0; s1; s2].
Proof.
  destruct example_generations
    as (this0 & g0 & this1 & g1 & this2 & g2 & E0 & E1 & E2 & C0 & C1 & C2 & F1 & F2).
  assert (construct example_controls (reset_best (engine (initial_world (fun _ => 0%R))))
          = Returned (AlgGA this0, g0)) as Hc.
  { unfold construct. cbn [algorithmSelect example_controls].
    rewrite decide_True by reflexivity. unfold bind.
    change (reset_best _) with zero_globals.
    cbn [gaPopSize gaMutation gaCrossover gaElitism example_controls].
    rewrite E0. reflexivity. }
  eexists _, _, _, _, _, _. split.
  { cbn [handle]. rewrite (startSimulation_fresh example_controls (initial_world (fun _ => 0%R)) _ _
               eq_refl eq_refl eq_refl Hc).
    erewrite loop_running; [|reflexivity|reflexivity|cbn; unfold bind; rewrite E1; reflexivity].
    cbn zeta. cbn [maxIterations example_controls iteration started].
    rewrite !bool_decide_eq_true_2 by lia. cbn [andb].
    erewrite stopSimulation_logs; [reflexivity|reflexivity|reflexivity|cbn; lia]. }
  split.
  { cbn. apply lookup_insert_eq. }
  split.
  { reflexivity. }
  split.
  { cbn [handle]. erewrite startSimulation_resume; [|reflexivity|reflexivity|reflexivity].
    erewrite loop_running; [|reflexivity|reflexivity|cbn; unfold bind; rewrite E2; reflexivity].
    cbn zeta. cbn [maxIterations example_controls].
    rewrite !bool_decide_eq_true_2 by (cbn; lia). cbn [andb].
    erewrite stopSimulation_logs; [reflexivity|reflexivity|reflexivity|cbn; lia]. }
  split.
  { cbn. rewrite lookup_insert_ne by lia. apply lookup_insert_eq. }
  reflexivity.
Qed.

(* ===================================================================== *)
(** * Part III: the visualization                                         *)
(* ===================================================================== *)

(** ** [map] *)

Lemma map_Fin (v a b c d : R) :
  a <> b ->
  Utils.map (Fin v) (Fin a) (Fin b) (Fin c) (Fin d)
  = Fin (c + (d - c) * ((v - a) / (b - a))).
Proof.
  intros Hab. unfold Utils.map, Operator.div, Number.sub, Number.add, Number.mul, Number.neg.
  rewrite decide_False by lra. reflexivity.
Qed.





(** ** The points of [render] *)




(** ** [drawBackground]: the marker *)

Lemma drawBackground_marker width height f :
  marker (drawBackground width height f)
  = (Utils.map (fst (globalMinMarker f)) (fst (Benchmark.bounds f))
       (snd (Benchmark.bounds f)) (Fin 0) (Fin (INR width)),
     Utils.map (snd (globalMinMarker f)) (fst (Benchmark.bounds f))
       (snd (Benchmark.bounds f)) (Fin 0) (Fin (INR height))).
Proof.
  unfold drawBackground. destruct (sample_range f width height) as [minVal maxVal].
  destruct (globalMinMarker f) as [minX minY]. reflexivity.
Qed.

(** X4.  [drawBackground] puts the "Global Min marker" at the centre of the
    canvas for every function of the catalog except Schwefel, whose marker
    is at 0.9209687 of the width and of the height. *)
Theorem marker_is_at_the_centre_except_for_schwefel (width height : nat) (f : benchmark) :
  In f catalog ->
  marker (drawBackground width height f)
  = if String.eqb (Benchmark.name f) "Schwefel"
    then (Fin (0.9209687 * INR width)%R, Fin (0.9209687 * INR height)%R)
    else (Fin (INR width / 2)%R, Fin (INR height / 2)%R).
Proof.
  intros Hf. rewrite drawBackground_marker.
  unfold catalog in Hf. cbn in Hf.
  destruct Hf as [<-|[<-|[<-|[<-|[<-|[]]]]]];
    match goal with
    | |- context [globalMinMarker ?f] =>
        let m := eval vm_compute in (String.eqb (Benchmark.name f) "Schwefel") in
        change (String.eqb (Benchmark.name f) "Schwefel") with m;
        unfold globalMinMarker;
        change (String.eqb (Benchmark.name f) "Schwefel") with m
    end;
    cbn [fst snd Benchmark.bounds sphere rastrigin schwefel rosenbrock ackley];
    rewrite !map_Fin by lra; f_equal; f_equal; lra.
Qed.

Lemma marker_is_at_the_centre_except_for_schwefel_example :
  marker (drawBackground 600 600 rosenbrock)
  = (Fin (INR 600 / 2)%R, Fin (INR 600 / 2)%R).
Proof.
  apply (marker_is_at_the_centre_except_for_schwefel 600 600 rosenbrock).
  cbn. tauto.
Defined.

(** ** [drawBackground]: the color of a pixel *)

Lemma tone_range (n : R) : (0 <= n <= 1)%R -> (0 <= tone n <= 1)%R.
Proof.
  intros [H0 H1]. unfold tone. destruct (decide (n = 0)%R) as [|Hn]; [lra|].
  split.
  - left. apply exp_pos.
  - rewrite <- (Rpower_O 1) by lra.
    replace (Rpower 1 0) with (Rpower 1 0.3).
    + apply Rle_Rpower_l; lra.
    + unfold Rpower. rewrite ln_1, !Rmult_0_r. reflexivity.
Qed.

Lemma tone_0 : tone 0 = 0%R.
Proof. unfold tone. rewrite decide_True by reflexivity. reflexivity. Qed.

Lemma tone_1 : tone 1 = 1%R.
Proof.
  unfold tone. rewrite decide_False by lra.
  unfold Rpower. rewrite ln_1, Rmult_0_r. apply exp_0.
Qed.


Lemma tone_mono (n1 n2 : R) : (0 <= n1 <= n2)%R -> (tone n1 <= tone n2)%R.
Proof.
  intros [H0 H12]. unfold tone.
  destruct (decide (n1 = 0)%R) as [->|Hn1].
  - destruct (decide (n2 = 0)%R); [lra|]. left. apply exp_pos.
  - rewrite decide_False by lra. apply Rle_Rpower_l; lra.
Qed.

Lemma colour_Fin (m M v : R) :
  (m < M)%R -> (m <= v)%R ->
  colour (Fin m) (Fin M) (Fin v)
  = let c := tone ((v - m) / (M - m)) in
    (Fin (IZR (Zfloor (c * 255))),
     Fin (IZR (Zfloor ((1 - Rabs (c - 0.5) * 2) * 100 + 100))),
     Fin (IZR (Zfloor ((1 - c) * 255)))).
Proof.
  intros HmM Hmv. unfold colour.
  assert (0 <= (v - m) / (M - m))%R as Hn.
  { apply Rmult_le_pos; [lra|]. apply Rlt_le, Rinv_0_lt_compat. lra. }
  cbn [Number.sub Number.add Number.neg Operator.div Operator.strict_eq].
  rewrite decide_False by lra. rewrite bool_decide_eq_false_2 by lra.
  unfold Math_pow_fraction, tone.
  replace (v + - m)%R with (v - m)%R by lra.
  replace (M + - m)%R with (M - m)%R by lra.
  rewrite decide_False by lra.
  destruct (decide ((v - m) / (M - m) = 0)%R) as [E|E]; cbn;
    repeat f_equal; lra.
Qed.

Lemma ToUint8Clamp_byte (k : Z) :
  (0 <= k <= 255)%Z -> ToUint8Clamp (Fin (IZR k)) = k.
Proof.
  intros [H0 H255]. unfold ToUint8Clamp.
  destruct (decide (IZR k <= 0)%R) as [H|H].
  { apply le_IZR in H. lia. }
  destruct (decide (255 <= IZR k)%R) as [H'|H'].
  { apply le_IZR in H'. lia. }
  rewrite ZfloorZ. cbn zeta.
  rewrite decide_False by lra. rewrite decide_True by lra. reflexivity.
Qed.

Lemma Zfloor_range (x : R) (lo hi : Z) :
  (IZR lo <= x <= IZR hi)%R -> (lo <= Zfloor x <= hi)%Z.
Proof.
  intros [Hlo Hhi]. split.
  - apply Zfloor_lub, Hlo.
  - apply le_IZR. pose proof (Zfloor_bound x). lra.
Qed.

(** X5.  For a value between the sampled minimum and maximum the three
    color numbers are integers in their ranges, red and blue in 0..255 and
    green in 100..200, so that the image stores them as they are, with
    alpha 255. *)
Theorem colour_of_a_value_in_the_sampled_range (minVal maxVal val : R) :
  (minVal < maxVal)%R -> (minVal <= val <= maxVal)%R ->
  exists r g b : Z,
    colour (Fin minVal) (Fin maxVal) (Fin val) = (Fin (IZR r), Fin (IZR g), Fin (IZR b)) /\
    stored (colour (Fin minVal) (Fin maxVal) (Fin val)) = [r; g; b; 255%Z] /\
    (0 <= r <= 255)%Z /\ (100 <= g <= 200)%Z /\ (0 <= b <= 255)%Z.
Proof.
  intros HmM [Hlo Hhi]. rewrite colour_Fin by assumption. cbn zeta.
  set (c := tone _).
  assert (0 <= c <= 1)%R as Hc.
  { apply tone_range. split.
    - apply Rmult_le_pos; [lra|]. apply Rlt_le, Rinv_0_lt_compat. lra.
    - apply (Rmult_le_reg_r (maxVal - minVal)); [lra|].
      unfold Rdiv. rewrite Rmult_assoc, Rinv_l by lra. lra. }
  assert (0 <= Zfloor (c * 255) <= 255)%Z as Hr by (apply Zfloor_range; lra).
  assert (100 <= Zfloor ((1 - Rabs (c - 0.5) * 2) * 100 + 100) <= 200)%Z as Hg.
  { apply Zfloor_range. unfold Rabs. destruct (Rcase_abs _); lra. }
  assert (0 <= Zfloor ((1 - c) * 255) <= 255)%Z as Hb by (apply Zfloor_range; lra).
  eexists _, _, _. split; [reflexivity|]. split; [|auto].
  unfold stored. rewrite !ToUint8Clamp_byte by lia. reflexivity.
Qed.

Lemma colour_of_a_value_in_the_sampled_range_example :
  exists r g b : Z,
    colour (Fin 0) (Fin 2) (Fin 1) = (Fin (IZR r), Fin (IZR g), Fin (IZR b)) /\
    stored (colour (Fin 0) (Fin 2) (Fin 1)) = [r; g; b; 255%Z] /\
    (0 <= r <= 255)%Z /\ (100 <= g <= 200)%Z /\ (0 <= b <= 255)%Z.
Proof. apply colour_of_a_value_in_the_sampled_range; lra. Defined.

Lemma ToUint8Clamp_integer (k : Z) :
  ToUint8Clamp (Fin (IZR k)) = Z.max 0 (Z.min 255 k).
Proof.
  destruct (Z_le_gt_dec k 0) as [H0|H0].
  { unfold ToUint8Clamp. rewrite decide_True by (apply IZR_le; assumption). lia. }
  destruct (Z_le_gt_dec 255 k) as [H1|H1].
  { unfold ToUint8Clamp.
    rewrite decide_False by (apply Rlt_not_le, IZR_lt; lia).
    rewrite decide_True by (apply IZR_le; assumption). lia. }
  rewrite ToUint8Clamp_byte by lia. lia.
Qed.

Ltac floor_of k :=
  match goal with
  | |- context [Zfloor ?x] =>
      replace x with (IZR k)
        by (unfold Rabs;
            repeat match goal with
                   | |- context [Rcase_abs ?y] => destruct (Rcase_abs y)
                   end; lra);
      rewrite (ZfloorZ k)
  end.

(** X6.  The lowest sampled value is painted pure blue with green at its
    floor, (0, 100, 255), and the highest one (255, 100, 0); when the
    samples are all equal every pixel gets the color of the lowest value,
    the division by zero being replaced by 0. *)
Theorem colour_at_the_ends_of_the_sampled_range (minVal maxVal : R) :
  (minVal < maxVal)%R ->
  stored (colour (Fin minVal) (Fin maxVal) (Fin minVal)) = [0; 100; 255; 255]%Z /\
  stored (colour (Fin minVal) (Fin maxVal) (Fin maxVal)) = [255; 100; 0; 255]%Z /\
  forall val : R, stored (colour (Fin minVal) (Fin minVal) (Fin val)) = [0; 100; 255; 255]%Z.
Proof.
  intros HmM. repeat split.
  - rewrite colour_Fin by lra. cbn zeta.
    replace ((minVal - minVal) / (maxVal - minVal))%R with 0%R by (unfold Rdiv; lra).
    rewrite tone_0. floor_of 0%Z. floor_of 100%Z. floor_of 255%Z.
    unfold stored. rewrite !ToUint8Clamp_byte by lia. reflexivity.
  - rewrite colour_Fin by lra. cbn zeta.
    replace ((maxVal - minVal) / (maxVal - minVal))%R with 1%R by (field; lra).
    rewrite tone_1. floor_of 255%Z. floor_of 100%Z. floor_of 0%Z.
    unfold stored. rewrite !ToUint8Clamp_byte by lia. reflexivity.
  - intros val. unfold colour.
    cbn [Number.sub Number.add Number.neg Operator.strict_eq].
    rewrite bool_decide_eq_true_2 by lra.
    unfold Math_pow_fraction. rewrite decide_False by lra.
    rewrite decide_True by reflexivity.
    cbn [Number.sub Number.add Number.neg Number.mul Math.abs Math.floor].
    floor_of 0%Z. floor_of 100%Z. floor_of 255%Z.
    unfold stored. rewrite !ToUint8Clamp_byte by lia. reflexivity.
Qed.

Lemma colour_at_the_ends_of_the_sampled_range_example :
  stored (colour (Fin 0) (Fin 50) (Fin 0)) = [0; 100; 255; 255]%Z /\
  stored (colour (Fin 0) (Fin 50) (Fin 50)) = [255; 100; 0; 255]%Z /\
  forall val : R, stored (colour (Fin 0) (Fin 0) (Fin val)) = [0; 100; 255; 255]%Z.
Proof. apply colour_at_the_ends_of_the_sampled_range; lra. Defined.



(** X8.  Between pixels whose values are not below the sampled minimum, a
    higher value is never stored less red nor more blue. *)
Theorem higher_values_are_redder_and_less_blue (minVal maxVal u v : R) :
  (minVal < maxVal)%R -> (minVal <= u <= v)%R ->
  exists r1 g1 b1 r2 g2 b2 : Z,
    stored (colour (Fin minVal) (Fin maxVal) (Fin u)) = [r1; g1; b1; 255%Z] /\
    stored (colour (Fin minVal) (Fin maxVal) (Fin v)) = [r2; g2; b2; 255%Z] /\
    (r1 <= r2)%Z /\ (b2 <= b1)%Z.
Proof.
  intros HmM [Hu Huv]. rewrite !colour_Fin by lra. cbn zeta.
  assert (0 < / (maxVal - minVal))%R as Hinv by (apply Rinv_0_lt_compat; lra).
  assert (tone ((u - minVal) / (maxVal - minVal))
          <= tone ((v - minVal) / (maxVal - minVal)))%R as Hc.
  { apply tone_mono. unfold Rdiv. split.
    - apply Rmult_le_pos; lra.
    - apply Rmult_le_compat_r; lra. }
  unfold stored. rewrite !ToUint8Clamp_integer.
  eexists _, _, _, _, _, _. split; [reflexivity|]. split; [reflexivity|].
  split.
  - apply Z.max_le_compat_l, Z.min_le_compat_l, Zfloor_le. lra.
  - apply Z.max_le_compat_l, Z.min_le_compat_l, Zfloor_le. lra.
Qed.

Lemma higher_values_are_redder_and_less_blue_example :
  exists r1 g1 b1 r2 g2 b2 : Z,
    stored (colour (Fin 0) (Fin 50) (Fin 10)) = [r1; g1; b1; 255%Z] /\
    stored (colour (Fin 0) (Fin 50) (Fin 20)) = [r2; g2; b2; 255%Z] /\
    (r1 <= r2)%Z /\ (b2 <= b1)%Z.
Proof. apply higher_values_are_redder_and_less_blue; lra. Defined.

(** ** [drawBackground]: the sampling loops *)

Lemma count_up_elem (step fuel : nat) :
  (0 < step)%nat ->
  forall from n p, (n - from <= fuel)%nat ->
    p ∈ count_up fuel from step n <-> (p < n)%nat /\ exists k, p = (from + k * step)%nat.
Proof.
  intros Hstep. induction fuel as [|fuel IH]; intros from n p Hfuel; cbn [count_up].
  - split; [inversion 1|]. intros (Hlt & k & ->). lia.
  - destruct (decide (from < n)%nat) as [Hlt|Hge].
    + rewrite elem_of_cons, IH by lia. split.
      * intros [->|(Hp & k & ->)].
        -- split; [lia|]. exists 0%nat. lia.
        -- split; [lia|]. exists (S k). lia.
      * intros (Hp & k & ->). destruct k as [|k].
        -- left. lia.
        -- right. split; [lia|]. exists k. lia.
    + split; [inversion 1|]. intros (Hlt & k & ->). lia.
Qed.

Lemma count_up_every_fifth (n p : nat) :
  p ∈ count_up n 0 5 n <-> (p < n)%nat /\ (p mod 5 = 0)%nat.
Proof.
  rewrite count_up_elem by lia. rewrite Nat.Lcm0.mod_divide.
  split; intros (Hlt & k & ->); (split; [lia|]); exists k; lia.
Qed.

Lemma foldl_nested {A B C} (g : A -> B -> C -> A) (ys : list C) (xs : list B) :
  forall acc,
    foldl (fun acc y => foldl (fun acc x => g acc x y) acc xs) acc ys
    = foldl (fun acc p => g acc (fst p) (snd p)) acc
        (ys ≫= fun y => (fun x => (x, y)) <$> xs).
Proof.
  induction ys as [|y ys IH]; intros acc; [reflexivity|].
  cbn [foldl]. rewrite IH. cbn [mbind list_bind]. rewrite foldl_app. f_equal.
  rewrite foldl_fmap. reflexivity.
Qed.

Lemma elem_of_grid {B C} (xs : list B) (ys : list C) (x : B) (y : C) :
  (x, y) ∈ (ys ≫= fun y => (fun x => (x, y)) <$> xs) <-> x ∈ xs /\ y ∈ ys.
Proof.
  rewrite list_elem_of_bind. split.
  - intros (y' & Hx & Hy). apply list_elem_of_fmap in Hx as (x' & [= -> ->] & Hx). auto.
  - intros [Hx Hy]. exists y. split; [|assumption]. apply list_elem_of_fmap. eauto.
Qed.

Lemma pixel_value_finite (f : benchmark) (width height px py : nat) :
  well_behaved f -> (0 < width)%nat -> (0 < height)%nat ->
  exists r, pixel_value f width height px py = Fin r.
Proof.
  intros [(lo & hi & Hb & Hlohi) Hfin] Hw Hh.
  apply lt_INR in Hw, Hh. cbn [INR] in Hw, Hh.
  unfold pixel_value, pixel_point. rewrite Hb. cbn [fst snd].
  rewrite !map_Fin by lra. apply Hfin.
Qed.

Lemma sample_brackets (f : benchmark) (width height : nat) (pixels : list (nat * nat)) :
  (forall p, p ∈ pixels -> exists r, pixel_value f width height (fst p) (snd p) = Fin r) ->
  pixels <> [] ->
  exists lo hi,
    foldl (fun acc p => sample f width height acc (fst p) (snd p))
          (Infinity, NegInfinity) pixels = (Fin lo, Fin hi) /\
    (exists p, p ∈ pixels /\ pixel_value f width height (fst p) (snd p) = Fin lo) /\
    (exists p, p ∈ pixels /\ pixel_value f width height (fst p) (snd p) = Fin hi) /\
    (forall p, p ∈ pixels ->
       exists r, pixel_value f width height (fst p) (snd p) = Fin r /\ (lo <= r <= hi)%R).
Proof.
  induction pixels as [|q pixels IH] using rev_ind; intros Hfin Hne; [congruence|].
  clear Hne. rewrite foldl_snoc.
  destruct (Hfin q) as [rq Hq]; [set_solver|].
  destruct (decide (pixels = [])) as [->|Hne].
  - cbn [foldl app]. unfold sample. rewrite Hq. cbn.
    exists rq, rq. split; [reflexivity|].
    split; [exists q; split; [set_solver|assumption]|].
    split; [exists q; split; [set_solver|assumption]|].
    intros p Hp. apply list_elem_of_singleton in Hp as ->.
    exists rq. split; [assumption|lra].
  - destruct IH as (lo & hi & -> & (plo & Hplo & Hlo) & (phi & Hphi & Hhi) & Hall).
    { intros p Hp. apply Hfin. set_solver. }
    { assumption. }
    assert (lo <= hi)%R as Hlohi.
    { destruct (Hall plo Hplo) as (r & Hr & ?). lra. }
    unfold sample. rewrite Hq. cbn [fst snd Number.lt Number.gt].
    destruct (bool_decide_reflect (rq < lo)%R) as [H1|H1];
      destruct (bool_decide_reflect (hi < rq)%R) as [H2|H2];
      eexists _, _; (split; [reflexivity|]);
      (split; [first [exists q; split; [set_solver|assumption]
                     |exists plo; split; [set_solver|assumption]]|]);
      (split; [first [exists q; split; [set_solver|assumption]
                     |exists phi; split; [set_solver|assumption]]|]);
      intros p [Hp|Hp%list_elem_of_singleton]%elem_of_app;
      try (destruct (Hall p Hp) as (r & Hr & ?); exists r; split; [assumption|lra]);
      subst p; exists rq; (split; [assumption|lra]).
Qed.

(** X9.  On a canvas that is not empty, for a function with finite values
    and bounds, the sampling loops of [drawBackground] end with the smallest
    and the largest value found on the pixels they visit, every fifth pixel
    of every fifth row: both are finite, both are the value of a visited
    pixel, and the value of every visited pixel lies between them. *)
Theorem sampling_finds_the_range_of_the_visited_pixels (f : benchmark) (width height : nat) :
  well_behaved f -> (0 < width)%nat -> (0 < height)%nat ->
  exists minVal maxVal : R,
    sample_range f width height = (Fin minVal, Fin maxVal) /\
    (exists px py, sampled width height px py /\
                   pixel_value f width height px py = Fin minVal) /\
    (exists px py, sampled width height px py /\
                   pixel_value f width height px py = Fin maxVal) /\
    (forall px py, sampled width height px py ->
       exists r, pixel_value f width height px py = Fin r /\ (minVal <= r <= maxVal)%R).
Proof.
  intros Hf Hw Hh. unfold sample_range. rewrite foldl_nested.
  set (pixels := _ ≫= _).
  assert (forall px py, (px, py) ∈ pixels <-> sampled width height px py) as Hpix.
  { intros px py. unfold pixels. rewrite elem_of_grid, !count_up_every_fifth.
    unfold sampled. tauto. }
  destruct (sample_brackets f width height pixels)
    as (lo & hi & -> & ([plx ply] & Hplo & Hlo) & ([phx phy] & Hphi & Hhi) & Hall).
  { intros p _. apply pixel_value_finite; assumption. }
  { assert ((0%nat, 0%nat) ∈ pixels) as H0.
    { apply Hpix. unfold sampled. repeat split; try assumption; reflexivity. }
    intros E. rewrite E in H0. inversion H0. }
  exists lo, hi. split; [reflexivity|].
  split; [exists plx, ply; split; [apply Hpix|]; assumption|].
  split; [exists phx, phy; split; [apply Hpix|]; assumption|].
  intros px py Hs. apply (Hall (px, py)), Hpix, Hs.
Qed.

Lemma sampling_finds_the_range_of_the_visited_pixels_example :
  exists minVal maxVal : R,
    sample_range sphere 600 600 = (Fin minVal, Fin maxVal) /\
    (exists px py, sampled 600 600 px py /\
                   pixel_value sphere 600 600 px py = Fin minVal) /\
    (exists px py, sampled 600 600 px py /\
                   pixel_value sphere 600 600 px py = Fin maxVal) /\
    (forall px py, sampled 600 600 px py ->
       exists r, pixel_value sphere 600 600 px py = Fin r /\ (minVal <= r <= maxVal)%R).
Proof.
  apply sampling_finds_the_range_of_the_visited_pixels; [|lia|lia].
  apply catalog_well_behaved. cbn. tauto.
Defined.

(** ** [drawBackground]: the image *)

Lemma draw_pixel_length f width height minVal maxVal d px py :
  length (draw_pixel f width height minVal maxVal d px py) = length d.
Proof.
  unfold draw_pixel. destruct (colour _ _ _) as [[r g] b]. cbn zeta.
  rewrite !length_insert. reflexivity.
Qed.

Lemma draw_pixel_lookup f width height minVal maxVal d px py j :
  draw_pixel f width height minVal maxVal d px py !! j
  = if decide (((py * width + px) * 4 <= j < (py * width + px) * 4 + 4)%nat
               /\ (j < length d)%nat)
    then stored (colour minVal maxVal (pixel_value f width height px py))
           !! (j - (py * width + px) * 4)%nat
    else d !! j.
Proof.
  unfold draw_pixel, stored. destruct (colour _ _ _) as [[r g] b]. cbn zeta.
  set (i := ((py * width + px) * 4)%nat).
  rewrite !list_lookup_insert, !length_insert.
  repeat destruct (decide _); try lia; try reflexivity.
  - replace (j - i)%nat with 3%nat by lia. reflexivity.
  - replace (j - i)%nat with 2%nat by lia. reflexivity.
  - replace (j - i)%nat with 1%nat by lia. reflexivity.
  - replace (j - i)%nat with 0%nat by lia. reflexivity.
Qed.

Lemma draw_row_length f width height minVal maxVal py n : forall d,
  length (foldl (fun d px => draw_pixel f width height minVal maxVal d px py) d (seq 0 n))
  = length d.
Proof.
  induction n as [|n IH]; intros d; [reflexivity|].
  rewrite seq_S, foldl_snoc, draw_pixel_length. apply IH.
Qed.

Lemma pixel_number (width px py r : nat) :
  (px < width)%nat -> (r < 4)%nat ->
  let j := ((py * width + px) * 4 + r)%nat in
  (j / 4 = py * width + px)%nat /\ (j mod 4 = r)%nat /\
  ((j / 4) mod width = px)%nat /\ ((j / 4) / width = py)%nat.
Proof.
  intros Hpx Hr j.
  assert (j / 4 = py * width + px)%nat as E.
  { symmetry. apply (Nat.div_unique j 4 _ r); [assumption|]. unfold j. lia. }
  rewrite E. repeat split.
  - symmetry. apply (Nat.mod_unique j 4 (py * width + px) r); [assumption|]. unfold j. lia.
  - symmetry. apply (Nat.mod_unique _ width py px); [assumption|]. lia.
  - symmetry. apply (Nat.div_unique _ width py px); [assumption|]. lia.
Qed.

Lemma draw_row_lookup f width height minVal maxVal py n : forall d j,
  (n <= width)%nat ->
  foldl (fun d px => draw_pixel f width height minVal maxVal d px py) d (seq 0 n) !! j
  = if decide ((py * width * 4 <= j < (py * width + n) * 4)%nat /\ (j < length d)%nat)
    then pixel_bytes f width height minVal maxVal (j / 4) !! (j mod 4)%nat
    else d !! j.
Proof.
  induction n as [|n IH]; intros d j Hn.
  - cbn [seq foldl]. rewrite decide_False by lia. reflexivity.
  - rewrite seq_S, foldl_snoc, draw_pixel_lookup, draw_row_length, IH by lia.
    cbn [Nat.add].
    destruct (decide (((py * width + n) * 4 <= j < (py * width + n) * 4 + 4)%nat
                      /\ (j < length d)%nat)) as [[Hj Hlen]|Hj].
    + rewrite decide_True by lia.
      destruct (pixel_number width n py (j - (py * width + n) * 4)) as (E1 & E2 & E3 & E4);
        [lia|lia|].
      replace ((py * width + n) * 4 + (j - (py * width + n) * 4))%nat with j in * by lia.
      unfold pixel_bytes. rewrite E2, E3, E4. reflexivity.
    + destruct (decide ((py * width * 4 <= j < (py * width + n) * 4)%nat
                        /\ (j < length d)%nat)) as [H|H].
      * rewrite decide_True by lia. reflexivity.
      * rewrite decide_False by lia. reflexivity.
Qed.

Lemma draw_rows_length f width height minVal maxVal n : forall d,
  length (foldl (fun d py =>
                   foldl (fun d px => draw_pixel f width height minVal maxVal d px py)
                         d (seq 0 width))
                d (seq 0 n))
  = length d.
Proof.
  induction n as [|n IH]; intros d; [reflexivity|].
  rewrite seq_S, foldl_snoc, draw_row_length. apply IH.
Qed.

Lemma draw_rows_lookup f width height minVal maxVal n : forall d j,
  foldl (fun d py =>
           foldl (fun d px => draw_pixel f width height minVal maxVal d px py)
                 d (seq 0 width))
        d (seq 0 n) !! j
  = if decide ((j < n * width * 4)%nat /\ (j < length d)%nat)
    then pixel_bytes f width height minVal maxVal (j / 4) !! (j mod 4)%nat
    else d !! j.
Proof.
  induction n as [|n IH]; intros d j.
  - cbn [seq foldl]. rewrite decide_False by lia. reflexivity.
  - rewrite seq_S, foldl_snoc, draw_row_lookup, draw_rows_length, IH by lia.
    cbn [Nat.add].
    destruct (decide ((n * width * 4 <= j < (n * width + width) * 4)%nat
                      /\ (j < length d)%nat)) as [H|H].
    + rewrite decide_True by lia. reflexivity.
    + destruct (decide ((j < n * width * 4)%nat /\ (j < length d)%nat)) as [H'|H'].
      * rewrite decide_True by lia. reflexivity.
      * rewrite decide_False by lia. reflexivity.
Qed.

(** X10.  The drawing loops of [drawBackground] fill the whole image: it has
    four bytes for each of the [width * height] pixels, and the bytes of the
    pixel [(px, py)], at index [(py * width + px) * 4], are the stored color
    of the function's value at that pixel, for the range that the sampling
    loops found; no pixel is overwritten by another. *)
Theorem every_pixel_is_stored_at_its_index (f : benchmark) (width height px py k : nat) :
  (px < width)%nat -> (py < height)%nat -> (k < 4)%nat ->
  length (data (drawBackground width height f)) = (width * height * 4)%nat /\
  data (drawBackground width height f) !! ((py * width + px) * 4 + k)%nat
  = stored (colour (fst (sample_range f width height)) (snd (sample_range f width height))
                   (pixel_value f width height px py)) !! k.
Proof.
  intros Hpx Hpy Hk. unfold drawBackground.
  destruct (sample_range f width height) as [minVal maxVal].
  destruct (globalMinMarker f) as [minX minY]. cbn [data fst snd].
  split.
  - rewrite draw_rows_length, length_replicate. reflexivity.
  - rewrite draw_rows_lookup, length_replicate.
    destruct (pixel_number width px py k Hpx Hk) as (E1 & E2 & E3 & E4).
    rewrite decide_True by nia.
    unfold pixel_bytes. rewrite E2, E3, E4. reflexivity.
Qed.

Lemma every_pixel_is_stored_at_its_index_example :
  length (data (drawBackground 3 2 sphere)) = (3 * 2 * 4)%nat /\
  data (drawBackground 3 2 sphere) !! ((1 * 3 + 2) * 4 + 3)%nat
  = stored (colour (fst (sample_range sphere 3 2)) (snd (sample_range sphere 3 2))
                   (pixel_value sphere 3 2 2 1)) !! 3%nat.
Proof. apply every_pixel_is_stored_at_its_index; lia. Defined.

(* ===================================================================== *)
(** * Part IV: more about the optimizers                                  *)
(* ===================================================================== *)

(** ** When [PSO.step] throws *)

Lemma PSO_step_without_best (this : PSO.t) (g : globals) :
  PSO.particles this <> [] -> bestGlobalPosition g = None ->
  PSO.step this g = Thrown TypeError.
Proof.
  intros Hne Eg. destruct (PSO.particles this) as [|p ps] eqn:Eps; [congruence|].
  unfold PSO.step. rewrite Eps. cbn [forEach].
  unfold bind, PSO.move, Math_random, gets. cbn. rewrite Eg. reflexivity.
Qed.

Lemma PSO_step_of_no_particle (this : PSO.t) (g : globals) :
  PSO.particles this = [] ->
  PSO.step this g = Returned (PSO.set_particles [] this, g).
Proof.
  intros Eps. unfold PSO.step. rewrite Eps. cbn [forEach]. unfold bind at 1. cbn [ret].
  rewrite PSO_evaluate_eq. reflexivity.
Qed.

(** X11.  [PSO.step()] throws a [TypeError] exactly when the swarm has a
    particle and the global best position is still [null] (it reads
    [bestGlobalPosition[0]]); in every other state it returns. *)
Theorem PSO_step_throws_exactly_without_a_global_best (this : PSO.t) (g : globals) :
  (PSO.step this g = Thrown TypeError
   <-> PSO.particles this <> [] /\ bestGlobalPosition g = None) /\
  ((exists this' g', PSO.step this g = Returned (this', g'))
   <-> PSO.particles this = [] \/ bestGlobalPosition g <> None).
Proof.
  destruct (bestGlobalPosition g) as [[gx gy]|] eqn:Eg.
  - pose proof (PSO_step_eq this g gx gy Eg) as E. cbv zeta in E. rewrite E.
    split; split.
    + discriminate.
    + intros [_ [=]].
    + intros _. right. discriminate.
    + intros _. eauto.
  - destruct (PSO.particles this) as [|p ps] eqn:Eps.
    + rewrite (PSO_step_of_no_particle this g Eps).
      split; split.
      * discriminate.
      * intros [H _]. congruence.
      * intros _. left. reflexivity.
      * intros _. eauto.
    + rewrite (PSO_step_without_best this g) by (rewrite ?Eps; congruence).
      split; split.
      * intros _. split; [discriminate | reflexivity].
      * reflexivity.
      * intros (this' & g' & [=]).
      * intros [[=]|H]; congruence.
Qed.

(** ** The personal best of a particle *)

(** X12.  Over one [PSO.step()], the personal best of a particle changes
    exactly when its new fitness is strictly below its personal best so far:
    it then becomes the new fitness at the new position; otherwise fitness
    and position of the personal best stay as they were.  The new fitness is
    the value of the current function at the new position. *)
Theorem personal_best_changes_only_for_the_better
    (this this' : PSO.t) (g g' : globals) (i : nat) (p p' : Particle.t) :
  PSO.step this g = Returned (this', g') ->
  PSO.particles this !! i = Some p -> PSO.particles this' !! i = Some p' ->
  Particle.fitness p'
  = Benchmark.func (currentFunction g) (Particle.x p') (Particle.y p') /\
  (((Particle.fitness p' <? Particle.pbestFit p) = true /\
    Particle.pbestFit p' = Particle.fitness p' /\
    Particle.pbestX p' = Particle.x p' /\ Particle.pbestY p' = Particle.y p')
   \/
   ((Particle.fitness p' <? Particle.pbestFit p) = false /\
    Particle.pbestFit p' = Particle.pbestFit p /\
    Particle.pbestX p' = Particle.pbestX p /\ Particle.pbestY p' = Particle.pbestY p)).
Proof.
  intros Hstep Hp Hp'.
  destruct (bestGlobalPosition g) as [[gx gy]|] eqn:Eg.
  - pose proof (PSO_step_eq this g gx gy Eg) as E. cbv zeta in E.
    rewrite E in Hstep. injection Hstep as <- _.
    cbn [PSO.particles PSO.set_particles] in Hp'.
    rewrite list_lookup_fmap, (moved_all_lookup _ _ _ _ _ _ _ _ Hp) in Hp'.
    cbn in Hp'. injection Hp' as <-.
    set (q := moved _ _ _ _ _ p).
    assert (Particle.pbestFit q = Particle.pbestFit p /\
            Particle.pbestX q = Particle.pbestX p /\
            Particle.pbestY q = Particle.pbestY p) as (E1 & E2 & E3) by (repeat split).
    rewrite <- E1, <- E2, <- E3. clearbody q. unfold scored_particle.
    destruct (_ <? _) eqn:Elt; cbn [Particle.x Particle.y Particle.fitness
      Particle.pbestFit Particle.pbestX Particle.pbestY]; (split; [reflexivity|]).
    + left. auto.
    + right. auto.
  - rewrite (PSO_step_without_best this g) in Hstep; [discriminate| |exact Eg].
    intros E. rewrite E in Hp. discriminate.
Qed.

Lemma personal_best_changes_only_for_the_better_example :
  exists p' : Particle.t,
    let p := Particle.mk (Fin 1) (Fin 1) (Fin 0) (Fin 0) (Fin 1) (Fin 1) (Fin 2) (Fin 2) in
    Particle.fitness p'
    = Benchmark.func (currentFunction example_best) (Particle.x p') (Particle.y p') /\
    (((Particle.fitness p' <? Particle.pbestFit p) = true /\
      Particle.pbestFit p' = Particle.fitness p' /\
      Particle.pbestX p' = Particle.x p' /\ Particle.pbestY p' = Particle.y p')
     \/
     ((Particle.fitness p' <? Particle.pbestFit p) = false /\
      Particle.pbestFit p' = Particle.pbestFit p /\
      Particle.pbestX p' = Particle.pbestX p /\ Particle.pbestY p' = Particle.pbestY p)).
Proof.
  pose proof (PSO_step_eq example_swarm example_best (Fin 1) (Fin 1) eq_refl) as E.
  cbv zeta in E. eexists. cbv zeta.
  eapply (personal_best_changes_only_for_the_better _ _ _ _ 0%nat _ _ E); reflexivity.
Defined.

(** ** The run-global best and the members *)

Lemma lt_irrefl a : (a <? a) = false.
Proof. destruct a; cbn; try reflexivity. apply bool_decide_eq_false. lra. Qed.

Lemma not_fitter_mono fit b b' :
  (fit <? b) = false -> not_above b' b -> (fit <? b') = false.
Proof.
  intros Hfit [->|Hlt]; [exact Hfit|].
  destruct (fit <? b') eqn:E; [|reflexivity].
  rewrite (lt_trans _ _ _ E Hlt) in Hfit. discriminate.
Qed.

Section NoteBest.
Context {T : Type} (fit px py : T -> number).

Local Abbreviation note := (fun g t => note_best (fit t) (px t) (py t) g).

Lemma foldl_note_best_frame l : forall g,
  currentFunction (foldl note g l) = currentFunction g /\
  improves g (foldl note g l).
Proof.
  induction l as [|a l IH]; intros g; cbn [foldl].
  - split; [reflexivity | apply improves_refl].
  - destruct (IH (note_best (fit a) (px a) (py a) g)) as [-> H]. split.
    + apply note_best_same_setting.
    + eapply improves_trans; [apply note_best_improves | exact H].
Qed.

Lemma foldl_note_best_lower l : forall g,
  Forall (fun t => (fit t <? bestGlobalFitness (foldl note g l)) = false) l.
Proof.
  induction l as [|a l IH]; intros g; cbn [foldl]; constructor; [|apply IH].
  eapply not_fitter_mono; [|apply foldl_note_best_frame].
  unfold note_best. destruct (fit a <? bestGlobalFitness g) eqn:E; [|exact E].
  apply lt_irrefl.
Qed.

Lemma foldl_note_best_consistent l : forall g,
  Forall (fun t => fit t = Benchmark.func (currentFunction g) (px t) (py t)) l ->
  consistent_best g -> consistent_best (foldl note g l).
Proof.
  induction l as [|a l IH]; intros g Hl Hg; cbn [foldl]; [exact Hg|].
  apply Forall_cons in Hl as [Ha Hl]. apply IH.
  - eapply Forall_impl; [exact Hl|]. cbn beta. intros t ->.
    f_equal. symmetry. apply note_best_same_setting.
  - unfold note_best. destruct (fit a <? bestGlobalFitness g); [|exact Hg].
    unfold consistent_best. cbn. exact Ha.
Qed.

(** The best after the fold is the best before it or the fitness of one of
    the members. *)
Lemma foldl_note_best_source l : forall g,
  bestGlobalFitness (foldl note g l) = bestGlobalFitness g \/
  exists t, t ∈ l /\ bestGlobalFitness (foldl note g l) = fit t.
Proof.
  induction l as [|a l IH]; intros g; cbn [foldl]; [left; reflexivity|].
  destruct (IH (note_best (fit a) (px a) (py a) g)) as [->|(t & Ht & ->)].
  - unfold note_best. destruct (fit a <? bestGlobalFitness g); [|left; reflexivity].
    right. exists a. split; [left | reflexivity].
  - right. exists t. split; [right; exact Ht | reflexivity].
Qed.

End NoteBest.

Lemma perform_ends_with_evaluate c a g a' g' :
  perform c a g = Returned (a', g') ->
  exists g1,
    currentFunction g1 = currentFunction g /\
    (consistent_best g -> consistent_best g1) /\
    match a' with
    | AlgGA this' =>
        exists pop,
          GA.population this' ≡ₚ map (scored (currentFunction g1)) pop /\
          g' = foldl note_member g1 (map (scored (currentFunction g1)) pop)
    | AlgPSO this' =>
        exists ps,
          PSO.particles this' = map (scored_particle (currentFunction g1)) ps /\
          g' = foldl note_particle g1 (map (scored_particle (currentFunction g1)) ps)
    end.
Proof.
  assert (forall g1, rng_only g g1 ->
            currentFunction g1 = currentFunction g /\
            (consistent_best g -> consistent_best g1)) as Hrng.
  { intros g1 (Hfit & Hpos & Hf & _). split; [exact Hf|].
    unfold consistent_best. rewrite Hfit, Hpos, Hf. auto. }
  destruct c, a as [this|this]; cbn [perform algorithm_step]; unfold bind.
  - rewrite GA_evaluate_eq. intros [= <- <-]. exists g.
    split; [reflexivity|]. split; [auto|].
    eexists. split; [apply Array_sort_perm | reflexivity].
  - rewrite PSO_evaluate_eq. intros [= <- <-]. exists g.
    split; [reflexivity|]. split; [auto|]. eexists. split; reflexivity.
  - unfold GA.step, bind.
    destruct (GA.breed _ _ _ g) as [[newPop g1]|] eqn:E; [|discriminate].
    rewrite GA_evaluate_eq. intros [= <- <-]. exists g1.
    destruct (Hrng g1 (rng_only_breed _ _ _ _ _ _ E)) as [Hf Hc].
    split; [exact Hf|]. split; [exact Hc|].
    eexists. split; [apply Array_sort_perm | reflexivity].
  - unfold PSO.step, bind.
    destruct (forEach _ _ g) as [[ps g1]|] eqn:E; [|discriminate].
    rewrite PSO_evaluate_eq. intros [= <- <-]. exists g1.
    assert (rng_only g g1) as H.
    { eapply (preserves_forEach rng_only);
        [apply rng_only_refl | apply rng_only_trans | apply rng_only_PSO_move | exact E]. }
    destruct (Hrng g1 H) as [Hf Hc].
    split; [exact Hf|]. split; [exact Hc|]. eexists. split; reflexivity.
Qed.

(** X13.  After [evaluate()] or [step()] returns, no member of the optimizer
    is fitter than the recorded global best: for every member,
    [fitness < bestGlobalFitness] is false. *)
Theorem no_member_is_fitter_than_the_global_best
    (c : call) (a a' : algorithm) (g g' : globals) :
  perform c a g = Returned (a', g') ->
  Forall (fun v => (v <? bestGlobalFitness g') = false) (algorithm_fitnesses a').
Proof.
  intros (g1 & _ & _ & H)%perform_ends_with_evaluate.
  destruct a' as [this'|this']; cbn [algorithm_fitnesses].
  - destruct H as (pop & Hperm & ->). apply Forall_map. rewrite Hperm.
    apply (foldl_note_best_lower Individual.fitness Individual.x Individual.y).
  - destruct H as (ps & -> & ->). apply Forall_map.
    apply (foldl_note_best_lower Particle.fitness Particle.x Particle.y).
Qed.

Lemma no_member_is_fitter_than_the_global_best_example :
  Forall (fun v => (v <? bestGlobalFitness
                           (foldl note_particle example_best
                              (map (scored_particle sphere) (PSO.particles example_swarm))))
                   = false)
         (algorithm_fitnesses
            (AlgPSO (PSO.set_particles
                       (map (scored_particle sphere) (PSO.particles example_swarm))
                       example_swarm))).
Proof.
  apply (no_member_is_fitter_than_the_global_best CallEvaluate (AlgPSO example_swarm)
           _ example_best).
  cbn [perform]. unfold bind. rewrite PSO_evaluate_eq. reflexivity.
Defined.

(** X14.  Along any sequence of [evaluate()] and [step()] calls on an
    optimizer the record of the global best stays consistent: if the best
    fitness was the value of the current function at the best position (or
    [Infinity] with no position, as after a reset), it still is afterwards;
    the calls never change the current function. *)
Theorem the_global_best_is_the_value_at_its_position
    (cs : list call) (a a' : algorithm) (g g' : globals) :
  consistent_best g -> perform_all cs a g = Returned (a', g') ->
  consistent_best g' /\ currentFunction g' = currentFunction g.
Proof.
  revert a g. induction cs as [|c cs IH]; intros a g Hg; cbn [perform_all].
  - intros [= <- <-]. auto.
  - unfold bind. destruct (perform c a g) as [[a1 g1]|] eqn:E; [|discriminate].
    intros Hrest.
    destruct (perform_ends_with_evaluate _ _ _ _ _ E) as (g0 & Hf0 & Hc0 & H).
    assert (consistent_best g1 /\ currentFunction g1 = currentFunction g) as [Hc1 Hf1].
    { destruct a1 as [this1|this1].
      - destruct H as (pop & _ & ->). split.
        + apply (foldl_note_best_consistent Individual.fitness Individual.x Individual.y);
            [|auto]. apply Forall_map, Forall_forall. intros i _. reflexivity.
        + rewrite <- Hf0.
          apply (foldl_note_best_frame Individual.fitness Individual.x Individual.y).
      - destruct H as (ps & _ & ->). split.
        + apply (foldl_note_best_consistent Particle.fitness Particle.x Particle.y);
            [|auto]. apply Forall_map, Forall_forall. intros p _.
          unfold scored_particle. destruct (_ <? _); reflexivity.
        + rewrite <- Hf0.
          apply (foldl_note_best_frame Particle.fitness Particle.x Particle.y). }
    destruct (IH a1 g1 Hc1 Hrest) as [Hc' Hf']. split; [exact Hc' | congruence].
Qed.

Lemma the_global_best_is_the_value_at_its_position_example :
  consistent_best
    (foldl note_particle zero_globals
       (map (scored_particle sphere) (PSO.particles example_swarm))) /\
  currentFunction
    (foldl note_particle zero_globals
       (map (scored_particle sphere) (PSO.particles example_swarm)))
  = currentFunction zero_globals.
Proof.
  apply (the_global_best_is_the_value_at_its_position [CallEvaluate]
           (AlgPSO example_swarm)
           (AlgPSO (PSO.set_particles
                      (map (scored_particle sphere) (PSO.particles example_swarm))
                      example_swarm))
           zero_globals).
  - reflexivity.
  - cbn [perform_all perform]. unfold bind. rewrite PSO_evaluate_eq. reflexivity.
Defined.

(** ** Tournament selection *)

Lemma lt_asym a b : (a <? b) = true -> (b <? a) = false.
Proof.
  intros H. destruct (b <? a) eqn:E; [|reflexivity].
  pose proof (lt_trans _ _ _ H E) as H'. rewrite lt_irrefl in H'. discriminate.
Qed.

Lemma drawn_advance this g j : drawn this (advance_rng g) j = drawn this g (S j).
Proof.
  unfold drawn. cbn [advance_rng random_state draws cursor].
  replace (S (cursor (random_state g)) + j)%nat
    with (cursor (random_state g) + S j)%nat by lia.
  reflexivity.
Qed.

Lemma tournament_round_eq this best g c :
  drawn this g 0 = Some c ->
  GA.tournament_round this best g
  = Returned (Some (match best with
                    | None => c
                    | Some b => if Individual.fitness c <? Individual.fitness b then c else b
                    end),
              advance_rng g).
Proof.
  unfold drawn. rewrite Nat.add_0_r. intros H.
  unfold GA.tournament_round, bind, Math_random. rewrite H.
  destruct best as [b|]; [|reflexivity].
  destruct (_ <? _); reflexivity.
Qed.

(** X15.  [tournamentSelect()] on a population of [popSize >= 1] members,
    with [Math.random()] in [0,1): it consumes exactly three random numbers,
    each picks a member, and the result is one of the three picked members
    such that none of the three is strictly fitter. *)
Theorem tournament_returns_the_fittest_of_three_draws (this : GA.t) (g : globals) :
  (1 <= GA.popSize this)%Z ->
  length (GA.population this) = Z.to_nat (GA.popSize this) ->
  fair g ->
  exists c0 c1 c2 w,
    drawn this g 0 = Some c0 /\ drawn this g 1 = Some c1 /\ drawn this g 2 = Some c2 /\
    GA.tournamentSelect this g = Returned (Some w, advance_by 3 g) /\
    (w = c0 \/ w = c1 \/ w = c2) /\
    Forall (fun c => (Individual.fitness c <? Individual.fitness w) = false) [c0; c1; c2].
Proof.
  intros Hn Hlen Hfair.
  assert (forall j, exists c, drawn this g j = Some c) as Hdrawn.
  { intros j. destruct (random_index _ (GA.popSize this) (GA.population this)
                          (Hfair (cursor (random_state g) + j)%nat) Hn Hlen)
      as (c & Hc & _).
    exists c. exact Hc. }
  destruct (Hdrawn 0%nat) as [c0 H0], (Hdrawn 1%nat) as [c1 H1], (Hdrawn 2%nat) as [c2 H2].
  set (b1 := if Individual.fitness c1 <? Individual.fitness c0 then c1 else c0).
  set (w := if Individual.fitness c2 <? Individual.fitness b1 then c2 else b1).
  exists c0, c1, c2, w. repeat (split; [assumption|]).
  split.
  { unfold GA.tournamentSelect, bind.
    rewrite (tournament_round_eq this None g c0 H0).
    rewrite (tournament_round_eq this (Some c0) (advance_rng g) c1)
      by (rewrite drawn_advance; exact H1).
    rewrite (tournament_round_eq this _ (advance_rng (advance_rng g)) c2)
      by (rewrite !drawn_advance; exact H2).
    reflexivity. }
  subst w b1.
  destruct (Individual.fitness c1 <? Individual.fitness c0) eqn:E10;
    [destruct (Individual.fitness c2 <? Individual.fitness c1) eqn:E2
    |destruct (Individual.fitness c2 <? Individual.fitness c0) eqn:E2].
  - split; [auto|]. repeat constructor.
    + apply lt_asym. eapply lt_trans; eassumption.
    + apply lt_asym, E2.
    + apply lt_irrefl.
  - split; [auto|]. repeat constructor.
    + apply lt_asym, E10.
    + apply lt_irrefl.
    + exact E2.
  - split; [auto|]. repeat constructor.
    + apply lt_asym, E2.
    + destruct (Individual.fitness c1 <? Individual.fitness c2) eqn:E12; [|reflexivity].
      rewrite (lt_trans _ _ _ E12 E2) in E10. discriminate.
    + apply lt_irrefl.
  - split; [auto|]. repeat constructor.
    + apply lt_irrefl.
    + exact E10.
    + exact E2.
Qed.

Lemma tournament_returns_the_fittest_of_three_draws_example :
  exists c0 c1 c2 w,
    drawn example_GA zero_globals 0 = Some c0 /\
    drawn example_GA zero_globals 1 = Some c1 /\
    drawn example_GA zero_globals 2 = Some c2 /\
    GA.tournamentSelect example_GA zero_globals = Returned (Some w, advance_by 3 zero_globals) /\
    (w = c0 \/ w = c1 \/ w = c2) /\
    Forall (fun c => (Individual.fitness c <? Individual.fitness w) = false) [c0; c1; c2].
Proof.
  apply tournament_returns_the_fittest_of_three_draws.
  - cbn. lia.
  - reflexivity.
  - apply fair_zero_globals.
Defined.

(** ** The optimizers return for every configuration *)

Lemma GA_evaluate_returns (f : benchmark) (rnd : nat -> R) (this : GA.t) :
  invariantly (setting f rnd) (GA.evaluate this)
    (fun this' => same_parameters this this' /\
                  GA.population this' ≡ₚ map (scored f) (GA.population this)).
Proof.
  intros g [Hf Hr]. unfold wp. rewrite GA_evaluate_eq, Hf.
  destruct (foldl_note_member_setting (map (scored f) (GA.population this)) g)
    as ([Hf' Hd'] & _ & _).
  split; [split; congruence|]. split; [repeat split | apply Array_sort_perm].
Qed.

Section EveryConfiguration.
Context (f : benchmark) (rnd : nat -> R).
Context (rnd_range : forall n, (0 <= rnd n < 1)%R).

Local Abbreviation Inv := (setting f rnd).

Lemma gaussianRandom_returns mean stdev :
  invariantly Inv (gaussianRandom mean stdev) (fun _ => True).
Proof using rnd_range.
  unfold gaussianRandom.
  eapply invariantly_bind; [apply Math_random_range, rnd_range|]. intros r _.
  eapply invariantly_bind; [apply Math_random_range, rnd_range|]. intros v _.
  apply invariantly_ret. exact I.
Qed.

Lemma mutate_returns this ind :
  invariantly Inv (GA.mutate this ind) (fun _ => True).
Proof using rnd_range.
  unfold GA.mutate.
  eapply invariantly_bind; [apply Math_random_range, rnd_range|]. intros r _.
  eapply (invariantly_bind _ _ (fun _ => True)).
  { destruct (r <? GA.mutationRate this); [|apply invariantly_ret; exact I].
    eapply invariantly_bind; [apply gaussianRandom_returns|]. intros d _.
    apply invariantly_ret. exact I. }
  intros ind' _.
  eapply invariantly_bind; [apply Math_random_range, rnd_range|]. intros r' _.
  destruct (r' <? GA.mutationRate this); [|apply invariantly_ret; exact I].
  eapply invariantly_bind; [apply gaussianRandom_returns|]. intros d _.
  apply invariantly_ret. exact I.
Qed.

Section Populated.
Context (this : GA.t).
Context (this_size : (1 <= GA.popSize this)%Z).
Context (this_length : length (GA.population this) = Z.to_nat (GA.popSize this)).

Lemma offspring_returns :
  invariantly Inv (GA.offspring this) (fun _ => True).
Proof using rnd_range this_size this_length.
  unfold GA.offspring.
  eapply invariantly_bind;
    [apply (tournamentSelect_member f rnd rnd_range this this_size this_length)|].
  intros p1 (i1 & -> & _).
  eapply invariantly_bind;
    [apply (tournamentSelect_member f rnd rnd_range this this_size this_length)|].
  intros p2 (i2 & -> & _).
  eapply invariantly_bind; [apply Math_random_range, rnd_range|]. intros r _.
  eapply (invariantly_bind _ _ (fun _ => True)).
  { destruct (r <? GA.crossoverRate this); [|apply invariantly_ret; exact I].
    eapply invariantly_bind; [apply Math_random_range, rnd_range|]. intros alpha _.
    cbn [GA.blend]. apply invariantly_ret. exact I. }
  intros cs _.
  eapply invariantly_bind; [apply mutate_returns|]. intros c1 _.
  eapply invariantly_bind; [apply mutate_returns|]. intros c2 _.
  apply invariantly_ret. exact I.
Qed.

Lemma breed_returns fuel : forall newPop,
  (Z.to_nat (GA.popSize this) - length newPop <= fuel)%nat ->
  invariantly Inv (GA.breed fuel this newPop)
    (fun pop => length pop = Nat.max (length newPop) (Z.to_nat (GA.popSize this))).
Proof using rnd_range this_size this_length.
  induction fuel as [|fuel IH]; intros newPop Hfuel; cbn [GA.breed].
  - destruct (decide (Z.of_nat (length newPop) < GA.popSize this)%Z) as [Hlt|Hge]; [lia|].
    apply invariantly_ret. lia.
  - destruct (decide (Z.of_nat (length newPop) < GA.popSize this)%Z) as [Hlt|Hge].
    + eapply invariantly_bind; [apply offspring_returns|]. intros cs _.
      eapply invariantly_conseq.
      * apply IH. destruct (decide _); rewrite ?length_app; cbn; lia.
      * cbn beta. intros pop ->.
        destruct (decide _); rewrite ?length_app in *; cbn in *; lia.
    + apply invariantly_ret. lia.
Qed.

Lemma GA_step_returns :
  invariantly Inv (GA.step this)
    (fun this' => same_parameters this this' /\
                  length (GA.population this') = Z.to_nat (GA.popSize this)).
Proof using rnd_range this_size this_length.
  unfold GA.step.
  set (newPop := if GA.elitism this then _ else _).
  assert (length newPop <= 1)%nat as Hnew.
  { subst newPop. destruct (GA.elitism this); cbn; lia. }
  eapply invariantly_bind; [apply (breed_returns _ newPop); lia|].
  intros pop Hpop.
  eapply invariantly_conseq; [apply GA_evaluate_returns|].
  cbn beta. intros this' [Hpar Hperm]. split.
  - destruct Hpar as (? & ? & ? & ? & ? & ?). repeat split; assumption.
  - rewrite Hperm, length_map. cbn [GA.population GA.set_population].
    cbn beta in Hpop. lia.
Qed.

End Populated.

Lemma random_returns lo hi : invariantly Inv (random lo hi) (fun _ => True).
Proof using rnd_range.
  unfold random.
  eapply invariantly_bind; [apply Math_random_range, rnd_range|]. intros r _.
  apply invariantly_ret. exact I.
Qed.

Lemma GA_initialize_length n b :
  invariantly Inv (GA.initialize n b) (fun pop => length pop = n).
Proof using rnd_range.
  induction n as [|n IH]; cbn [GA.initialize].
  - apply invariantly_ret. reflexivity.
  - eapply invariantly_bind; [apply random_returns|]. intros x _.
    eapply invariantly_bind; [apply random_returns|]. intros y _.
    eapply invariantly_bind; [apply IH|]. intros rest Hrest.
    apply invariantly_ret. cbn. congruence.
Qed.

Lemma GA_new_returns (n : Z) mr cr el :
  invariantly Inv (GA.new n mr cr el)
    (fun this => GA.popSize this = n /\ GA.elitism this = el /\
                 GA.mutationRate this = mr /\ GA.crossoverRate this = cr /\
                 length (GA.population this) = Z.to_nat n).
Proof using rnd_range.
  unfold GA.new.
  eapply hoare_bind with (Q' := fun fn g => Inv g).
  { intros g Hg. apply wp_gets. exact Hg. }
  intros fn.
  eapply hoare_conseq with (P' := Inv);
    [|auto|intros a g H; exact H].
  eapply invariantly_bind; [apply GA_initialize_length|]. intros pop Hlen.
  eapply invariantly_conseq; [apply GA_evaluate_returns|].
  cbn beta. intros this [(Hp & Hm & Hc & He & _) Hperm].
  cbn in Hp, Hm, Hc, He. rewrite Hperm, length_map. cbn. auto.
Qed.

End EveryConfiguration.

Lemma GA_step_of_no_size this g :
  (GA.popSize this <= 0)%Z ->
  let newPop :=
    if GA.elitism this then [Individual.spread (GA.population this !! 0%nat)] else [] in
  GA.step this g
  = Returned (GA.set_population
                (Array_sort GA.by_fitness (map (scored (currentFunction g)) newPop)) this,
              foldl note_member g (map (scored (currentFunction g)) newPop)).
Proof.
  intros Hn newPop. unfold GA.step, bind. fold newPop.
  assert (GA.breed (Z.to_nat (GA.popSize this)) this newPop g = Returned (newPop, g)) as ->.
  { destruct (Z.to_nat (GA.popSize this)); cbn [GA.breed];
      rewrite decide_False by lia; reflexivity. }
  rewrite GA_evaluate_eq. reflexivity.
Qed.

Lemma GA_step_built this g :
  fair g -> GA_built this ->
  exists this' g',
    GA.step this g = Returned (this', g') /\ GA_built this' /\
    same_parameters this this' /\
    length (GA.population this')
    = (if decide (1 <= GA.popSize this)%Z then Z.to_nat (GA.popSize this)
       else if GA.elitism this then 1 else 0)%nat /\
    setting (currentFunction g) (draws (random_state g)) g'.
Proof.
  intros Hfair Hbuilt.
  destruct (decide (1 <= GA.popSize this)%Z) as [Hn|Hn].
  - destruct Hbuilt as [H|Hlen]; [lia|].
    destruct (invariantly_returns _ _ _ g
                (GA_step_returns (currentFunction g) (draws (random_state g)) Hfair
                   this Hn Hlen))
      as (this' & g' & E & Hg' & Hpar & Hlen'); [split; reflexivity|].
    exists this', g'. split; [exact E|].
    destruct Hpar as (Hp & ? & ? & ? & ? & ?).
    split; [right; rewrite <- Hp; exact Hlen'|]. split; [repeat split; assumption|].
    split; [exact Hlen' | exact Hg'].
  - pose proof (GA_step_of_no_size this g ltac:(lia)) as E. cbv zeta in E.
    eexists _, _. split; [exact E|].
    split; [left; cbn; lia|]. split; [repeat split|]. split.
    + cbn [GA.population GA.set_population]. rewrite Array_sort_length, length_map.
      destruct (GA.elitism this); reflexivity.
    + destruct (foldl_note_member_setting
                  (map (scored (currentFunction g))
                     (if GA.elitism this
                      then [Individual.spread (GA.population this !! 0%nat)] else []))
                  g) as ([Hf Hd] & _ & _).
      split; assumption.
Qed.

Lemma GA_steps_built k : forall this g,
  fair g -> GA_built this ->
  exists this' g',
    GA_steps k this g = Returned (this', g') /\ GA_built this' /\
    same_parameters this this' /\
    length (GA.population this')
    = (if (k =? 0)%nat then length (GA.population this)
       else if decide (1 <= GA.popSize this)%Z then Z.to_nat (GA.popSize this)
       else if GA.elitism this then 1 else 0)%nat.
Proof.
  induction k as [|k IH]; intros this g Hfair Hbuilt; cbn [GA_steps].
  - exists this, g. split; [reflexivity|]. split; [exact Hbuilt|].
    split; [repeat split | reflexivity].
  - destruct (GA_step_built this g Hfair Hbuilt)
      as (this1 & g1 & E1 & Hb1 & Hpar1 & Hlen1 & [_ Hd1]).
    assert (fair g1) as Hfair1 by (intros n; rewrite Hd1; apply Hfair).
    destruct (IH this1 g1 Hfair1 Hb1) as (this' & g' & E' & Hb' & Hpar' & Hlen').
    exists this', g'. unfold bind. rewrite E1. split; [exact E'|]. split; [exact Hb'|].
    destruct Hpar1 as (Hp1 & ? & ? & He1 & ? & ?), Hpar' as (? & ? & ? & ? & ? & ?).
    split; [repeat split; congruence|].
    rewrite Hlen'. cbn [Nat.eqb]. destruct k; cbn [Nat.eqb].
    + exact Hlen1.
    + rewrite <- Hp1, <- He1. reflexivity.
Qed.

(** X16.  A GA returns from its constructor and from every [step()] for
    every configuration: any integer [popSize], any numbers as rates ([NaN]
    included), any benchmark function, as long as [Math.random()] stays in
    [0,1).  The population has [popSize] members when [popSize >= 1];
    otherwise it is empty, except that with elitism it holds one member
    (the copy of the missing [population[0]]) from the first step on. *)
Theorem GA_runs_for_every_configuration
    (popSize : Z) (mutationRate crossoverRate : number) (elitism : bool)
    (k : nat) (g : globals) :
  fair g ->
  exists this g',
    GA_run popSize mutationRate crossoverRate elitism k g = Returned (this, g') /\
    length (GA.population this)
    = (if decide (1 <= popSize)%Z then Z.to_nat popSize
       else if elitism && negb (k =? 0)%nat then 1 else 0)%nat.
Proof.
  intros Hfair.
  destruct (invariantly_returns _ _ _ g
              (GA_new_returns (currentFunction g) (draws (random_state g)) Hfair
                 popSize mutationRate crossoverRate elitism))
    as (this0 & g0 & E0 & [_ Hd0] & Hp0 & He0 & _ & _ & Hlen0); [split; reflexivity|].
  assert (fair g0) as Hfair0 by (intros n; rewrite Hd0; apply Hfair).
  destruct (GA_steps_built k this0 g0 Hfair0) as (this & g' & E & _ & _ & Hlen).
  { right. rewrite Hp0. exact Hlen0. }
  exists this, g'. unfold GA_run, bind. rewrite E0. split; [exact E|].
  rewrite Hlen, Hlen0, Hp0, He0.
  destruct (k =? 0)%nat, (decide (1 <= popSize)%Z), elitism; cbn; lia.
Qed.

Lemma GA_runs_for_every_configuration_example :
  exists this g',
    GA_run 0 NaN NaN true 2 zero_globals = Returned (this, g') /\
    length (GA.population this)
    = (if decide (1 <= 0)%Z then Z.to_nat 0
       else if true && negb (2 =? 0)%nat then 1 else 0)%nat.
Proof. apply GA_runs_for_every_configuration, fair_zero_globals. Defined.

Lemma foldl_note_particle_position l : forall g,
  bestGlobalPosition g <> None -> bestGlobalPosition (foldl note_particle g l) <> None.
Proof.
  induction l as [|p l IH]; intros g Hg; cbn [foldl]; [exact Hg|].
  apply IH. unfold note_particle, note_best. destruct (_ <? _); [discriminate | exact Hg].
Qed.

Lemma PSO_step_launched this g :
  PSO_launched this g ->
  exists this' g',
    PSO.step this g = Returned (this', g') /\ PSO_launched this' g' /\
    length (PSO.particles this') = length (PSO.particles this) /\
    setting (currentFunction g) (draws (random_state g)) g'.
Proof.
  intros Hl. destruct (PSO.particles this) as [|p0 ps0] eqn:Eps.
  - rewrite (PSO_step_of_no_particle this g Eps). eexists _, _.
    split; [reflexivity|]. split; [intros H; cbn in H; congruence|].
    split; [reflexivity|]. split; reflexivity.
  - destruct (bestGlobalPosition g) as [[gx gy]|] eqn:Eg;
      [|exfalso; apply Hl; [rewrite Eps; discriminate | exact Eg]].
    pose proof (PSO_step_eq this g gx gy Eg) as E. cbv zeta in E. rewrite Eps in E.
    eexists _, _. split; [exact E|].
    destruct (advance_by_spec (2 * length (p0 :: ps0)) g) as (_ & Hpos & Hf & Hd & _).
    match goal with
    | |- context [foldl note_particle ?g1 ?l] =>
        destruct (foldl_note_particle_setting l g1) as ([Hf' Hd'] & _ & _);
        pose proof (foldl_note_particle_position l g1) as Hpos'
    end.
    split; [intros _; apply Hpos'; rewrite Hpos, Eg; discriminate|].
    split; [cbn [PSO.particles PSO.set_particles]; by rewrite length_map, moved_all_length|].
    split; congruence.
Qed.

Lemma PSO_steps_launched k : forall this g,
  PSO_launched this g ->
  exists this' g',
    PSO_steps k this g = Returned (this', g') /\ PSO_launched this' g' /\
    length (PSO.particles this') = length (PSO.particles this).
Proof.
  induction k as [|k IH]; intros this g Hl; cbn [PSO_steps].
  - exists this, g. auto.
  - destruct (PSO_step_launched this g Hl) as (this1 & g1 & E1 & Hl1 & Hlen1 & _).
    destruct (IH this1 g1 Hl1) as (this' & g' & E' & Hl' & Hlen').
    exists this', g'. unfold bind. rewrite E1. split; [exact E'|].
    split; [exact Hl' | congruence].
Qed.

Lemma scored_particle_tracked f p :
  Particle.pbestFit p = Benchmark.func f (Particle.pbestX p) (Particle.pbestY p)
  \/ (Particle.pbestFit p = Infinity /\
      exists v, Benchmark.func f (Particle.x p) (Particle.y p) = Fin v) ->
  tracked f (scored_particle f p).
Proof.
  intros H. unfold tracked, scored_particle.
  destruct (_ <? _) eqn:E; cbn [Particle.x Particle.y Particle.fitness Particle.pbestFit
    Particle.pbestX Particle.pbestY].
  - repeat split. apply lt_irrefl.
  - destruct H as [H|[H (v & Hv)]].
    + repeat split; assumption.
    + rewrite H, Hv in E. discriminate.
Qed.

Lemma PSO_initialize_unscored (f : benchmark) (rnd : nat -> R) (lo hi : R) n :
  (forall n, (0 <= rnd n < 1)%R) -> (lo < hi)%R ->
  invariantly (setting f rnd) (PSO.initialize n (Fin lo, Fin hi))
    (fun ps => length ps = n /\
               Forall (fun p => sound_particle (Fin lo, Fin hi) p /\
                                Particle.pbestFit p = Infinity) ps).
Proof.
  intros rnd_range Hlohi. induction n as [|n IH]; cbn [PSO.initialize fst snd].
  - apply invariantly_ret. split; [reflexivity | constructor].
  - eapply invariantly_bind; [apply random_range, rnd_range|]. intros x (a & -> & Ha).
    eapply invariantly_bind; [apply random_range, rnd_range|]. intros y (b & -> & Hb).
    eapply invariantly_bind; [apply random_range, rnd_range|]. intros vx (va & -> & _).
    eapply invariantly_bind; [apply random_range, rnd_range|]. intros vy (vb & -> & _).
    eapply invariantly_bind; [apply IH|]. intros rest [Hlen Hrest].
    apply invariantly_ret. split; [cbn; congruence|].
    constructor; [|exact Hrest]. split; [|reflexivity].
    unfold sound_particle. cbn. rewrite !within_Fin.
    repeat split; try exact I; eexists; (split; [reflexivity|]);
      first [apply Ha | apply Hb]; lra.
Qed.

Lemma PSO_new_launched (n : Z) (w c1 c2 : number) g :
  fair g -> well_behaved (currentFunction g) -> fresh_run g ->
  exists this g',
    PSO.new n w c1 c2 g = Returned (this, g') /\ PSO_launched this g' /\
    length (PSO.particles this) = Z.to_nat n /\
    setting (currentFunction g) (draws (random_state g)) g' /\
    Forall (tracked (currentFunction g)) (PSO.particles this).
Proof.
  intros Hfair [(lo & hi & Hb & Hlohi) Hfin] [Hfit Hpos].
  set (f := currentFunction g) in *. set (rnd := draws (random_state g)).
  unfold PSO.new, bind at 1, gets. fold f. rewrite Hb.
  destruct (invariantly_returns _ _ _ g
              (PSO_initialize_unscored f rnd lo hi (Z.to_nat n) Hfair Hlohi))
    as (ps & g1 & E & [Hf1 Hd1] & Hlen & Hps); [split; reflexivity|].
  unfold bind. rewrite E.
  destruct (rng_only_PSO_initialize _ _ _ _ _ E) as (Hfit1 & Hpos1 & _).
  rewrite PSO_evaluate_eq. cbn [PSO.particles]. rewrite Hf1.
  eexists _, _. split; [reflexivity|].
  set (l := map (scored_particle f) ps).
  assert (Forall (fun p => exists a b v, Particle.x p = Fin a /\ Particle.y p = Fin b /\
                                         Particle.fitness p = Fin v) l) as Hl.
  { subst l. apply Forall_map. eapply Forall_impl; [exact Hps|].
    intros p [Hp _]. apply (scored_particle_sound f lo hi Hfin p Hp). }
  assert (sound_best g1) as Hs by (unfold sound_best; rewrite Hpos1, Hpos; congruence).
  destruct (foldl_note_particle_sound l g1 Hs Hl) as [_ Hdef].
  destruct (foldl_note_particle_setting l g1) as ([Hf' Hd'] & _ & _).
  split.
  { intros Hne. apply Hdef. left. exact Hne. }
  split; [cbn [PSO.particles PSO.set_particles]; subst l; rewrite length_map; exact Hlen|].
  split; [split; congruence|].
  cbn [PSO.particles PSO.set_particles]. subst l. apply Forall_map.
  eapply Forall_impl; [exact Hps|]. cbn beta. intros p [Hp Hinf].
  apply scored_particle_tracked. right. split; [exact Hinf|].
  destruct Hp as ((a & -> & _)%within_Fin & (b & -> & _)%within_Fin & _). apply Hfin.
Qed.

(** X17.  A PSO built at the start of a run over a function of the catalog
    returns from its constructor and from every [step()] whatever numbers
    [w], [c1] and [c2] are ([NaN] and the infinities included), with
    [Math.random()] in [0,1); the swarm keeps its [swarmSize] particles
    (none when [swarmSize] is not positive). *)
Theorem PSO_runs_for_every_parameter
    (swarmSize : Z) (w c1 c2 : number) (k : nat) (g : globals) :
  fair g -> In (currentFunction g) catalog -> fresh_run g ->
  exists this g',
    PSO_run swarmSize w c1 c2 k g = Returned (this, g') /\
    length (PSO.particles this) = Z.to_nat swarmSize.
Proof.
  intros Hfair Hcat Hfresh.
  destruct (PSO_new_launched swarmSize w c1 c2 g Hfair (catalog_well_behaved _ Hcat) Hfresh)
    as (this0 & g0 & E0 & Hl0 & Hlen0 & _ & _).
  destruct (PSO_steps_launched k this0 g0 Hl0) as (this & g' & E & _ & Hlen).
  exists this, g'. unfold PSO_run, bind. rewrite E0. split; [exact E | congruence].
Qed.

Lemma PSO_runs_for_every_parameter_example :
  exists this g',
    PSO_run 3 NaN Infinity (Fin 1.5) 2 zero_globals = Returned (this, g') /\
    length (PSO.particles this) = Z.to_nat 3.
Proof.
  apply PSO_runs_for_every_parameter.
  - apply fair_zero_globals.
  - apply sphere_in_catalog.
  - split; reflexivity.
Defined.

(** ** A generation without crossover and mutation *)

Section NoVariation.
Context (f : benchmark) (rnd : nat -> R).
Context (rnd_range : forall n, (0 <= rnd n < 1)%R).
Context (this : GA.t).
Context (this_size : (1 <= GA.popSize this)%Z).
Context (this_length : length (GA.population this) = Z.to_nat (GA.popSize this)).
Context (mr cr : R).
Context (no_mutation : GA.mutationRate this = Fin mr) (mr_le : (mr <= 0)%R).
Context (no_crossover : GA.crossoverRate this = Fin cr) (cr_le : (cr <= 0)%R).

Local Abbreviation Inv := (setting f rnd).
Local Abbreviation member := (fun i : Individual.t => i ∈ GA.population this).

Lemma mutate_without_mutation ind :
  invariantly Inv (GA.mutate this ind) (fun r => r = ind).
Proof using rnd_range no_mutation mr_le.
  unfold GA.mutate. rewrite no_mutation.
  eapply invariantly_bind; [apply Math_random_range, rnd_range|]. intros r (v & -> & Hv).
  cbn [Number.lt]. rewrite bool_decide_eq_false_2 by lra.
  eapply (invariantly_bind _ _ (fun i => i = ind)); [apply invariantly_ret; reflexivity|].
  intros ? ->.
  eapply invariantly_bind; [apply Math_random_range, rnd_range|]. intros r' (v' & -> & Hv').
  cbn [Number.lt]. rewrite bool_decide_eq_false_2 by lra.
  apply invariantly_ret. reflexivity.
Qed.

Lemma offspring_without_variation :
  invariantly Inv (GA.offspring this) (fun cs => member (fst cs) /\ member (snd cs)).
Proof using rnd_range this_size this_length no_mutation mr_le no_crossover cr_le.
  unfold GA.offspring. rewrite no_crossover.
  eapply invariantly_bind;
    [apply (tournamentSelect_member f rnd rnd_range this this_size this_length)|].
  intros p1 (i1 & -> & Hi1).
  eapply invariantly_bind;
    [apply (tournamentSelect_member f rnd rnd_range this this_size this_length)|].
  intros p2 (i2 & -> & Hi2).
  eapply invariantly_bind; [apply Math_random_range, rnd_range|]. intros r (v & -> & Hv).
  cbn [Number.lt Individual.spread]. rewrite bool_decide_eq_false_2 by lra.
  eapply (invariantly_bind _ _ (fun cs => cs = (i1, i2)));
    [apply invariantly_ret; reflexivity|].
  intros ? ->. cbn [fst snd].
  eapply invariantly_bind; [apply mutate_without_mutation|]. intros c1 ->.
  eapply invariantly_bind; [apply mutate_without_mutation|]. intros c2 ->.
  apply invariantly_ret. auto.
Qed.

Lemma breed_without_variation fuel : forall newPop,
  Forall member newPop ->
  (Z.to_nat (GA.popSize this) - length newPop <= fuel)%nat ->
  invariantly Inv (GA.breed fuel this newPop) (Forall member).
Proof using rnd_range this_size this_length no_mutation mr_le no_crossover cr_le.
  induction fuel as [|fuel IH]; intros newPop Hin Hfuel; cbn [GA.breed].
  - destruct (decide (Z.of_nat (length newPop) < GA.popSize this)%Z) as [Hlt|Hge]; [lia|].
    apply invariantly_ret. exact Hin.
  - destruct (decide (Z.of_nat (length newPop) < GA.popSize this)%Z) as [Hlt|Hge].
    + eapply invariantly_bind; [apply offspring_without_variation|]. intros cs [Hc1 Hc2].
      apply IH.
      * destruct (decide _); rewrite ?Forall_app; repeat split; auto.
      * destruct (decide _); rewrite ?length_app; cbn; lia.
    + apply invariantly_ret. exact Hin.
Qed.

Lemma step_without_variation :
  invariantly Inv (GA.step this)
    (fun this' =>
       Forall (fun e' => exists e, e ∈ GA.population this /\ e' = scored f e)
              (GA.population this')).
Proof using rnd_range this_size this_length no_mutation mr_le no_crossover cr_le.
  unfold GA.step.
  set (newPop := if GA.elitism this then _ else _).
  assert (Forall member newPop /\ (length newPop <= 1)%nat) as [Hnew Hlen].
  { subst newPop. destruct (GA.elitism this); [|split; [constructor | cbn; lia]].
    destruct (GA.population this) as [|e pop] eqn:E; [cbn in this_length; lia|].
    cbn. split; [|lia]. constructor; [left | constructor]. }
  eapply invariantly_bind; [apply (breed_without_variation _ newPop Hnew); lia|].
  intros pop Hpop.
  eapply invariantly_conseq; [apply GA_evaluate_returns|].
  cbn beta. intros this' [_ Hperm]. rewrite Hperm.
  cbn [GA.population GA.set_population]. apply Forall_map.
  eapply Forall_impl; [exact Hpop|]. cbn beta. eauto.
Qed.

End NoVariation.

(** X18.  With a mutation rate and a crossover rate of 0 (or below)
    [step()] explores no new point: it returns, and every member of the new
    population is a member of the old one, re-scored by the current
    function. *)
Theorem a_step_without_variation_only_copies_members
    (this : GA.t) (g : globals) (mr cr : R) :
  (1 <= GA.popSize this)%Z ->
  length (GA.population this) = Z.to_nat (GA.popSize this) ->
  fair g ->
  GA.mutationRate this = Fin mr -> (mr <= 0)%R ->
  GA.crossoverRate this = Fin cr -> (cr <= 0)%R ->
  exists this' g',
    GA.step this g = Returned (this', g') /\
    Forall (fun e' => exists e, e ∈ GA.population this /\
                                e' = scored (currentFunction g) e)
           (GA.population this').
Proof.
  intros Hn Hlen Hfair Hmr Hmr0 Hcr Hcr0.
  destruct (invariantly_returns _ _ _ g
              (step_without_variation (currentFunction g) (draws (random_state g)) Hfair
                 this Hn Hlen mr cr Hmr Hmr0 Hcr Hcr0))
    as (this' & g' & E & _ & H); [split; reflexivity|].
  eauto.
Qed.

Lemma a_step_without_variation_only_copies_members_example :
  exists this' g',
    GA.step example_GA zero_globals = Returned (this', g') /\
    Forall (fun e' => exists e, e ∈ GA.population example_GA /\
                                e' = scored (currentFunction zero_globals) e)
           (GA.population this').
Proof.
  apply (a_step_without_variation_only_copies_members example_GA zero_globals 0 0).
  - cbn. lia.
  - reflexivity.
  - apply fair_zero_globals.
  - reflexivity.
  - lra.
  - reflexivity.
  - lra.
Defined.

(** ** [random] *)



(** ** Personal bests along a run *)

Lemma Forall_moved_all (P Q : Particle.t -> Prop) this gx gy rnd ps :
  (forall p r1 r2, P p -> Q (moved this gx gy r1 r2 p)) ->
  Forall P ps -> forall c, Forall Q (moved_all this gx gy rnd c ps).
Proof.
  intros HPQ Hps. induction Hps as [|p ps Hp Hps IH]; intros c; cbn [moved_all];
    constructor; auto.
Qed.

Lemma PSO_step_tracked this g this' g' :
  PSO.step this g = Returned (this', g') ->
  Forall (tracked (currentFunction g)) (PSO.particles this) ->
  Forall (tracked (currentFunction g)) (PSO.particles this') /\
  currentFunction g' = currentFunction g.
Proof.
  intros Hstep Hps. destruct (PSO.particles this) as [|p0 ps0] eqn:Eps.
  - rewrite (PSO_step_of_no_particle this g Eps) in Hstep. injection Hstep as <- <-.
    split; [constructor | reflexivity].
  - destruct (bestGlobalPosition g) as [[gx gy]|] eqn:Eg.
    + pose proof (PSO_step_eq this g gx gy Eg) as E. cbv zeta in E.
      rewrite E in Hstep. injection Hstep as <- <-. split.
      * cbn [PSO.particles PSO.set_particles]. apply Forall_map. rewrite Eps.
        eapply Forall_moved_all; [|exact Hps].
        intros p r1 r2 (_ & Hp & _). apply scored_particle_tracked. left. exact Hp.
      * match goal with
        | |- context [foldl note_particle ?g1 ?l] =>
            destruct (foldl_note_particle_setting l g1) as ([-> _] & _ & _)
        end.
        apply advance_by_spec.
    + rewrite (PSO_step_without_best this g) in Hstep; [discriminate| |exact Eg].
      rewrite Eps. discriminate.
Qed.

Lemma PSO_steps_tracked k : forall this g this' g',
  PSO_steps k this g = Returned (this', g') ->
  Forall (tracked (currentFunction g)) (PSO.particles this) ->
  Forall (tracked (currentFunction g)) (PSO.particles this').
Proof.
  induction k as [|k IH]; intros this g this' g'; cbn [PSO_steps].
  - intros [= <- <-]. auto.
  - unfold bind. destruct (PSO.step this g) as [[this1 g1]|] eqn:E1; [|discriminate].
    intros E' Hps. destruct (PSO_step_tracked _ _ _ _ E1 Hps) as [Hps1 Hf1].
    rewrite <- Hf1 in *. eapply IH; eassumption.
Qed.

(** X20.  Along a run of the PSO over a function of the catalog
    (constructor at the start of a run, then any number of [step()] calls,
    for any numbers [w], [c1], [c2]) the record of every particle is
    consistent: its fitness is the function's value at its position, its
    personal best fitness is the function's value at its personal best
    position, and its fitness is never below its personal best. *)
Theorem personal_bests_stay_consistent
    (swarmSize : Z) (w c1 c2 : number) (k : nat) (g : globals) :
  fair g -> In (currentFunction g) catalog -> fresh_run g ->
  exists this g',
    PSO_run swarmSize w c1 c2 k g = Returned (this, g') /\
    Forall (tracked (currentFunction g)) (PSO.particles this).
Proof.
  intros Hfair Hcat Hfresh.
  destruct (PSO_new_launched swarmSize w c1 c2 g Hfair (catalog_well_behaved _ Hcat) Hfresh)
    as (this0 & g0 & E0 & Hl0 & _ & [Hf0 _] & Ht0).
  destruct (PSO_steps_launched k this0 g0 Hl0) as (this & g' & E & _ & _).
  exists this, g'. unfold PSO_run, bind. rewrite E0. split; [exact E|].
  rewrite <- Hf0 in *. eapply PSO_steps_tracked; eassumption.
Qed.

Lemma personal_bests_stay_consistent_example :
  exists this g',
    PSO_run 3 (Fin 0.7) (Fin 1.5) (Fin 1.5) 2 zero_globals = Returned (this, g') /\
    Forall (tracked (currentFunction zero_globals)) (PSO.particles this).
Proof.
  apply personal_bests_stay_consistent.
  - apply fair_zero_globals.
  - apply sphere_in_catalog.
  - split; reflexivity.
Defined.

(** ** Elitism and the global best *)

Lemma rng_only_GA_initialize n b : preserves rng_only (GA.initialize n b).
Proof.
  induction n as [|n IH]; cbn [GA.initialize].
  - apply preserves_ret, rng_only_refl.
  - repeat (apply preserves_bind;
            [apply rng_only_trans | apply rng_only_random | intros ?]).
    apply preserves_bind; [apply rng_only_trans | apply IH | intros ?].
    apply preserves_ret, rng_only_refl.
Qed.

Lemma GA_step_globals this g this' g' :
  GA.step this g = Returned (this', g') ->
  exists g1 pop,
    rng_only g g1 /\
    GA.population this' ≡ₚ map (scored (currentFunction g1)) pop /\
    g' = foldl note_member g1 (map (scored (currentFunction g1)) pop).
Proof.
  unfold GA.step, bind.
  destruct (GA.breed _ _ _ g) as [[newPop g1]|] eqn:E; [|discriminate].
  rewrite GA_evaluate_eq. intros [= <- <-]. exists g1, newPop.
  split; [eapply rng_only_breed, E|]. split; [apply Array_sort_perm | reflexivity].
Qed.

Lemma GA_new_globals n mr cr el g this' g' :
  GA.new n mr cr el g = Returned (this', g') ->
  exists g1 pop,
    rng_only g g1 /\
    GA.population this' ≡ₚ map (scored (currentFunction g1)) pop /\
    g' = foldl note_member g1 (map (scored (currentFunction g1)) pop).
Proof.
  unfold GA.new, bind, gets.
  destruct (GA.initialize _ _ g) as [[pop g1]|] eqn:E; [|discriminate].
  rewrite GA_evaluate_eq. intros [= <- <-]. exists g1, pop.
  split; [eapply rng_only_GA_initialize, E|]. split; [apply Array_sort_perm | reflexivity].
Qed.

Lemma head_is_the_best f this' g1 l e' :
  (forall a b, exists v, Benchmark.func f (Fin a) (Fin b) = Fin v) ->
  (exists lo hi, Benchmark.bounds f = (Fin lo, Fin hi)) ->
  evaluated f this' -> GA.population this' ≡ₚ l ->
  (bestGlobalFitness g1 = Infinity \/
   exists t, t ∈ l /\ bestGlobalFitness g1 = Individual.fitness t) ->
  GA.population this' !! 0%nat = Some e' ->
  bestGlobalFitness (foldl note_member g1 l) = Individual.fitness e'.
Proof.
  intros Hfin Hb Hev Hperm Hbefore He'.
  pose proof (evaluated_finite_fitness f this' Hfin Hb Hev) as Hff.
  pose proof (foldl_note_best_lower Individual.fitness Individual.x Individual.y l g1)
    as Hlower.
  change (foldl (fun g t => note_best (Individual.fitness t) (Individual.x t)
                              (Individual.y t) g) g1 l)
    with (foldl note_member g1 l) in Hlower.
  set (b' := bestGlobalFitness (foldl note_member g1 l)) in *.
  assert (e' ∈ GA.population this') as Hin by (eapply list_elem_of_lookup_2, He').
  rewrite Forall_forall in Hff, Hlower.
  pose proof (Hff e' Hin) as Hfe. unfold finite_fitness in Hfe.
  destruct (Individual.fitness e') as [m| | |] eqn:Em; try tauto.
  assert ((Fin m <? b') = false) as Hnot.
  { rewrite <- Em. apply Hlower. rewrite <- Hperm. exact Hin. }
  assert (b' = Infinity \/ exists t, t ∈ l /\ b' = Individual.fitness t) as [Hb'|(t & Ht & Hb')].
  { destruct (foldl_note_best_source Individual.fitness Individual.x Individual.y l g1)
      as [H|H].
    - change (bestGlobalFitness (foldl note_member g1 l) = bestGlobalFitness g1) in H.
      fold b' in H. rewrite H. exact Hbefore.
    - right. exact H. }
  - rewrite Hb' in Hnot. discriminate.
  - rewrite Hb'. rewrite <- Hperm in Ht.
    pose proof (Hff t Ht) as Hft. unfold finite_fitness in Hft.
    destruct (Individual.fitness t) as [v| | |] eqn:Ev; try tauto.
    assert (Number.le (Fin m) (Fin v) = true) as Hle.
    { destruct Hev as (_ & _ & _ & _ & _ & Hsorted).
      destruct (GA.population this') as [|h pop]; [discriminate|].
      cbn in He'. injection He' as ->.
      apply StronglySorted_inv in Hsorted as [_ Hhead].
      apply elem_of_cons in Ht as [->|Ht].
      - rewrite Em in Ev. injection Ev as ->. cbn. apply bool_decide_eq_true. lra.
      - rewrite Forall_forall in Hhead. specialize (Hhead t Ht).
        rewrite Em, Ev in Hhead. exact Hhead. }
    rewrite Hb' in Hnot. cbn in Hle, Hnot.
    apply bool_decide_eq_true in Hle. apply bool_decide_eq_false in Hnot.
    f_equal. lra.
Qed.

Section Elitism.
Context (f : benchmark) (rnd : nat -> R).
Context (rnd_range : forall n, (0 <= rnd n < 1)%R).
Context (lo hi : R).
Context (f_bounds : Benchmark.bounds f = (Fin lo, Fin hi)) (lo_hi : (lo < hi)%R).
Context (f_finite : forall a b, exists v, Benchmark.func f (Fin a) (Fin b) = Fin v).

Lemma GA_step_elite_is_best this g :
  setting f rnd g -> elite_is_best f this g ->
  exists this' g',
    GA.step this g = Returned (this', g') /\ setting f rnd g' /\ elite_is_best f this' g'.
Proof using rnd_range lo_hi f_finite f_bounds.
  intros Hg (Hev & Hel & e & He & Hbest).
  destruct (invariantly_returns _ _ _ g
              (GA_step_evaluated f rnd rnd_range lo hi f_bounds lo_hi f_finite this Hev) Hg)
    as (this' & g' & E & Hg' & Hev' & Hpar & Helite).
  destruct (Helite Hel) as (e0 & e0' & He0 & He0' & _ & _ & Hfit0).
  rewrite He in He0. injection He0 as <-.
  destruct (GA_step_globals _ _ _ _ E) as (g1 & pop & (Hfit1 & _) & Hperm & Hg'eq).
  exists this', g'. split; [exact E|]. split; [exact Hg'|].
  split; [exact Hev'|]. split; [destruct Hpar as (_ & _ & _ & <- & _); exact Hel|].
  destruct (GA.population this' !! 0%nat) as [e'|] eqn:He'.
  - exists e'. split; [reflexivity|]. rewrite Hg'eq.
    apply (head_is_the_best f this'); eauto.
    right. exists e0'. split; [rewrite <- Hperm; exact He0'|]. congruence.
  - exfalso. apply (evaluated_nonempty _ _ Hev').
    destruct (GA.population this'); [reflexivity | discriminate].
Qed.

Lemma GA_steps_elite_is_best k : forall this g,
  setting f rnd g -> elite_is_best f this g ->
  exists this' g',
    GA_steps k this g = Returned (this', g') /\ elite_is_best f this' g'.
Proof using rnd_range lo_hi f_finite f_bounds.
  induction k as [|k IH]; intros this g Hg HJ; cbn [GA_steps].
  - exists this, g. auto.
  - destruct (GA_step_elite_is_best this g Hg HJ) as (this1 & g1 & E1 & Hg1 & HJ1).
    destruct (IH this1 g1 Hg1 HJ1) as (this' & g' & E' & HJ').
    exists this', g'. unfold bind. rewrite E1. auto.
Qed.

Lemma GA_new_elite_is_best (n : Z) mr cr g :
  (1 <= n)%Z -> setting f rnd g -> fresh_run g ->
  exists this g',
    GA.new n mr cr true g = Returned (this, g') /\ setting f rnd g' /\
    elite_is_best f this g'.
Proof using rnd_range lo_hi f_finite f_bounds.
  intros Hn Hg [Hfit _].
  destruct (invariantly_returns _ _ _ g
              (GA_new_evaluated f rnd rnd_range lo hi f_bounds lo_hi f_finite
                 n mr cr true Hn) Hg)
    as (this & g' & E & Hg' & Hev & _ & _ & _ & Hel).
  destruct (GA_new_globals _ _ _ _ _ _ _ E) as (g1 & pop & (Hfit1 & _) & Hperm & Hg'eq).
  exists this, g'. split; [exact E|]. split; [exact Hg'|].
  split; [exact Hev|]. split; [exact Hel|].
  destruct (GA.population this !! 0%nat) as [e'|] eqn:He'.
  - exists e'. split; [reflexivity|]. rewrite Hg'eq.
    apply (head_is_the_best f this); eauto. left. congruence.
  - exfalso. apply (evaluated_nonempty _ _ Hev).
    destruct (GA.population this); [reflexivity | discriminate].
Qed.

End Elitism.

(** X21.  With elitism, along a run of the GA over a function of the
    catalog (constructor at the start of a run, then any number of
    [step()] calls), the first member of the population always carries the
    recorded global best fitness: the best point ever found is never lost
    from the population. *)
Theorem with_elitism_the_first_member_is_the_global_best
    (popSize : Z) (mutationRate crossoverRate : number) (k : nat) (g : globals) :
  (1 <= popSize)%Z -> fair g -> In (currentFunction g) catalog -> fresh_run g ->
  exists this g' e,
    GA_run popSize mutationRate crossoverRate true k g = Returned (this, g') /\
    GA.population this !! 0%nat = Some e /\
    bestGlobalFitness g' = Individual.fitness e.
Proof.
  intros Hn Hfair Hcat Hfresh.
  destruct (catalog_well_behaved _ Hcat) as [(lo & hi & Hb & Hlohi) Hfin].
  set (f := currentFunction g) in *. set (rnd := draws (random_state g)).
  assert (setting f rnd g) as Hg by (split; reflexivity).
  destruct (GA_new_elite_is_best f rnd Hfair lo hi Hb Hlohi Hfin popSize
              mutationRate crossoverRate g Hn Hg Hfresh)
    as (this0 & g0 & E0 & Hg0 & HJ0).
  destruct (GA_steps_elite_is_best f rnd Hfair lo hi Hb Hlohi Hfin k this0 g0 Hg0 HJ0)
    as (this & g' & E & _ & _ & e & He & Hbest).
  exists this, g', e. unfold GA_run, bind. rewrite E0. auto.
Qed.

Lemma with_elitism_the_first_member_is_the_global_best_example :
  exists this g' e,
    GA_run 2 (Fin 0.1) (Fin 0.8) true 3 zero_globals = Returned (this, g') /\
    GA.population this !! 0%nat = Some e /\
    bestGlobalFitness g' = Individual.fitness e.
Proof.
  apply with_elitism_the_first_member_is_the_global_best.
  - lia.
  - apply fair_zero_globals.
  - apply sphere_in_catalog.
  - split; reflexivity.
Defined.

(* ===================================================================== *)
(** * Part V: more about the page                                         *)
(* ===================================================================== *)

(** ** What each handler makes of the page *)

Ltac world_fields :=
  cbv [engine isRunning isReplaying currentAlgorithm iteration executionCount
       currentRunHistory executionHistories heap canvas
       with_engine with_isRunning with_isReplaying with_currentAlgorithm with_iteration
       with_executionCount with_currentRunHistory with_executionHistories with_heap
       with_canvas new_array array_push render captureState run_engine
       stepped logged cleared replay_ready started].

Lemma stopSimulation_cases shouldLog w :
  stopSimulation shouldLog w
  = if isReplaying w then Returned (with_isReplaying false w)
    else if shouldLog && bool_decide (0 < iteration w)%nat
         then match currentAlgorithm w with
              | Some a => Returned (logged w a)
              | None => Thrown TypeError
              end
         else Returned (with_isRunning false w).
Proof.
  destruct w as [g run rep alg it count cur hist hp cv].
  unfold stopSimulation, logResult. world_fields.
  destruct rep; [reflexivity|]. destruct (shouldLog && _); [|reflexivity].
  destruct alg; reflexivity.
Qed.

Lemma resetSimulation_eq w : resetSimulation w = Returned (cleared w).
Proof.
  destruct w as [g run rep alg it count cur hist hp cv].
  unfold resetSimulation, stopSimulation. world_fields.
  destruct rep; reflexivity.
Qed.

Lemma loop_cases ctl w :
  loop ctl w
  = if isRunning w then
      match currentAlgorithm w with
      | None => Thrown TypeError
      | Some a =>
          match algorithm_step a (engine w) with
          | Thrown e => Thrown e
          | Returned (a', g') =>
              if bool_decide (0 < maxIterations ctl)%Z
                 && bool_decide (maxIterations ctl <= Z.of_nat (S (iteration w)))%Z
              then stopSimulation true (stepped w a' g')
              else Returned (stepped w a' g')
          end
      end
    else Returned w.
Proof.
  destruct w as [g run rep alg it count cur hist hp cv].
  unfold loop. world_fields. destruct run; [|reflexivity]. cbn [negb].
  destruct alg as [a|]; [|reflexivity].
  destruct (algorithm_step a g) as [[a' g']|]; reflexivity.
Qed.

Lemma startSimulation_cases ctl w :
  startSimulation ctl w
  = if isRunning w || isReplaying w then Returned w
    else match currentAlgorithm w with
         | Some _ => loop ctl (with_isRunning true w)
         | None =>
             match construct ctl (reset_best (engine w)) with
             | Returned (a, g1) => loop ctl (started w a g1)
             | Thrown e => Thrown e
             end
         end.
Proof.
  destruct (isRunning w || isReplaying w) eqn:Ebusy.
  { unfold startSimulation. rewrite Ebusy. reflexivity. }
  apply orb_false_iff in Ebusy as [Hrun Hrep].
  destruct (currentAlgorithm w) as [a|] eqn:Ea.
  { apply (startSimulation_resume ctl w a Hrun Hrep Ea). }
  destruct (construct ctl (reset_best (engine w))) as [[a g1]|e] eqn:Ec.
  { apply (startSimulation_fresh ctl w a g1 Hrun Hrep Ea Ec). }
  destruct w as [g run rep alg it count cur hist hp cv].
  cbn [isRunning isReplaying currentAlgorithm engine] in *. subst.
  unfold startSimulation, resetSimulation, stopSimulation. world_fields.
  cbn [orb andb]. rewrite Ec. reflexivity.
Qed.

Lemma replayLoop_cases h c w :
  replayLoop h c w
  = if isReplaying w then
      match deref w h !! iteration w with
      | Some pop =>
          with_iteration (S (iteration w))
            (with_canvas (canvas w ++ [ {| shown := Some pop; paint := replay_paint c |} ]) w)
      | None => with_isReplaying false w
      end
    else w.
Proof.
  destruct w as [g run rep alg it count cur hist hp cv].
  unfold replayLoop, deref. world_fields. destruct rep; [|reflexivity]. cbn [negb].
  destruct (default [] (hp !! h) !! it); reflexivity.
Qed.

Lemma startReplay_cases id w :
  startReplay id w
  = if isRunning w || isReplaying w then w
    else match executionHistories w !! id with
         | None => w
         | Some data =>
             replayLoop (Entry.history data) (Entry.color data) (replay_ready w data)
         end.
Proof.
  destruct w as [g run rep alg it count cur hist hp cv].
  unfold startReplay. world_fields.
  destruct (run || rep); [reflexivity|].
  destruct (hist !! id) as [data|]; [|reflexivity].
  f_equal. destruct (String.eqb _ _); [reflexivity|].
  destruct (function_named _); reflexivity.
Qed.

(** ** The archive only grows *)



















(** ** The history of the live run *)

Lemma recorded_stop shouldLog w w' :
  isReplaying w = false -> recorded w ->
  stopSimulation shouldLog w = Returned w' ->
  isReplaying w' = false /\ recorded w'.
Proof.
  intros Hrep Hrec. rewrite stopSimulation_cases, Hrep.
  destruct (shouldLog && _).
  - destruct (currentAlgorithm w) as [a|] eqn:Ea; [|discriminate].
    intros [= <-]. split; [exact Hrep|].
    unfold recorded in *. cbn [logged currentAlgorithm]. rewrite Ea in *. exact Hrec.
  - intros [= <-]. split; [exact Hrep | exact Hrec].
Qed.

Lemma recorded_stepped w a a' g' :
  currentAlgorithm w = Some a -> recorded w -> recorded (stepped w a' g').
Proof.
  unfold recorded. intros -> [Href Hlen].
  cbn [stepped currentAlgorithm currentRunHistory heap iteration].
  split; [rewrite length_alter; exact Href|].
  unfold deref in *. cbn [stepped heap]. rewrite list_lookup_alter_eq.
  destruct (lookup_lt_is_Some_2 (heap w) _ Href) as [h Hh]. rewrite Hh in *. cbn in *.
  rewrite length_app. cbn. lia.
Qed.

Lemma recorded_loop ctl w w' :
  isReplaying w = false -> recorded w -> loop ctl w = Returned w' ->
  isReplaying w' = false /\ recorded w'.
Proof.
  intros Hrep Hrec. rewrite loop_cases.
  destruct (isRunning w); [|intros [= <-]; auto].
  destruct (currentAlgorithm w) as [a|] eqn:Ea; [|discriminate].
  destruct (algorithm_step a (engine w)) as [[a' g']|]; [|discriminate].
  pose proof (recorded_stepped w a a' g' Ea Hrec) as Hrec'.
  destruct (_ && _).
  - apply recorded_stop; [exact Hrep | exact Hrec'].
  - intros [= <-]. split; [exact Hrep | exact Hrec'].
Qed.

Lemma recorded_started w a g1 : recorded (started w a g1).
Proof.
  unfold recorded, deref. cbn [started currentAlgorithm currentRunHistory heap iteration].
  rewrite length_app. cbn [length]. split; [lia|].
  rewrite lookup_app_r by lia.
  replace (S (length (heap w)) - length (heap w))%nat with 1%nat by lia. reflexivity.
Qed.

Lemma recorded_cleared w : recorded (cleared w).
Proof.
  unfold recorded, deref. cbn. split; [reflexivity|].
  rewrite lookup_app_r, Nat.sub_diag by lia. reflexivity.
Qed.

Lemma recorded_handle e w w' :
  not_a_replay e -> isReplaying w = false -> recorded w ->
  handle e w = Returned w' -> isReplaying w' = false /\ recorded w'.
Proof.
  intros He Hrep Hrec. destruct e; cbn [handle]; try contradiction.
  - rewrite startSimulation_cases. destruct (_ || _); [intros [= <-]; auto|].
    destruct (currentAlgorithm w) as [a|] eqn:Ea.
    + apply recorded_loop; [exact Hrep|].
      unfold recorded in *. cbn [with_isRunning currentAlgorithm]. rewrite Ea in *.
      exact Hrec.
    + destruct (construct ctl _) as [[a g1]|]; [|discriminate].
      apply recorded_loop; [reflexivity | apply recorded_started].
  - apply recorded_stop; assumption.
  - rewrite resetSimulation_eq. intros [= <-]. split; [reflexivity | apply recorded_cleared].
  - rewrite resetSimulation_eq. intros [= <-]. split; [reflexivity | apply recorded_cleared].
  - unfold onFunctionChange. destruct (_ <$> _) as [f|]; [|discriminate].
    rewrite resetSimulation_eq. intros [= <-]. split; [reflexivity|].
    apply recorded_cleared.
  - apply recorded_loop; assumption.
  - rewrite replayLoop_cases, Hrep. intros [= <-]. auto.
Qed.

(** X23.  In a session without replays, from the load of the page on, the
    history of the live run always holds one snapshot for generation 0 and
    one per iteration: [iteration + 1] snapshots while there is an
    optimizer, none (and no iteration) while there is not. *)
Theorem the_history_has_one_snapshot_per_iteration
    (rnd : nat -> R) (es : list event) (w : world) :
  Forall not_a_replay es -> handle_all es (initial_world rnd) = Returned w ->
  recorded w.
Proof.
  intros Hes.
  assert (isReplaying (initial_world rnd) = false /\ recorded (initial_world rnd)) as H0.
  { split; [reflexivity|]. split; reflexivity. }
  revert H0. generalize (initial_world rnd) as w0.
  induction Hes as [|e es He Hes IH]; intros w0 [Hrep Hrec]; cbn [handle_all].
  - intros [= <-]. exact Hrec.
  - destruct (handle e w0) as [w1|] eqn:E; [|discriminate].
    apply IH. eapply recorded_handle; eassumption.
Qed.

Lemma the_history_has_one_snapshot_per_iteration_example :
  recorded (cleared (initial_world (fun _ => 0%R))).
Proof.
  apply (the_history_has_one_snapshot_per_iteration (fun _ => 0%R) [ClickReset]).
  - repeat constructor.
  - cbn [handle_all handle]. rewrite resetSimulation_eq. reflexivity.
Defined.

(** ** When a handler throws *)

Lemma algorithm_step_returns w a :
  well_formed w -> currentAlgorithm w = Some a ->
  exists a' g',
    algorithm_step a (engine w) = Returned (a', g') /\
    fair g' /\ currentFunction g' = currentFunction (engine w) /\
    match a' with
    | AlgGA this => GA_built this
    | AlgPSO this => PSO_launched this g'
    end.
Proof.
  intros (Hfair & _ & _ & Halg) Ha. rewrite Ha in Halg.
  destruct a as [this|this]; cbn [algorithm_step]; unfold bind.
  - destruct (GA_step_built this (engine w) Hfair Halg)
      as (this' & g' & -> & Hb & _ & _ & [Hf Hd]).
    eexists _, _. split; [reflexivity|].
    split; [intros n; rewrite Hd; apply Hfair|]. split; [exact Hf | exact Hb].
  - destruct (PSO_step_launched this (engine w) Halg)
      as (this' & g' & -> & Hl & _ & [Hf Hd]).
    eexists _, _. split; [reflexivity|].
    split; [intros n; rewrite Hd; apply Hfair|]. split; [exact Hf | exact Hl].
Qed.

Lemma construct_returns ctl g :
  fair g -> In (currentFunction g) catalog -> fresh_run g ->
  exists a g1,
    construct ctl g = Returned (a, g1) /\
    fair g1 /\ currentFunction g1 = currentFunction g /\
    match a with
    | AlgGA this => GA_built this
    | AlgPSO this => PSO_launched this g1
    end.
Proof.
  intros Hfair Hcat Hfresh. unfold construct.
  destruct (decide (algorithmSelect ctl = "ga"%string)) as [Hga|Hga]; unfold bind.
  - destruct (invariantly_returns _ _ _ g
                (GA_new_returns (currentFunction g) (draws (random_state g)) Hfair
                   (gaPopSize ctl) (gaMutation ctl) (gaCrossover ctl) (gaElitism ctl)))
      as (this & g1 & -> & [Hf Hd] & Hp & _ & _ & _ & Hlen); [split; reflexivity|].
    eexists _, _. split; [reflexivity|].
    split; [intros n; rewrite Hd; apply Hfair|]. split; [exact Hf|].
    right. rewrite Hp. exact Hlen.
  - destruct (PSO_new_launched (psoSwarmSize ctl) (psoW ctl) (psoC1 ctl) (psoC2 ctl) g
                Hfair (catalog_well_behaved _ Hcat) Hfresh)
      as (this & g1 & -> & Hl & _ & [Hf Hd] & _).
    eexists _, _. split; [reflexivity|].
    split; [intros n; rewrite Hd; apply Hfair|]. split; [exact Hf | exact Hl].
Qed.

Lemma well_formed_stop shouldLog w :
  well_formed w ->
  (shouldLog = true -> isReplaying w = false -> (0 < iteration w)%nat ->
   currentAlgorithm w <> None) ->
  exists w', stopSimulation shouldLog w = Returned w' /\ well_formed w'.
Proof.
  intros (Hfair & Hcat & Hrun & Halg) Hsafe. rewrite stopSimulation_cases.
  destruct (isReplaying w) eqn:Hrep.
  { eexists. split; [reflexivity|].
    split; [exact Hfair|]. split; [exact Hcat|]. split; [|exact Halg].
    intros H. destruct (Hrun H) as [H1 _]. congruence. }
  destruct shouldLog; cbn [andb].
  - destruct (bool_decide_reflect (0 < iteration w)%nat) as [Hit|Hit].
    + destruct (currentAlgorithm w) as [a|] eqn:Ea; [|exfalso; apply Hsafe; auto].
      eexists. split; [reflexivity|].
      split; [exact Hfair|]. split; [exact Hcat|]. split; [discriminate|].
      cbn [logged currentAlgorithm engine]. rewrite Ea. exact Halg.
    + eexists. split; [reflexivity|].
      split; [exact Hfair|]. split; [exact Hcat|]. split; [discriminate | exact Halg].
  - eexists. split; [reflexivity|].
    split; [exact Hfair|]. split; [exact Hcat|]. split; [discriminate | exact Halg].
Qed.

Lemma well_formed_loop ctl w :
  well_formed w -> exists w', loop ctl w = Returned w' /\ well_formed w'.
Proof.
  intros Hw. rewrite loop_cases. destruct (isRunning w) eqn:Hrun; [|eauto].
  destruct Hw as (Hfair & Hcat & Hbusy & Halg).
  destruct (Hbusy Hrun) as [Hrep Hsome].
  destruct (currentAlgorithm w) as [a|] eqn:Ea; [|congruence].
  destruct (algorithm_step_returns w a) as (a' & g' & -> & Hfair' & Hf' & Ha');
    [|exact Ea|].
  { split; [exact Hfair|]. split; [exact Hcat|].
    split; [intros _; split; [exact Hrep | congruence]|]. rewrite Ea. exact Halg. }
  assert (well_formed (stepped w a' g')) as Hw'.
  { split; [exact Hfair'|]. split; [cbn [stepped engine]; rewrite Hf'; exact Hcat|].
    split; [intros _; split; [exact Hrep | discriminate]|].
    cbn [stepped currentAlgorithm engine]. exact Ha'. }
  destruct (_ && _); [|eauto].
  apply well_formed_stop; [exact Hw'|]. intros _ _ _. discriminate.
Qed.

Lemma well_formed_start ctl w :
  well_formed w -> exists w', startSimulation ctl w = Returned w' /\ well_formed w'.
Proof.
  intros Hw. rewrite startSimulation_cases.
  destruct (isRunning w || isReplaying w) eqn:Ebusy; [eauto|].
  apply orb_false_iff in Ebusy as [Hrun Hrep].
  destruct Hw as (Hfair & Hcat & Hbusy & Halg).
  destruct (currentAlgorithm w) as [a|] eqn:Ea.
  - apply well_formed_loop. split; [exact Hfair|]. split; [exact Hcat|].
    split; [intros _; split; [exact Hrep | cbn; congruence]|].
    cbn [with_isRunning currentAlgorithm engine]. rewrite Ea. exact Halg.
  - destruct (construct_returns ctl (reset_best (engine w)))
      as (a & g1 & -> & Hfair1 & Hf1 & Ha1); [exact Hfair | exact Hcat | split; reflexivity |].
    apply well_formed_loop. split; [exact Hfair1|].
    split; [cbn [started engine]; rewrite Hf1; exact Hcat|].
    split; [intros _; split; [reflexivity | discriminate]|].
    cbn [started currentAlgorithm engine]. exact Ha1.
Qed.

Lemma well_formed_cleared w : well_formed w -> well_formed (cleared w).
Proof.
  intros (Hfair & Hcat & Hbusy & _).
  split; [exact Hfair|]. split; [exact Hcat|]. split; [|exact I].
  cbn [cleared isRunning isReplaying]. intros [Hrep Hrun]%andb_true_iff.
  destruct (Hbusy Hrun) as [H _]. congruence.
Qed.

Lemma well_formed_replayLoop h c w : well_formed w -> well_formed (replayLoop h c w).
Proof.
  intros Hw. rewrite replayLoop_cases. destruct (isReplaying w) eqn:Hrep; [|exact Hw].
  destruct Hw as (Hfair & Hcat & Hbusy & Halg).
  destruct (_ !! _); (split; [exact Hfair|]; split; [exact Hcat|]; split; [|exact Halg]).
  - exact Hbusy.
  - intros H. destruct (Hbusy H). congruence.
Qed.

Lemma function_named_in_catalog n f : function_named n = Some f -> In f catalog.
Proof.
  unfold function_named. intros (kf & Hfind & ->)%fmap_Some.
  apply find_some in Hfind as [Hin _]. unfold catalog. apply in_map, Hin.
Qed.

Lemma well_formed_startReplay id w : well_formed w -> well_formed (startReplay id w).
Proof.
  intros Hw. rewrite startReplay_cases.
  destruct (isRunning w || isReplaying w) eqn:Ebusy; [exact Hw|].
  apply orb_false_iff in Ebusy as [Hrun Hrep].
  destruct (_ !! _) as [data|]; [|exact Hw].
  apply well_formed_replayLoop.
  destruct Hw as (Hfair & Hcat & Hbusy & Halg).
  unfold well_formed. cbn [replay_ready engine isRunning isReplaying currentAlgorithm].
  destruct (String.eqb _ _).
  { split; [exact Hfair|]. split; [exact Hcat|]. split; [congruence | exact Halg]. }
  destruct (function_named _) as [f|] eqn:Ef.
  - split; [exact Hfair|]. split; [eapply function_named_in_catalog, Ef|].
    split; [congruence | exact Halg].
  - split; [exact Hfair|]. split; [exact Hcat|]. split; [congruence | exact Halg].
Qed.

Lemma function_of_key key :
  match snd <$> find (fun kf => String.eqb (fst kf) key) functions with
  | Some f => In key (map fst functions) /\ In f catalog
  | None => ~ In key (map fst functions)
  end.
Proof.
  destruct (find _ functions) as [kf|] eqn:Hfind; cbn [fmap option_fmap option_map].
  - apply find_some in Hfind as [Hin Heq]. apply String.eqb_eq in Heq. subst key. split.
    + apply in_map, Hin.
    + unfold catalog. apply in_map, Hin.
  - intros (kf & <- & Hin)%in_map_iff.
    pose proof (find_none _ _ Hfind kf Hin) as H. cbn beta in H.
    rewrite String.eqb_refl in H. discriminate.
Qed.

Lemma handle_throws e w : throws_on e w -> handle e w = Thrown TypeError.
Proof.
  intros [(-> & Hrep & Hit & Ha)|(key & -> & Hkey)]; cbn [handle].
  - rewrite stopSimulation_cases, Hrep, Ha. cbn [andb].
    rewrite bool_decide_eq_true_2 by exact Hit. reflexivity.
  - unfold onFunctionChange. pose proof (function_of_key key) as H.
    destruct (_ <$> _); [tauto | reflexivity].
Qed.

Lemma handle_returns e w :
  well_formed w -> ~ throws_on e w ->
  exists w', handle e w = Returned w' /\ well_formed w'.
Proof.
  intros Hw Hno. destruct e; cbn [handle].
  - apply well_formed_start, Hw.
  - apply well_formed_stop; [exact Hw|]. intros _ Hrep Hit Ha. apply Hno. left. auto.
  - rewrite resetSimulation_eq. eauto using well_formed_cleared.
  - rewrite resetSimulation_eq. eauto using well_formed_cleared.
  - unfold onFunctionChange. pose proof (function_of_key key) as H.
    destruct (_ <$> _) as [f|]; [|exfalso; apply Hno; right; eauto].
    rewrite resetSimulation_eq. eexists. split; [reflexivity|].
    apply well_formed_cleared. destruct Hw as (Hfair & _ & Hbusy & Halg).
    split; [exact Hfair|]. split; [apply H|]. split; [exact Hbusy|].
    cbn [with_engine currentAlgorithm engine].
    destruct (currentAlgorithm w) as [[this|this]|]; auto.
  - eauto using well_formed_startReplay.
  - apply well_formed_loop, Hw.
  - eauto using well_formed_replayLoop.
Qed.

(** X24.  On a well-formed page every handler and every frame returns and
    leaves the page well-formed, with two exceptions, in which the handler
    throws a [TypeError]: Stop clicked while nothing runs or replays, no
    optimizer exists and [iteration] is not 0 (the state a replay leaves
    after a reset), and the function select firing with an unknown key. *)
Theorem handlers_throw_in_two_cases_only (e : event) (w : world) :
  well_formed w ->
  (throws_on e w -> handle e w = Thrown TypeError) /\
  (~ throws_on e w -> exists w', handle e w = Returned w' /\ well_formed w').
Proof.
  intros Hw. split; [apply handle_throws | apply handle_returns, Hw].
Qed.

Lemma well_formed_initial_world rnd :
  (forall n, (0 <= rnd n < 1)%R) -> well_formed (initial_world rnd).
Proof.
  intros Hrnd. split; [exact Hrnd|]. split; [left; reflexivity|].
  split; [discriminate | exact I].
Qed.

Lemma handlers_throw_in_two_cases_only_example :
  (throws_on ClickReset (initial_world (fun _ => 0%R)) ->
   handle ClickReset (initial_world (fun _ => 0%R)) = Thrown TypeError) /\
  (~ throws_on ClickReset (initial_world (fun _ => 0%R)) ->
   exists w', handle ClickReset (initial_world (fun _ => 0%R)) = Returned w' /\
              well_formed w').
Proof.
  apply handlers_throw_in_two_cases_only, well_formed_initial_world.
  intros n. lra.
Defined.

(** ** A run up to [maxIterations] *)

Lemma frames_up_to_the_limit ctl : forall m w,
  well_formed w -> isRunning w = true -> recorded w ->
  maxIterations ctl = Z.of_nat (iteration w + S m) ->
  exists w' a,
    handle_all (replicate (S m) (FrameLoop ctl)) w = Returned w' /\
    isRunning w' = false /\ iteration w' = (iteration w + S m)%nat /\
    currentAlgorithm w' = Some a /\
    executionCount w' = S (executionCount w) /\
    executionHistories w' !! S (executionCount w)
    = Some (Entry.mk (currentRunHistory w) (algorithm_color a)
              (Benchmark.name (currentFunction (engine w)))) /\
    length (deref w' (currentRunHistory w)) = S (iteration w + S m).
Proof.
  induction m as [|m IH]; intros w Hw Hrun Hrec Hmax;
    cbn [replicate handle_all handle]; rewrite loop_cases, Hrun;
    pose proof Hw as (Hfair & Hcat & Hbusy & Halg);
    destruct (Hbusy Hrun) as [Hrep Hsome];
    destruct (currentAlgorithm w) as [a|] eqn:Ea; try congruence;
    destruct (algorithm_step_returns w a Hw Ea) as (a' & g' & -> & Hfair' & Hf' & Ha');
    pose proof (recorded_stepped w a a' g' Ea Hrec) as Hrec';
    unfold recorded in Hrec'; cbn [stepped currentAlgorithm] in Hrec';
    change (currentRunHistory (stepped w a' g')) with (currentRunHistory w) in Hrec';
    change (iteration (stepped w a' g')) with (S (iteration w)) in Hrec';
    destruct Hrec' as [Href' Hlen'].
  - rewrite !bool_decide_eq_true_2 by lia. cbn [andb].
    rewrite stopSimulation_cases.
    change (isReplaying (stepped w a' g')) with (isReplaying w). rewrite Hrep.
    change (iteration (stepped w a' g')) with (S (iteration w)).
    rewrite bool_decide_eq_true_2 by lia. cbn [andb stepped currentAlgorithm].
    eexists _, a'. split; [reflexivity|]. cbn [logged isRunning iteration stepped
      currentAlgorithm executionCount executionHistories currentRunHistory engine].
    split; [reflexivity|]. split; [lia|]. split; [reflexivity|]. split; [reflexivity|].
    split; [rewrite lookup_insert_eq, Hf'; reflexivity|].
    unfold deref in *. cbn [logged heap]. rewrite Hlen'. lia.
  - rewrite (bool_decide_eq_false_2 (maxIterations ctl <= _)%Z) by lia.
    rewrite andb_false_r.
    destruct (IH (stepped w a' g')) as (w' & a2 & E & H1 & H2 & H3 & H4 & H5 & H6).
    + split; [exact Hfair'|]. split; [cbn [stepped engine]; rewrite Hf'; exact Hcat|].
      split; [intros _; split; [exact Hrep | discriminate]|].
      cbn [stepped currentAlgorithm engine]. exact Ha'.
    + exact Hrun.
    + unfold recorded. cbn [stepped currentAlgorithm]. split; assumption.
    + cbn [stepped iteration]. lia.
    + exists w', a2. change (replicate (S m) (FrameLoop ctl))
        with (FrameLoop ctl :: replicate m (FrameLoop ctl)) in E.
      split; [exact E|]. cbn [stepped iteration executionCount currentRunHistory engine]
        in H2, H4, H5, H6.
      split; [exact H1|]. split; [lia|]. split; [exact H3|]. split; [exact H4|].
      split; [rewrite H5, Hf'; reflexivity|]. rewrite H6. lia.
Qed.

(** X25.  A run started on a well-formed page without an optimizer, with
    [maxIterations = n >= 1] in the form: Run and the next [n - 1] frames
    all return; the run then has stopped by itself after exactly [n]
    iterations and was logged once, under the next id, with the name of the
    current function, the color of the optimizer and a history of [n + 1]
    snapshots. *)
Theorem a_run_stops_at_maxIterations (ctl : controls) (w : world) (n : nat) :
  well_formed w -> isRunning w = false -> isReplaying w = false ->
  currentAlgorithm w = None -> maxIterations ctl = Z.of_nat (S n) ->
  exists w' a e,
    handle_all (ClickRun ctl :: replicate n (FrameLoop ctl)) w = Returned w' /\
    isRunning w' = false /\ iteration w' = S n /\ currentAlgorithm w' = Some a /\
    executionCount w' = S (executionCount w) /\
    executionHistories w' !! S (executionCount w) = Some e /\
    Entry.functionName e = Benchmark.name (currentFunction (engine w)) /\
    Entry.color e = algorithm_color a /\
    length (deref w' (Entry.history e)) = S (S n).
Proof.
  intros (Hfair & Hcat & _ & _) Hrun Hrep Ha Hmax.
  destruct (construct_returns ctl (reset_best (engine w)))
    as (a0 & g1 & Ec & Hfair1 & Hf1 & Ha1); [exact Hfair | exact Hcat | split; reflexivity |].
  destruct (frames_up_to_the_limit ctl n (started w a0 g1))
    as (w' & a & E & H1 & H2 & H3 & H4 & H5 & H6).
  - split; [exact Hfair1|]. split; [cbn [started engine]; rewrite Hf1; exact Hcat|].
    split; [intros _; split; [reflexivity | discriminate]|].
    cbn [started currentAlgorithm engine]. exact Ha1.
  - reflexivity.
  - apply recorded_started.
  - cbn [started iteration]. rewrite Hmax. f_equal.
  - eexists w', a, _.
    split.
    { cbn [handle_all handle]. rewrite startSimulation_cases, Hrun, Hrep, Ha, Ec.
      exact E. }
    cbn [started iteration executionCount currentRunHistory engine] in H2, H4, H5, H6.
    split; [exact H1|]. split; [exact H2|]. split; [exact H3|]. split; [exact H4|].
    split; [exact H5|]. cbn [Entry.functionName Entry.color Entry.history].
    split; [rewrite Hf1; reflexivity|]. split; [reflexivity|]. rewrite H6. reflexivity.
Qed.

Lemma a_run_stops_at_maxIterations_example :
  exists w' a e,
    handle_all (ClickRun example_controls :: replicate 0 (FrameLoop example_controls))
      (initial_world (fun _ => 0%R)) = Returned w' /\
    isRunning w' = false /\ iteration w' = 1%nat /\ currentAlgorithm w' = Some a /\
    executionCount w' = 1%nat /\
    executionHistories w' !! 1%nat = Some e /\
    Entry.functionName e = "Sphere"%string /\
    Entry.color e = algorithm_color a /\
    length (deref w' (Entry.history e)) = 2%nat.
Proof.
  apply (a_run_stops_at_maxIterations example_controls (initial_world (fun _ => 0%R)) 0).
  - apply well_formed_initial_world. intros n. lra.
  - reflexivity.
  - reflexivity.
  - reflexivity.
  - reflexivity.
Defined.

(* ===================================================================== *)
(** * Part VI: the buttons                                                *)
(* ===================================================================== *)

(** ** The handlers with buttons, in terms of the handlers without *)

Lemma Dom_stopSimulation_eq shouldLog w d :
  Dom.stopSimulation shouldLog (w, d)
  = match stopSimulation shouldLog w with
    | Returned w' => Returned (w', stop_buttons w d)
    | Thrown e => Thrown e
    end.
Proof.
  unfold Dom.stopSimulation, stopSimulation, stop_buttons.
  destruct (isReplaying w); [reflexivity|].
  destruct (shouldLog && _); [|reflexivity].
  destruct (logResult _); reflexivity.
Qed.

Lemma Dom_resetSimulation_eq w d :
  Dom.resetSimulation (w, d) = Returned (cleared w, free_buttons).
Proof.
  destruct w as [g run rep alg it count cur hist hp cv].
  unfold Dom.resetSimulation, Dom.stopSimulation. world_fields.
  destruct rep; reflexivity.
Qed.

Lemma Dom_loop_eq ctl w d :
  Dom.loop ctl (w, d)
  = match loop ctl w with
    | Returned w' => Returned (w', loop_buttons ctl w d)
    | Thrown e => Thrown e
    end.
Proof.
  rewrite loop_cases. unfold loop_buttons.
  destruct w as [g run rep alg it count cur hist hp cv].
  unfold Dom.loop. world_fields. destruct run; [|reflexivity]. cbn [negb andb].
  destruct alg as [a|]; [|reflexivity].
  destruct (algorithm_step a g) as [[a' g']|]; [|reflexivity].
  destruct (_ && _); [|reflexivity].
  rewrite Dom_stopSimulation_eq. reflexivity.
Qed.

Lemma Dom_startSimulation_eq ctl w d :
  Dom.startSimulation ctl (w, d)
  = if isRunning w || isReplaying w then Returned (w, d)
    else match currentAlgorithm w with
         | Some _ => Dom.loop ctl (with_isRunning true w, busy_buttons)
         | None =>
             match construct ctl (reset_best (engine w)) with
             | Returned (a, g1) => Dom.loop ctl (started w a g1, busy_buttons)
             | Thrown e => Thrown e
             end
         end.
Proof.
  unfold Dom.startSimulation.
  destruct (isRunning w || isReplaying w) eqn:Ebusy; [reflexivity|].
  apply orb_false_iff in Ebusy as [Hrun Hrep].
  destruct (currentAlgorithm w) as [a|] eqn:Ea; [reflexivity|].
  rewrite Dom_resetSimulation_eq.
  destruct w as [g run rep alg it count cur hist hp cv].
  cbn [isRunning isReplaying currentAlgorithm engine] in *. subst.
  unfold run_engine. cbn [cleared engine].
  destruct (construct ctl (reset_best g)) as [[a g1]|]; [|reflexivity].
  f_equal. world_fields. cbn [andb]. f_equal.
  rewrite length_app, <- app_assoc. cbn [length app].
  replace (length hp + 1)%nat with (S (length hp)) by lia. reflexivity.
Qed.

Lemma Dom_replayLoop_eq h c w d :
  Dom.replayLoop h c (w, d) = (replayLoop h c w, replay_buttons h w d).
Proof.
  unfold Dom.replayLoop, replayLoop, replay_buttons.
  destruct (isReplaying w); [|reflexivity]. cbn [negb].
  destruct (_ !! _); reflexivity.
Qed.

Lemma Dom_startReplay_eq id w d :
  Dom.startReplay id (w, d)
  = if isRunning w || isReplaying w then (w, d)
    else match executionHistories w !! id with
         | None => (w, d)
         | Some data =>
             Dom.replayLoop (Entry.history data) (Entry.color data)
               (replay_ready w data, busy_buttons)
         end.
Proof.
  destruct w as [g run rep alg it count cur hist hp cv].
  unfold Dom.startReplay. world_fields.
  destruct (run || rep); [reflexivity|].
  destruct (hist !! id) as [data|]; [|reflexivity].
  f_equal. f_equal. destruct (String.eqb _ _); [reflexivity|].
  destruct (function_named _); reflexivity.
Qed.

(** The world of the page with buttons goes as the world without. *)
Lemma Dom_handle_world e w d :
  match Dom.handle e (w, d) with
  | Returned p' => handle e w = Returned (fst p')
  | Thrown x => handle e w = Thrown x
  end.
Proof.
  destruct e; cbn [Dom.handle handle].
  - rewrite Dom_startSimulation_eq, startSimulation_cases.
    destruct (_ || _); [reflexivity|].
    destruct (currentAlgorithm w).
    + rewrite Dom_loop_eq. destruct (loop _ _); reflexivity.
    + destruct (construct _ _) as [[a g1]|]; [|reflexivity].
      rewrite Dom_loop_eq. destruct (loop _ _); reflexivity.
  - rewrite Dom_stopSimulation_eq. destruct (stopSimulation _ _); reflexivity.
  - rewrite Dom_resetSimulation_eq, resetSimulation_eq. reflexivity.
  - rewrite Dom_resetSimulation_eq, resetSimulation_eq. reflexivity.
  - unfold Dom.onFunctionChange, onFunctionChange.
    destruct (_ <$> _); [|reflexivity].
    rewrite Dom_resetSimulation_eq, resetSimulation_eq. reflexivity.
  - rewrite Dom_startReplay_eq, startReplay_cases.
    destruct (_ || _); [reflexivity|]. destruct (_ !! _); [|reflexivity].
    rewrite Dom_replayLoop_eq. reflexivity.
  - rewrite Dom_loop_eq. destruct (loop _ _); reflexivity.
  - rewrite Dom_replayLoop_eq. reflexivity.
Qed.

Lemma well_formed_handle e w w' :
  well_formed w -> handle e w = Returned w' -> well_formed w'.
Proof.
  intros Hw E.
  assert (~ throws_on e w) as Hno.
  { intros H%handle_throws. congruence. }
  destruct (handle_returns e w Hw Hno) as (w'' & E' & Hw''). congruence.
Qed.

Lemma Dom_handle_returns e w d p' :
  Dom.handle e (w, d) = Returned p' -> handle e w = Returned (fst p').
Proof. intros E. pose proof (Dom_handle_world e w d) as H. rewrite E in H. exact H. Qed.

Lemma Returned_eq {A : Type} (a b : A) : Returned a = Returned b -> a = b.
Proof. congruence. Qed.

(** ** Stop is enabled only where it is safe *)

Lemma stop_is_safe_disabled w d : btnStop_disabled d = true -> stop_is_safe (w, d).
Proof. intros H H'. cbn in H'. congruence. Qed.

Lemma stop_is_safe_stop_buttons w' w d : stop_is_safe (w', stop_buttons w d).
Proof. apply stop_is_safe_disabled. unfold stop_buttons. destruct (isReplaying w); reflexivity. Qed.

Lemma stop_is_safe_loop ctl w d p' :
  stop_is_safe (w, d) -> Dom.loop ctl (w, d) = Returned p' -> stop_is_safe p'.
Proof.
  intros Hs. rewrite Dom_loop_eq, loop_cases. unfold loop_buttons.
  destruct (isRunning w); [|intros [= <-]; exact Hs].
  destruct (currentAlgorithm w) as [a|]; [|discriminate].
  destruct (algorithm_step a (engine w)) as [[a' g']|]; [|discriminate].
  cbn [andb]. destruct (_ && _).
  - destruct (stopSimulation _ _); [|discriminate]. intros [= <-].
    apply stop_is_safe_stop_buttons.
  - intros [= <-]. intros _. right. left. discriminate.
Qed.

Lemma stop_is_safe_replayLoop h c w d :
  stop_is_safe (w, d) -> stop_is_safe (Dom.replayLoop h c (w, d)).
Proof.
  intros Hs. rewrite Dom_replayLoop_eq, replayLoop_cases. unfold replay_buttons.
  destruct (isReplaying w) eqn:Hrep; [|exact Hs].
  destruct (_ !! _).
  - intros _. left. exact Hrep.
  - apply stop_is_safe_disabled. reflexivity.
Qed.

Lemma stop_is_safe_handle e w d p' :
  stop_is_safe (w, d) -> Dom.handle e (w, d) = Returned p' -> stop_is_safe p'.
Proof.
  intros Hs. destruct e; cbn [Dom.handle].
  - rewrite Dom_startSimulation_eq. destruct (_ || _); [intros [= <-]; exact Hs|].
    destruct (currentAlgorithm w) as [a|] eqn:Ea.
    + apply stop_is_safe_loop. intros _. right. left. cbn. congruence.
    + destruct (construct _ _) as [[a g1]|]; [|discriminate].
      apply stop_is_safe_loop. intros _. right. left. discriminate.
  - rewrite Dom_stopSimulation_eq. destruct (stopSimulation _ _); [|discriminate].
    intros [= <-]. apply stop_is_safe_stop_buttons.
  - rewrite Dom_resetSimulation_eq. intros [= <-]. apply stop_is_safe_disabled. reflexivity.
  - rewrite Dom_resetSimulation_eq. intros [= <-]. apply stop_is_safe_disabled. reflexivity.
  - unfold Dom.onFunctionChange. destruct (_ <$> _); [|discriminate].
    rewrite Dom_resetSimulation_eq. intros [= <-]. apply stop_is_safe_disabled. reflexivity.
  - rewrite Dom_startReplay_eq. intros <-%Returned_eq.
    destruct (_ || _); [exact Hs|]. destruct (_ !! _); [|exact Hs].
    apply stop_is_safe_replayLoop. intros _. left. reflexivity.
  - apply stop_is_safe_loop, Hs.
  - intros <-%Returned_eq. apply stop_is_safe_replayLoop, Hs.
Qed.

Lemma dispatch_returns e w d :
  well_formed w -> stop_is_safe (w, d) -> known_key e ->
  exists p', Dom.dispatch e (w, d) = Returned p' /\
             well_formed (fst p') /\ stop_is_safe p'.
Proof.
  intros Hw Hs Hk. unfold Dom.dispatch. cbn [snd].
  destruct (Dom.enabled e d) eqn:Hen; [|eauto].
  assert (~ throws_on e w) as Hno.
  { intros [(-> & Hrep & Hit & Ha)|(key & -> & Hkey)].
    - cbn in Hen. apply negb_true_iff in Hen.
      destruct (Hs Hen) as [H|[H|H]]; cbn in H; [congruence | congruence | lia].
    - apply Hkey, Hk. }
  destruct (handle_returns e w Hw Hno) as (w' & E & Hw').
  pose proof (Dom_handle_world e w d) as H.
  destruct (Dom.handle e (w, d)) as [p'|x] eqn:Ed; [|congruence].
  exists p'. split; [reflexivity|]. split.
  - rewrite E in H. injection H as <-. exact Hw'.
  - eapply stop_is_safe_handle; eassumption.
Qed.

(** X26.  From the load of the page on, whatever the initial state of the
    buttons, no click on an enabled control and no animation frame makes a
    handler throw, as long as [Math.random()] keeps its contract and the
    function select only offers keys of [functions]: every event of every
    sequence returns, and the page stays well-formed. *)
Theorem no_event_on_an_enabled_control_throws
    (rnd : nat -> R) (d : buttons) (es : list event) :
  (forall n, (0 <= rnd n < 1)%R) -> Forall known_key es ->
  exists p', Dom.dispatch_all es (initial_world rnd, d) = Returned p' /\
             well_formed (fst p').
Proof.
  intros Hrnd Hes.
  assert (well_formed (initial_world rnd) /\ stop_is_safe (initial_world rnd, d)) as H0.
  { split; [apply well_formed_initial_world, Hrnd|]. intros _. right. right. reflexivity. }
  revert H0. generalize (initial_world rnd) as w. revert d.
  induction Hes as [|e es He Hes IH]; intros d w [Hw Hs]; cbn [Dom.dispatch_all].
  - exists (w, d). auto.
  - destruct (dispatch_returns e w d Hw Hs He) as ([w1 d1] & -> & Hw1 & Hs1).
    apply IH. auto.
Qed.

Lemma no_event_on_an_enabled_control_throws_example :
  exists p',
    Dom.dispatch_all [ClickRun example_controls; ClickStop; ClickReplay 1; ClickStop]
      (initial_world (fun _ => 0%R), busy_buttons) = Returned p' /\
    well_formed (fst p').
Proof.
  apply no_event_on_an_enabled_control_throws.
  - intros n. lra.
  - repeat constructor.
Defined.

(** ** The buttons follow the state *)

Lemma buttons_follow_stop shouldLog w d w' :
  well_formed w -> stopSimulation shouldLog w = Returned w' ->
  buttons_follow (w', stop_buttons w d).
Proof.
  intros (_ & _ & Hbusy & _). rewrite stopSimulation_cases. unfold stop_buttons.
  destruct (isReplaying w) eqn:Hrep.
  - intros [= <-]. unfold buttons_follow. cbn [fst snd with_isReplaying isRunning isReplaying].
    destruct (isRunning w); [destruct (Hbusy eq_refl); congruence|].
    cbn. repeat split; discriminate.
  - intros E.
    assert (isRunning w' = false /\ isReplaying w' = false) as [Hr' Hp'].
    { destruct (shouldLog && _).
      - destruct (currentAlgorithm w); [|discriminate]. injection E as <-.
        split; [reflexivity | exact Hrep].
      - injection E as <-. split; [reflexivity | exact Hrep]. }
    unfold buttons_follow. cbn [fst snd]. rewrite Hr', Hp'.
    cbn. repeat split; discriminate.
Qed.

Lemma buttons_follow_free w : well_formed w -> buttons_follow (cleared w, free_buttons).
Proof.
  intros (_ & _ & Hbusy & _). unfold buttons_follow.
  cbn [fst snd cleared isRunning isReplaying].
  destruct (isReplaying w) eqn:Hrep, (isRunning w) eqn:Hrun; cbn;
    try (repeat split; discriminate).
  destruct (Hbusy eq_refl). congruence.
Qed.

Lemma buttons_follow_loop ctl w d p' :
  well_formed w -> buttons_follow (w, d) -> Dom.loop ctl (w, d) = Returned p' ->
  buttons_follow p'.
Proof.
  intros Hw Hb. rewrite Dom_loop_eq. pose proof (loop_cases ctl w) as Hl.
  unfold loop_buttons. destruct (isRunning w) eqn:Hrun.
  2:{ rewrite Hl. intros [= <-]. exact Hb. }
  pose proof Hw as (Hfair & Hcat & Hbusy & Halg).
  destruct (Hbusy Hrun) as [Hrep _].
  destruct (currentAlgorithm w) as [a|] eqn:Ea; [|rewrite Hl; discriminate].
  destruct (algorithm_step a (engine w)) as [[a' g']|] eqn:Es; [|rewrite Hl; discriminate].
  cbn [andb]. destruct (_ && _) eqn:Ec.
  - rewrite Hl. destruct (stopSimulation true (stepped w a' g')) as [w'|] eqn:E;
      [|discriminate].
    intros [= <-].
    assert (buttons_follow (w', stop_buttons (stepped w a' g') d)) as H.
    { eapply buttons_follow_stop; [|exact E].
      destruct (algorithm_step_returns w a) as (a2 & g2 & E2 & Hfair' & Hf' & Ha');
        [exact Hw | exact Ea |].
      rewrite Es in E2. injection E2 as <- <-.
      split; [exact Hfair'|]. split; [cbn [stepped engine]; rewrite Hf'; exact Hcat|].
      split; [intros _; split; [exact Hrep | discriminate]|]. exact Ha'. }
    exact H.
  - rewrite Hl. intros [= <-]. unfold buttons_follow in *.
    cbn [fst snd stepped isRunning isReplaying] in *. exact Hb.
Qed.

Lemma buttons_follow_replayLoop h c w d :
  well_formed w -> buttons_follow (w, d) -> buttons_follow (Dom.replayLoop h c (w, d)).
Proof.
  intros (_ & _ & Hbusy & _) Hb. rewrite Dom_replayLoop_eq, replayLoop_cases.
  unfold replay_buttons. destruct (isReplaying w) eqn:Hrep; [|exact Hb].
  destruct (_ !! _).
  - unfold buttons_follow in *.
    cbn [fst snd with_iteration with_canvas isRunning isReplaying] in *.
    rewrite Hrep in *. exact Hb.
  - unfold buttons_follow. cbn [fst snd with_isReplaying isRunning isReplaying].
    destruct (isRunning w); [destruct (Hbusy eq_refl); congruence|].
    cbn. repeat split; discriminate.
Qed.

Lemma buttons_follow_busy w :
  isRunning w || isReplaying w = true -> buttons_follow (w, busy_buttons).
Proof.
  intros H. unfold buttons_follow. cbn [fst snd]. rewrite H. repeat split.
Qed.

Lemma buttons_follow_handle e w d p' :
  well_formed w -> buttons_follow (w, d) -> Dom.handle e (w, d) = Returned p' ->
  buttons_follow p'.
Proof.
  intros Hw Hb. destruct e; cbn [Dom.handle].
  - rewrite Dom_startSimulation_eq.
    destruct (isRunning w || isReplaying w) eqn:Ebusy; [intros [= <-]; exact Hb|].
    apply orb_false_iff in Ebusy as [Hrun Hrep].
    destruct Hw as (Hfair & Hcat & Hbusy & Halg).
    destruct (currentAlgorithm w) as [a|] eqn:Ea.
    + apply buttons_follow_loop; [|apply buttons_follow_busy; reflexivity].
      split; [exact Hfair|]. split; [exact Hcat|].
      split; [intros _; split; [exact Hrep | cbn; congruence]|].
      cbn [with_isRunning currentAlgorithm engine]. rewrite Ea. exact Halg.
    + destruct (construct_returns ctl (reset_best (engine w)))
        as (a & g1 & -> & Hfair1 & Hf1 & Ha1);
        [exact Hfair | exact Hcat | split; reflexivity |].
      apply buttons_follow_loop; [|apply buttons_follow_busy; reflexivity].
      split; [exact Hfair1|]. split; [cbn [started engine]; rewrite Hf1; exact Hcat|].
      split; [intros _; split; [reflexivity | discriminate]|]. exact Ha1.
  - rewrite Dom_stopSimulation_eq.
    destruct (stopSimulation true w) as [w'|] eqn:E; [|discriminate].
    intros [= <-]. eapply buttons_follow_stop; eassumption.
  - rewrite Dom_resetSimulation_eq. intros [= <-]. apply buttons_follow_free, Hw.
  - rewrite Dom_resetSimulation_eq. intros [= <-]. apply buttons_follow_free, Hw.
  - unfold Dom.onFunctionChange. destruct (_ <$> _) as [f|]; [|discriminate].
    rewrite Dom_resetSimulation_eq. intros [= <-].
    destruct Hw as (_ & _ & Hbusy & _).
    unfold buttons_follow. cbn [fst snd cleared with_engine isRunning isReplaying].
    destruct (isReplaying w) eqn:Hrep, (isRunning w) eqn:Hrun; cbn;
      try (repeat split; discriminate).
    destruct (Hbusy eq_refl). congruence.
  - rewrite Dom_startReplay_eq. intros <-%Returned_eq.
    destruct (isRunning w || isReplaying w) eqn:Ebusy; [exact Hb|].
    apply orb_false_iff in Ebusy as [Hrun Hrep].
    destruct (_ !! _) as [data|] eqn:Ed; [|exact Hb].
    apply buttons_follow_replayLoop.
    + pose proof (well_formed_startReplay id w Hw) as H.
      destruct Hw as (Hfair & Hcat & Hbusy & Halg).
      unfold well_formed. cbn [replay_ready engine isRunning isReplaying currentAlgorithm].
      destruct (String.eqb _ _).
      { split; [exact Hfair|]. split; [exact Hcat|]. split; [congruence | exact Halg]. }
      destruct (function_named _) as [f|] eqn:Ef.
      * split; [exact Hfair|]. split; [eapply function_named_in_catalog, Ef|].
        split; [congruence | exact Halg].
      * split; [exact Hfair|]. split; [exact Hcat|]. split; [congruence | exact Halg].
    + apply buttons_follow_busy. cbn. apply orb_true_r.
  - apply buttons_follow_loop; assumption.
  - intros <-%Returned_eq. apply buttons_follow_replayLoop; assumption.
Qed.

(** X27.  Once Reset has been clicked the buttons follow the state of the
    page through every later event: Run is disabled exactly while a run or a
    replay is in progress, Stop is enabled exactly then, and during a run or
    a replay both selects are disabled, so that the algorithm and the
    function cannot be changed under it. *)
Theorem the_buttons_follow_the_state
    (es : list event) (w : world) (d : buttons) (p' : Dom.page) :
  well_formed w ->
  Dom.dispatch_all (ClickReset :: es) (w, d) = Returned p' ->
  buttons_follow p'.
Proof.
  intros Hw. cbn [Dom.dispatch_all]. unfold Dom.dispatch at 1.
  cbn [Dom.enabled snd Dom.handle]. rewrite Dom_resetSimulation_eq.
  assert (well_formed (cleared w) /\ buttons_follow (cleared w, free_buttons)) as H0.
  { split; [apply well_formed_cleared, Hw | apply buttons_follow_free, Hw]. }
  revert H0. generalize (cleared w) as w0. generalize free_buttons as d0.
  induction es as [|e es IH]; intros d0 w0 [Hw0 Hb0]; cbn [Dom.dispatch_all].
  - intros [= <-]. exact Hb0.
  - unfold Dom.dispatch at 1. cbn [snd].
    destruct (Dom.enabled e d0); [|apply IH; auto].
    destruct (Dom.handle e (w0, d0)) as [[w1 d1]|] eqn:E; [|discriminate].
    apply IH. split.
    + eapply well_formed_handle; [exact Hw0|].
      apply (Dom_handle_returns e w0 d0 (w1, d1) E).
    + eapply buttons_follow_handle; eassumption.
Qed.

Lemma the_buttons_follow_the_state_example :
  buttons_follow (cleared (initial_world (fun _ => 0%R)), free_buttons).
Proof.
  apply (the_buttons_follow_the_state [] (initial_world (fun _ => 0%R)) busy_buttons).
  - apply well_formed_initial_world. intros n. lra.
  - cbn [Dom.dispatch_all]. unfold Dom.dispatch. cbn [Dom.enabled snd Dom.handle].
    rewrite Dom_resetSimulation_eq. reflexivity.
Defined.
